(** * Mood-to-Memories: the entry/mood data model and its derived views

    A shallow embedding of [script.js]: the Entry Store, the Mood
    Registry, the Filter State and the four derived views (chart counts,
    calendar cells, word frequencies, filtered timeline), followed by the
    properties the specification states about them.

    Conventions of the embedding.
    - A JavaScript string is a [string]: a sequence of code units in the
      range 0..255 (ASCII and Latin-1).  [toLowerCase], [trim] and the
      regular-expression classes are written out on that range.
    - A timestamp is an integer number of milliseconds ([Z]); this is
      what [Date.now()] produces.
    - [localStorage] is a finite map from keys to texts.
    - Module-level [let] variables of the script become the fields of
      one state record which every handler takes and returns. *)

From Stdlib Require Import ZArith Ascii DecimalString DecimalZ.
From stdpp Require Import base option list gmap strings sorting.

Local Open Scope Z_scope.
Local Open Scope stdpp_scope.

(** ** Characters and strings *)

Module Chars.

Definition code (c : ascii) : N := N_of_ascii c.

Definition between (lo hi : N) (c : ascii) : bool :=
  ((lo <=? code c) && (code c <=? hi))%N.

Definition isDigit : ascii → bool := between 48 57.
Definition isLower : ascii → bool := between 97 122.
Definition isUpper : ascii → bool := between 65 90.

(** [\w] of a regular expression without the [u] flag. *)
Definition isWordChar (c : ascii) : bool :=
  isLower c || isUpper c || isDigit c || (code c =? 95)%N.

(** Upper-case letters of Latin-1: A-Z and U+00C0..U+00DE but U+00D7. *)
Definition hasLowerCase (c : ascii) : bool :=
  isUpper c || (between 192 222 c && negb (code c =? 215)%N).

Definition toLowerChar (c : ascii) : ascii :=
  if hasLowerCase c then ascii_of_N (code c + 32) else c.

(** White space that [String.prototype.trim] strips, in 0..255. *)
Definition isTrimSpace (c : ascii) : bool :=
  between 9 13 c || (code c =? 32)%N || (code c =? 160)%N.

Definition dquote : ascii := "034"%char.
Definition backslash : ascii := "092"%char.

End Chars.

Definition chars (s : string) : list ascii := String.list_ascii_of_string s.
Definition str (l : list ascii) : string := String.string_of_list_ascii l.

(** [s.toLowerCase()] *)
Definition toLowerCase (s : string) : string :=
  str (map Chars.toLowerChar (chars s)).

Fixpoint dropSpaces (l : list ascii) : list ascii :=
  match l with
  | c :: l' => if Chars.isTrimSpace c then dropSpaces l' else l
  | [] => []
  end.

(** [s.trim()] *)
Definition trim (s : string) : string :=
  str (rev (dropSpaces (rev (dropSpaces (chars s))))).

(** Truthiness of a string value: only the empty string is falsy. *)
Definition truthy (s : string) : bool := negb (String.eqb s "").

(** Truthiness of a value that is a string, [null] or [undefined]. *)
Definition truthyOpt (o : option string) : bool :=
  match o with Some s => truthy s | None => false end.

(** [parts.join(sep)] *)
Fixpoint join (sep : string) (parts : list string) : string :=
  match parts with
  | [] => ""
  | [p] => p
  | p :: ps => p +:+ sep +:+ join sep ps
  end.

(** ** Data model *)

(** An entry as the submit handler builds it: [{mood, text, timestamp}]. *)
Record Entry := mkEntry { mood : string; text : string; timestamp : Z }.

(** A mood definition: [{name, icon, color}]. *)
Record Mood := mkMood { name : string; icon : string; color : string }.

Global Instance Entry_eq_dec : EqDecision Entry.
Proof. solve_decision. Defined.

Global Instance Mood_eq_dec : EqDecision Mood.
Proof. solve_decision. Defined.

(** [const builtInMoodNames = ['Happy', 'Sad', 'Angry', 'Excited', 'Calm']] *)
Definition builtInMoodNames : list string :=
  ["Happy"; "Sad"; "Angry"; "Excited"; "Calm"].

(** [arr.includes(x)] on an array of strings. *)
Definition includes (arr : list string) (x : string) : bool :=
  existsb (String.eqb x) arr.

(** The registry seeded by [loadMoodList] when nothing was saved. *)
Definition defaultMoods : list Mood :=
  [ mkMood "Happy" "fa-smile-beam" "#6c63ff";
    mkMood "Sad" "fa-frown" "#f77754";
    mkMood "Angry" "fa-angry" "#ff9a56";
    mkMood "Excited" "fa-grin-stars" "#f0c808";
    mkMood "Calm" "fa-spa" "#55c57a" ].

(** ** JSON text of the two persisted snapshots

    [saveEntries] and [saveMoodList] write [JSON.stringify(array)];
    [loadEntries] and [loadMoodList] read it back with [JSON.parse].
    The printer below produces the text [JSON.stringify] produces for an
    array of such records.  The reader is a lexer for JSON tokens
    followed by a reader of the record shape; on any other text it
    answers [None], which stands for a [JSON.parse] that throws or
    yields a value that is not a snapshot of this shape. *)

Module JSON.

Import Chars.

Inductive token :=
| TLBracket | TRBracket | TLBrace | TRBrace | TColon | TComma
| TString (s : string)
| TNumber (z : Z).

(** *** Printing *)

Definition hexDigit (n : N) : ascii :=
  if (n <? 10)%N then ascii_of_N (48 + n) else ascii_of_N (87 + n).

(** One code unit inside a string literal (QuoteJSONString). *)
Definition quoteChar (c : ascii) : list ascii :=
  if Ascii.eqb c dquote then [backslash; dquote]
  else if Ascii.eqb c backslash then [backslash; backslash]
  else if (code c <? 32)%N then
    match code c with
    | 8%N => [backslash; "b"%char]
    | 9%N => [backslash; "t"%char]
    | 10%N => [backslash; "n"%char]
    | 12%N => [backslash; "f"%char]
    | 13%N => [backslash; "r"%char]
    | n => [backslash; "u"%char; "0"%char; "0"%char;
            hexDigit (n / 16); hexDigit (n mod 16)]
    end
  else [c].

Definition quote (s : string) : list ascii :=
  dquote :: flat_map quoteChar (chars s) ++ [dquote].

(** An integer in decimal, as [Number::toString] prints it. *)
Definition printNumber (z : Z) : list ascii :=
  chars (NilZero.string_of_int (Z.to_int z)).

Definition printToken (t : token) : list ascii :=
  match t with
  | TLBracket => ["["%char]
  | TRBracket => ["]"%char]
  | TLBrace => ["{"%char]
  | TRBrace => ["}"%char]
  | TColon => [":"%char]
  | TComma => [","%char]
  | TString s => quote s
  | TNumber z => printNumber z
  end.

Definition printTokens (ts : list token) : string :=
  str (flat_map printToken ts).

(** The tokens of [[x1,x2,...]] given the tokens of each element. *)
Fixpoint arrayItems (items : list (list token)) : list token :=
  match items with
  | [] => [TRBracket]
  | [i] => i ++ [TRBracket]
  | i :: rest => i ++ TComma :: arrayItems rest
  end.

Definition arrayTokens (items : list (list token)) : list token :=
  TLBracket :: arrayItems items.

Definition entryTokens (e : Entry) : list token :=
  [ TLBrace; TString "mood"; TColon; TString (mood e); TComma;
    TString "text"; TColon; TString (text e); TComma;
    TString "timestamp"; TColon; TNumber (timestamp e); TRBrace ].

Definition moodTokens (m : Mood) : list token :=
  [ TLBrace; TString "name"; TColon; TString (name m); TComma;
    TString "icon"; TColon; TString (icon m); TComma;
    TString "color"; TColon; TString (color m); TRBrace ].

(** [JSON.stringify(entries)] *)
Definition stringifyEntries (es : list Entry) : string :=
  printTokens (arrayTokens (map entryTokens es)).

(** [JSON.stringify(moodList)] *)
Definition stringifyMoods (ms : list Mood) : string :=
  printTokens (arrayTokens (map moodTokens ms)).

(** *** Lexing *)

Inductive lexState :=
| LDefault
| LString (acc : list ascii)
| LEscape (acc : list ascii)
| LUnicode (acc : list ascii) (k : nat) (v : N)
| LNumber (acc : list ascii).

Definition punct (c : ascii) : option token :=
  if Ascii.eqb c "["%char then Some TLBracket
  else if Ascii.eqb c "]"%char then Some TRBracket
  else if Ascii.eqb c "{"%char then Some TLBrace
  else if Ascii.eqb c "}"%char then Some TRBrace
  else if Ascii.eqb c ":"%char then Some TColon
  else if Ascii.eqb c ","%char then Some TComma
  else None.

(** JSON white space: tab, line feed, carriage return, space. *)
Definition isSpace (c : ascii) : bool :=
  (code c =? 9)%N || (code c =? 10)%N || (code c =? 13)%N || (code c =? 32)%N.

Definition hexValue (c : ascii) : option N :=
  if isDigit c then Some (code c - 48)%N
  else if between 97 102 c then Some (code c - 87)%N
  else if between 65 70 c then Some (code c - 55)%N
  else None.

(** The character named by a simple escape [\c]. *)
Definition unescape (c : ascii) : option ascii :=
  if Ascii.eqb c dquote then Some dquote
  else if Ascii.eqb c backslash then Some backslash
  else if Ascii.eqb c "/"%char then Some "/"%char
  else if Ascii.eqb c "b"%char then Some "008"%char
  else if Ascii.eqb c "f"%char then Some "012"%char
  else if Ascii.eqb c "n"%char then Some "010"%char
  else if Ascii.eqb c "r"%char then Some "013"%char
  else if Ascii.eqb c "t"%char then Some "009"%char
  else None.

(** The number whose digits were read, most recent first.  Exact for
    the digits that [JSON.stringify] writes for an integer of at most 53
    bits: [JSON.parse] rounds longer integers to a Number and refuses a
    leading zero, which this reader does not. *)
Definition number (acc : list ascii) : option token :=
  (λ i, TNumber (Z.of_int i)) <$> NilZero.int_of_string (str (rev acc)).

Fixpoint lex (st : lexState) (s : list ascii) : option (list token) :=
  match s with
  | [] =>
      match st with
      | LDefault => Some []
      | LNumber acc => (λ n, [n]) <$> number acc
      | _ => None
      end
  | c :: rest =>
      match st with
      | LDefault =>
          match punct c with
          | Some t => cons t <$> lex LDefault rest
          | None =>
              if Ascii.eqb c dquote then lex (LString []) rest
              else if isDigit c || Ascii.eqb c "-"%char then lex (LNumber [c]) rest
              else if isSpace c then lex LDefault rest
              else None
          end
      | LString acc =>
          if Ascii.eqb c dquote then
            cons (TString (str (rev acc))) <$> lex LDefault rest
          else if Ascii.eqb c backslash then lex (LEscape acc) rest
          else if (code c <? 32)%N then None
          else lex (LString (c :: acc)) rest
      | LEscape acc =>
          match unescape c with
          | Some c' => lex (LString (c' :: acc)) rest
          | None =>
              if Ascii.eqb c "u"%char then lex (LUnicode acc 0 0%N) rest else None
          end
      | LUnicode acc k v =>
          match hexValue c with
          | Some d =>
              let v' := (16 * v + d)%N in
              if (k =? 3)%nat then
                (* code units above 255 are outside the string model *)
                if (v' <? 256)%N then lex (LString (ascii_of_N v' :: acc)) rest
                else None
              else lex (LUnicode acc (S k) v') rest
          | None => None
          end
      | LNumber acc =>
          if isDigit c then lex (LNumber (c :: acc)) rest
          else
            match punct c with
            | Some t => n ← number acc; (λ ts, n :: t :: ts) <$> lex LDefault rest
            | None =>
                if isSpace c then n ← number acc; cons n <$> lex LDefault rest
                else None
            end
      end
  end.

(** Token lists that print unambiguously. *)

Definition isPunct (t : token) : bool :=
  match t with TString _ | TNumber _ => false | _ => true end.

(** Every number is followed by a punctuation mark. *)
Fixpoint delimited (ts : list token) : Prop :=
  match ts with
  | [] => True
  | TNumber _ :: rest =>
      match rest with
      | t :: _ => isPunct t = true ∧ delimited rest
      | [] => False
      end
  | _ :: rest => delimited rest
  end.

(** *** Reading the record shapes *)

Fixpoint readEntryItems (ts : list token) : option (list Entry) :=
  match ts with
  | TLBrace :: TString k1 :: TColon :: TString m :: TComma ::
    TString k2 :: TColon :: TString t :: TComma ::
    TString k3 :: TColon :: TNumber n :: TRBrace :: more =>
      if String.eqb k1 "mood" && String.eqb k2 "text" && String.eqb k3 "timestamp" then
        match more with
        | [TRBracket] => Some [mkEntry m t n]
        | TComma :: more' => cons (mkEntry m t n) <$> readEntryItems more'
        | _ => None
        end
      else None
  | _ => None
  end.

Fixpoint readMoodItems (ts : list token) : option (list Mood) :=
  match ts with
  | TLBrace :: TString k1 :: TColon :: TString n :: TComma ::
    TString k2 :: TColon :: TString i :: TComma ::
    TString k3 :: TColon :: TString c :: TRBrace :: more =>
      if String.eqb k1 "name" && String.eqb k2 "icon" && String.eqb k3 "color" then
        match more with
        | [TRBracket] => Some [mkMood n i c]
        | TComma :: more' => cons (mkMood n i c) <$> readMoodItems more'
        | _ => None
        end
      else None
  | _ => None
  end.

Definition readArray {A} (items : list token → option (list A))
    (ts : list token) : option (list A) :=
  match ts with
  | [TLBracket; TRBracket] => Some []
  | TLBracket :: rest => items rest
  | _ => None
  end.

(** [JSON.parse(saved)] where an array of entries is expected: exact on
    the text that [saveEntries] writes (see [appStore]).  Other text that
    is JSON (another value, other keys or another order of the keys) is
    not read: [JSON.parse] returns a value for it, and what the script
    does with such a value is outside this model. *)
Definition parseEntries (saved : string) : option (list Entry) :=
  lex LDefault (chars saved) ≫= readArray readEntryItems.

(** [JSON.parse(saved)] where an array of moods is expected: exact on
    the text that [saveMoodList] writes (see [appStore]), with the same
    limits as [parseEntries]. *)
Definition parseMoods (saved : string) : option (list Mood) :=
  lex LDefault (chars saved) ≫= readArray readMoodItems.

End JSON.


(** ** Plain objects used as dictionaries

    [updateChart] keeps its counters in [const counts = {}] and the two
    word views keep theirs in [const freq = {}].  Such an object has its
    own properties, listed by [Object.entries] in creation order (no key
    used by the script is an array index), and it inherits the members
    of [Object.prototype].  Reading [o[k]] finds the own property, else
    the inherited member, else [undefined].  Writing [o[k] = v] creates
    or updates an own property, except for the key [__proto__], which is
    an accessor of [Object.prototype] whose setter ignores every value
    that is not an object. *)

Module PlainObject.

(** The property names of [Object.prototype]. *)
Definition inheritedNames : list string :=
  [ "constructor"; "hasOwnProperty"; "isPrototypeOf";
    "propertyIsEnumerable"; "toLocaleString"; "toString"; "valueOf";
    "__defineGetter__"; "__defineSetter__"; "__lookupGetter__";
    "__lookupSetter__"; "__proto__" ].

(** The values that occur in [counts] and [freq]. *)
Inductive value :=
| Num (n : nat)     (* a count *)
| NaN               (* the number NaN *)
| Text              (* a non-empty string that is not a count *)
| Inherited.        (* a member of Object.prototype: a function or the prototype itself *)

Definition t := list (string * value).

Definition empty : t := [].

Fixpoint own (o : t) (k : string) : option value :=
  match o with
  | [] => None
  | (k', v) :: o' => if String.eqb k' k then Some v else own o' k
  end.

(** [o[k]]; [None] is [undefined]. *)
Definition get (o : t) (k : string) : option value :=
  if String.eqb k "__proto__" then Some Inherited
  else match own o k with
       | Some v => Some v
       | None => if includes inheritedNames k then Some Inherited else None
       end.

Fixpoint put (o : t) (k : string) (v : value) : t :=
  match o with
  | [] => [(k, v)]
  | (k', v') :: o' =>
      if String.eqb k' k then (k', v) :: o' else (k', v') :: put o' k v
  end.

(** [o[k] = v] for a primitive [v]. *)
Definition set (o : t) (k : string) (v : value) : t :=
  if String.eqb k "__proto__" then o else put o k v.

(** Truthiness of a value that was read. *)
Definition truthy (v : value) : bool :=
  match v with
  | Num 0 | NaN => false
  | Num (S _) | Text | Inherited => true
  end.

(** [x || 0] where [x] was read from the object. *)
Definition orZero (x : option value) : value :=
  match x with
  | Some v => if truthy v then v else Num 0
  | None => Num 0
  end.

(** [x++] stores ToNumber(x) + 1. *)
Definition increment (v : value) : value :=
  match v with
  | Num n => Num (S n)
  | NaN | Text | Inherited => NaN
  end.

(** [x + 1]: addition on numbers, concatenation as soon as an operand
    is a string or converts to one (a function does). *)
Definition plusOne (v : value) : value :=
  match v with
  | Num n => Num (S n)
  | NaN => NaN
  | Text | Inherited => Text
  end.

(** [b - a] as a sort comparator sees it: a NaN result counts as 0. *)
Definition difference (b a : value) : Z :=
  match b, a with
  | Num nb, Num na => Z.of_nat nb - Z.of_nat na
  | _, _ => 0
  end.

Definition isNum (v : value) : bool :=
  match v with Num _ => true | _ => false end.

End PlainObject.

(** ** [Array.prototype.sort] with a comparator

    The sort is stable, so for a comparator that is a total preorder its
    result is determined; insertion from the right computes it. *)

Fixpoint insertBy {A} (cmp : A → A → Z) (x : A) (l : list A) : list A :=
  match l with
  | [] => [x]
  | y :: l' => if (cmp x y <=? 0) then x :: l else y :: insertBy cmp x l'
  end.

Definition sortBy {A} (cmp : A → A → Z) (l : list A) : list A :=
  foldr (insertBy cmp) [] l.

(** ** [Array.from(new Set(arr))]: first occurrences, in order *)

Fixpoint uniqueFrom (seen : gset string) (l : list string) : list string :=
  match l with
  | [] => []
  | x :: l' =>
      if decide (x ∈ seen) then uniqueFrom seen l'
      else x :: uniqueFrom ({[x]} ∪ seen) l'
  end.

Definition unique (l : list string) : list string := uniqueFrom ∅ l.

(** ** Word frequencies *)

(** [s.match(/\b[a-z]{3,}\b/g)].  A match starts after a character that
    is not [\w] (or at the start), runs over letters [a-z] only, and
    ends before a character that is not [\w] (or at the end): inside a
    run of [\w] characters there is no [\b].  So the matches are the
    maximal [\w]-runs made of at least three letters [a-z]. *)
Inductive scanState :=
| Outside                        (* the previous character is not \w *)
| Letters (acc : list ascii)     (* inside a run of a-z that began at a \b *)
| Blocked.                       (* inside a \w-run that cannot match *)

Definition emit (st : scanState) : list string :=
  match st with
  | Letters acc => if (3 <=? length acc)%nat then [str (rev acc)] else []
  | _ => []
  end.

Fixpoint matchWordsFrom (st : scanState) (s : list ascii) : list string :=
  match s with
  | [] => emit st
  | c :: rest =>
      if Chars.isWordChar c then
        match st with
        | Outside =>
            matchWordsFrom (if Chars.isLower c then Letters [c] else Blocked) rest
        | Letters acc =>
            matchWordsFrom (if Chars.isLower c then Letters (c :: acc) else Blocked) rest
        | Blocked => matchWordsFrom Blocked rest
        end
      else emit st ++ matchWordsFrom Outside rest
  end.

Definition matchWords (s : string) : list string :=
  matchWordsFrom Outside (chars s).

(** The stopword set of [updateTrending]. *)
Definition trendingStopwords : list string :=
  [ "the"; "and"; "to"; "is"; "it"; "in"; "a"; "of"; "on"; "for"; "with";
    "that"; "this"; "today"; "i"; "was"; "my"; "me"; "at" ].

(** The stopword set of [updateWordCloud]. *)
Definition cloudStopwords : list string :=
  [ "the"; "and"; "to"; "is"; "it"; "in"; "a"; "of"; "on"; "for"; "with";
    "that"; "this"; "today"; "i"; "was"; "my"; "me"; "at";
    "had"; "have"; "has"; "you"; "we" ].

(** [if (!stopwords.has(w)) freq[w] = (freq[w] || 0) + 1] *)
Definition countWord (stopwords : list string) (freq : PlainObject.t) (w : string)
    : PlainObject.t :=
  if includes stopwords w then freq
  else PlainObject.set freq w
         (PlainObject.plusOne (PlainObject.orZero (PlainObject.get freq w))).

(** The loop [entries.forEach(entry => ...)] that fills [freq]. *)
Definition wordFrequencies (stopwords : list string) (es : list Entry)
    : PlainObject.t :=
  foldl (λ freq e, foldl (countWord stopwords) freq (matchWords (toLowerCase (text e))))
        PlainObject.empty es.

(** [Object.entries(freq).sort((a,b) => b[1] - a[1])], a stable sort.
    The order is that of the script when every count is a number; with
    a count that is none (the word [constructor]) the comparator is no
    order and only the keys that are listed are those of the script. *)
Definition ranked (freq : PlainObject.t) : list (string * PlainObject.value) :=
  sortBy (λ a b, PlainObject.difference b.2 a.2) freq.

(** The words (with counts) that [updateTrending] shows. *)
Definition updateTrending (es : list Entry) : list (string * PlainObject.value) :=
  take 5 (ranked (wordFrequencies trendingStopwords es)).

(** The words that [updateWordCloud] shows; the font size of a word is
    computed from its count and the first count, colour and position
    are random. *)
Definition updateWordCloud (es : list Entry) : list (string * PlainObject.value) :=
  take 20 (ranked (wordFrequencies cloudStopwords es)).

(** ** Application state *)

(** The two fields of [entryForm] that the submit handler reads: the
    checked radio button named [mood] (if any) and the text area. *)
Record Form := mkForm { selectedMood : option string; entryText : string }.

Definition blankForm : Form := mkForm None "".

(** [moodChart.data]: the labels and the single dataset. *)
Record Chart := mkChart { labels : list string; data : list PlainObject.value }.

Record State := mkState {
  entries : list Entry;                (* let entries *)
  moodList : list Mood;                (* let moodList *)
  filterMood : option string;          (* let filterMood; None is null *)
  filterDate : option Z;               (* let filterDate: a Date, by its time value *)
  localStorage : gmap string string;
  moodChart : Chart;
  timeline : list Entry;               (* the cards shown in entriesContainer *)
  entryForm : Form
}.

Definition setEntries (es : list Entry) (st : State) : State :=
  mkState es (moodList st) (filterMood st) (filterDate st) (localStorage st)
          (moodChart st) (timeline st) (entryForm st).

Definition setMoodList (ml : list Mood) (st : State) : State :=
  mkState (entries st) ml (filterMood st) (filterDate st) (localStorage st)
          (moodChart st) (timeline st) (entryForm st).

Definition setFilterMood (fm : option string) (st : State) : State :=
  mkState (entries st) (moodList st) fm (filterDate st) (localStorage st)
          (moodChart st) (timeline st) (entryForm st).

Definition setFilterDate (fd : option Z) (st : State) : State :=
  mkState (entries st) (moodList st) (filterMood st) fd (localStorage st)
          (moodChart st) (timeline st) (entryForm st).

Definition setItem (k v : string) (st : State) : State :=
  mkState (entries st) (moodList st) (filterMood st) (filterDate st)
          (<[k := v]> (localStorage st)) (moodChart st) (timeline st) (entryForm st).

Definition setChart (c : Chart) (st : State) : State :=
  mkState (entries st) (moodList st) (filterMood st) (filterDate st) (localStorage st)
          c (timeline st) (entryForm st).

Definition setTimeline (tl : list Entry) (st : State) : State :=
  mkState (entries st) (moodList st) (filterMood st) (filterDate st) (localStorage st)
          (moodChart st) tl (entryForm st).

Definition setForm (f : Form) (st : State) : State :=
  mkState (entries st) (moodList st) (filterMood st) (filterDate st) (localStorage st)
          (moodChart st) (timeline st) f.

(** ** Mood Registry *)

(** The first filter of [loadMoodList]: no empty name, no placeholder. *)
Definition keepMood (m : Mood) : bool :=
  let nm := trim (name m) in
  if negb (truthy nm) then false
  else
    let lower := toLowerCase nm in
    if String.eqb lower "gg" || String.eqb lower "gg gg" then false else true.

(** The second filter of [loadMoodList], with its [seen] set. *)
Fixpoint dropSeen (seen : gset string) (ml : list Mood) : list Mood :=
  match ml with
  | [] => []
  | m :: ml' =>
      if decide (name m ∈ seen) then dropSeen seen ml'
      else m :: dropSeen ({[name m]} ∪ seen) ml'
  end.

(** The registry that [loadMoodList] computes from the store; a
    [JSON.parse] that throws is caught and leaves an empty registry. *)
Definition readMoodList (storage : gmap string string) : list Mood :=
  let saved := storage !! "m2mMoods" in
  let parsed :=
    if truthyOpt saved then saved ≫= JSON.parseMoods else Some defaultMoods in
  match parsed with
  | Some ml => dropSeen ∅ (List.filter keepMood ml)
  | None => []
  end.

Definition loadMoodList (st : State) : State :=
  setMoodList (readMoodList (localStorage st)) st.

Definition saveMoodList (st : State) : State :=
  setItem "m2mMoods" (JSON.stringifyMoods (moodList st)) st.

(** [renderMoodOptions] rebuilds the radio buttons of the mood picker,
    so no mood is checked afterwards. *)
Definition renderMoodOptions (st : State) : State :=
  setForm (mkForm None (entryText (entryForm st))) st.

(** ** Mood counts for the chart *)

(** The object [counts] after the two loops of [updateChart]. *)
Definition moodCounts (ml : list Mood) (es : list Entry) : PlainObject.t :=
  let zeroed :=
    foldl (λ counts m, PlainObject.set counts (name m) (PlainObject.Num 0))
          PlainObject.empty ml in
  foldl (λ counts e,
           match PlainObject.get counts (mood e) with
           | Some v => PlainObject.set counts (mood e) (PlainObject.increment v)
           | None => counts
           end)
        zeroed es.

(** The dataset [moodList.map(m => counts[m.name] || 0)]. *)
Definition chartCounts (ml : list Mood) (es : list Entry) : list PlainObject.value :=
  let counts := moodCounts ml es in
  map (λ m, PlainObject.orZero (PlainObject.get counts (name m))) ml.

(** [updateChart]: labels and data; the bar colours, which only fade
    the bars of the moods that are not selected, are left out. *)
Definition updateChart (st : State) : State :=
  setChart (mkChart (map name (moodList st)) (chartCounts (moodList st) (entries st))) st.

(** [initChart]: one bar per mood, all at zero. *)
Definition initChart (st : State) : State :=
  setChart (mkChart (map name (moodList st))
                    (map (λ _, PlainObject.Num 0) (moodList st))) st.

Definition deleteMood (nm : string) (st : State) : State :=
  if includes builtInMoodNames nm then st
  else
    let ml := List.filter (λ m, negb (String.eqb (name m) nm)) (moodList st) in
    updateChart (renderMoodOptions (saveMoodList (setMoodList ml st))).

Definition addCustomMood (nm color : string) (st : State) : State :=
  let icon := "fa-heart" in
  if negb (truthy nm) then st
  else
    let ml :=
      match list_find (λ m, toLowerCase (name m) = toLowerCase nm) (moodList st) with
      | Some (i, existing) => <[i := mkMood (name existing) icon color]> (moodList st)
      | None => moodList st ++ [mkMood nm icon color]
      end in
    updateChart (renderMoodOptions (saveMoodList (setMoodList ml st))).

(** ** Entry Store *)

(** The collection that [loadEntries] computes from the store, for a
    store whose entries are absent or were written by [saveEntries]
    (see [appStore]); there [JSON.parse] does not throw and returns the
    array that was saved.  The result for any other text stands for
    the catch branch only where [JSON.parse] throws. *)
Definition readEntries (storage : gmap string string) : list Entry :=
  match storage !! "m2mEntries" with
  | Some saved =>
      if truthy saved then
        match JSON.parseEntries saved with
        | Some es => es
        | None => []        (* the catch branch *)
        end
      else []
  | None => []
  end.

Definition loadEntries (st : State) : State :=
  setEntries (readEntries (localStorage st)) st.

Definition saveEntries (st : State) : State :=
  setItem "m2mEntries" (JSON.stringifyEntries (entries st)) st.

Section Views.

(** [new Date(ts).toDateString()]: the calendar day of a time value in
    the time zone of the browser. *)
Variable toDateString : Z → string.

(** *** Filtered timeline *)

(** The two early returns at the top of the [forEach] of
    [renderEntries]; [None] when the entry gets no card. *)
Definition card (fm : option string) (fd : option Z) (e : Entry) : option Entry :=
  if truthyOpt fm && negb (bool_decide (Some (mood e) = fm)) then None
  else if match fd with
          | Some d => negb (String.eqb (toDateString (timestamp e)) (toDateString d))
          | None => false
          end then None
  else Some e.

(** The cards that [renderEntries] appends, top first. *)
Definition cards (es : list Entry) (fm : option string) (fd : option Z) : list Entry :=
  omap (card fm fd) (sortBy (λ a b, timestamp b - timestamp a) es).

Definition renderEntries (st : State) : State :=
  setTimeline (cards (entries st) (filterMood st) (filterDate st)) st.

(** *** Calendar *)

(** [entries.filter(e => new Date(e.timestamp).toDateString() === dateString)] *)
Definition dayEntries (es : list Entry) (dateString : string) : list Entry :=
  List.filter (λ e, String.eqb (toDateString (timestamp e)) dateString) es.

(** [generateMixtureFeelingForDate], given the cache [mixFeelings] and
    the answer [reply] of the text service for the moods of the day
    ([None] when the call fails).  Returns the phrase and the cache.
    This is one call from its start to its end with no other call in
    between; the function waits for the text service, and what happens
    when calls overlap is told by [mixtureFeelingBefore] and
    [mixtureFeelingAfter]. *)
Definition generateMixtureFeelingForDate (mixFeelings : gmap string string)
    (es : list Entry) (reply : list string → option string) (dateString : string)
    : option string * gmap string string :=
  if negb (truthy dateString) then (None, mixFeelings)
  else if truthyOpt (mixFeelings !! dateString) then (mixFeelings !! dateString, mixFeelings)
  else
    let today := dayEntries es dateString in
    if (length today <? 4)%nat then (None, mixFeelings)
    else
      match reply (map mood today) with
      | Some feeling =>
          if truthy feeling then (Some feeling, <[dateString := feeling]> mixFeelings)
          else (None, mixFeelings)
      | None => (None, mixFeelings)
      end.

(** What the loop body of [updateCalendar] puts into the cell of one
    day; the days are [new Date(year, month, day)] for the days of the
    shown month. *)
Record Cell := mkCell {
  uniqueMoods : list string;     (* Array.from(new Set(dayMoods)) *)
  dots : list string;            (* the colours of the mood dots *)
  feelingText : option string    (* the caption, when the mixture path ran *)
}.

(** The cell of the day [dateKey], once the promise of the mixture
    feeling has settled. *)
Definition calendarCell (mixFeelings : gmap string string) (ml : list Mood)
    (es : list Entry) (reply : list string → option string) (dateKey : Z)
    : Cell * gmap string string :=
  let dateString := toDateString dateKey in
  let dayMoods := map mood (dayEntries es dateString) in
  let uniq := unique dayMoods in
  let indicators :=
    omap (λ moodName,
            color <$> List.find (λ m, String.eqb (name m) moodName) ml)
         (take 3 uniq) in
  if (4 <=? length dayMoods)%nat then
    let '(feeling, cache) :=
      generateMixtureFeelingForDate mixFeelings es reply dateString in
    let phrase :=
      if truthyOpt feeling then feeling
      else Some ("Mixed feelings: " +:+ join ", " uniq) in
    (mkCell uniq indicators (if truthyOpt phrase then phrase else None), cache)
  else (mkCell uniq indicators None, mixFeelings).

(** *** Handlers *)

(** The submit handler of [entryForm], run at time [now]. *)
Definition submit (now : Z) (st : State) : State :=
  let mood := selectedMood (entryForm st) in
  let text := trim (entryText (entryForm st)) in
  if negb (truthyOpt mood) || negb (truthy text) then st
  else
    match mood with
    | Some m =>
        let st := setEntries (entries st ++ [mkEntry m text now]) st in
        let st := updateChart (renderEntries (saveEntries st)) in
        setForm blankForm st                      (* entryForm.reset() *)
    | None => st
    end.

(** The click handler of the Delete button on the card of the entry
    created at [ts]. *)
Definition deleteEntry (ts : Z) (st : State) : State :=
  match list_find (λ e, timestamp e = ts) (entries st) with
  | Some (idx, _) =>
      let st := setEntries (delete idx (entries st)) st in
      updateChart (renderEntries (saveEntries st))
  | None => st
  end.

(** The click handler of [saveMoodBtn] for the two fields of the modal. *)
Definition saveMoodClick (newMoodName newMoodColor : string) (st : State) : State :=
  let nm := trim newMoodName in
  if negb (truthy nm) then st else addCustomMood nm newMoodColor st.

(** [onClick] of the chart, with the indices of the bars under the
    pointer. *)
Definition chartClick (elements : list nat) (st : State) : State :=
  match elements with
  | index :: _ =>
      let selected := labels (moodChart st) !! index in
      let fm := if decide (filterMood st = selected) then None else selected in
      renderEntries (setFilterMood fm st)
  | [] => st
  end.

(** The click handler of the calendar cell of [dateKey]. *)
Definition calendarClick (dateKey : Z) (st : State) : State :=
  let dateString := toDateString dateKey in
  let fd :=
    match filterDate st with
    | Some d => if String.eqb (toDateString d) dateString then None else Some dateKey
    | None => Some dateKey
    end in
  renderEntries (setFilterDate fd st).

(** The [DOMContentLoaded] handler, on a page whose store is [storage]. *)
Definition start (storage : gmap string string) : State :=
  let st := mkState [] [] None None storage (mkChart [] []) [] blankForm in
  let st := loadEntries (loadMoodList st) in
  updateChart (initChart (renderEntries (renderMoodOptions st))).

(** What the user can do on the page. *)
Inductive Event :=
| PickMood (i : nat)                 (* check the i-th radio button *)
| TypeText (t : string)              (* edit the text area *)
| Submit (now : Z)
| DeleteEntry (ts : Z)
| SaveMood (nm color : string)
| DeleteMood (nm : string)
| ChartClick (elements : list nat)
| CalendarClick (dateKey : Z).

Definition step (st : State) (ev : Event) : State :=
  match ev with
  | PickMood i =>
      match moodList st !! i with
      | Some m => setForm (mkForm (Some (name m)) (entryText (entryForm st))) st
      | None => st
      end
  | TypeText t => setForm (mkForm (selectedMood (entryForm st)) t) st
  | Submit now => submit now st
  | DeleteEntry ts => deleteEntry ts st
  | SaveMood nm c => saveMoodClick nm c st
  | DeleteMood nm => deleteMood nm st
  | ChartClick els => chartClick els st
  | CalendarClick d => calendarClick d st
  end.

Definition run (st : State) (evs : list Event) : State := foldl step st evs.

End Views.

(** ** Concrete inputs for the examples *)

(** A concrete calendar: a browser whose time zone is UTC, with a day
    named by its number since the epoch. *)
Definition utcDay (ts : Z) : string :=
  NilZero.string_of_int (Z.to_int (ts / 86400000)).

(** Three entries on two days. *)
Definition exampleEntries : list Entry :=
  [ mkEntry "Calm" "Walked outside" 1700000000000;
    mkEntry "Happy" "Lunch with friends" 1700003600000;
    mkEntry "Calm" "Read a book" 1700090000000 ].

(** ** Words of the specification

    The definitions below say in the vocabulary of the specification
    what the derived views are compared with. *)

(** A registry as the application keeps it: no two moods share a name
    and no mood has the empty name. *)
Definition registryOk (ml : list Mood) : Prop :=
  NoDup (map name ml) ∧ Forall (λ m, name m ≠ "") ml.

(** The number of entries whose mood is [nm]. *)
Definition entriesWithMood (nm : string) (es : list Entry) : nat :=
  length (List.filter (λ e, String.eqb (mood e) nm) es).

(** The number of entries whose mood is the name of some registry mood. *)
Definition entriesInRegistry (ml : list Mood) (es : list Entry) : nat :=
  length (List.filter (λ e, includes (map name ml) (mood e)) es).

(** The sum of the counts of a dataset that holds counts only. *)
Definition sumCounts (vs : list PlainObject.value) : nat :=
  foldr (λ v acc, match v with PlainObject.Num n => n + acc | _ => acc end)%nat 0%nat vs.

(** A list ordered by falling key. *)
Definition descending {A} (key : A → Z) (l : list A) : Prop :=
  StronglySorted (λ a b, key b ≤ key a) l.

(** The comparator [cmp] is [b - a] on [key] for the elements of [l]. *)
Definition byKey {A} (cmp : A → A → Z) (key : A → Z) (l : list A) : Prop :=
  ∀ x y, x ∈ l → y ∈ l → cmp x y = key y - key x.

(** An entry passes the filters: when the mood filter is set its mood is
    that mood, and when the date filter is set its timestamp falls on
    the same calendar day. *)
Definition passesFilters (toDateString : Z → string)
    (fm : option string) (fd : option Z) (e : Entry) : bool :=
  match fm with Some m => String.eqb (mood e) m | None => true end
  && match fd with
     | Some d => String.eqb (toDateString (timestamp e)) (toDateString d)
     | None => true
     end.

(** The states the page can be in: those that some sequence of events
    leads to from a start on some store. *)
Definition reachable (toDateString : Z → string) (st : State) : Prop :=
  ∃ storage evs, st = run toDateString (start toDateString storage) evs.

(** What holds in every such state (see [reachable_consistent]). *)
Record consistent (toDateString : Z → string) (st : State) : Prop := {
  consistent_registry : registryOk (moodList st);
  consistent_labels : labels (moodChart st) = map name (moodList st);
  consistent_data : data (moodChart st) = chartCounts (moodList st) (entries st);
  consistent_filter : filterMood st ≠ Some "";
  consistent_timeline :
    timeline st = cards toDateString (entries st) (filterMood st) (filterDate st)
}.

(** The page after a sad and a happy entry and a click on the bar of
    Sad: the timeline shows the sad entry only. *)
Definition twoMoodsFiltered : State :=
  run utcDay (start utcDay ∅)
    [ PickMood 1; TypeText "rainy"; Submit 1700000000000;
      PickMood 0; TypeText "sunny"; Submit 1700000001000;
      ChartClick [1%nat] ].

(** The page after the custom mood Joy was added. *)
Definition joyState : State :=
  run utcDay (start utcDay ∅) [SaveMood "Joy" "#ffb74d"].

(** A snapshot with two case variants of one name. *)
Definition joyTwice : list Mood :=
  [ mkMood "Joy" "fa-heart" "#ffb74d"; mkMood "joy" "fa-heart" "#00bcd4" ].

(** The page after a custom mood named [__proto__] was added, and after
    an entry of that mood was submitted. *)
Definition protoState : State :=
  run utcDay (start utcDay ∅) [SaveMood "__proto__" "#ffb74d"].

Definition protoEntryState : State :=
  run utcDay protoState [PickMood 5; TypeText "odd day"; Submit 1700000000000].

(** The words of all entries in order: the matches of the pattern in
    the lower-cased text of each entry. *)
Definition allWords (es : list Entry) : list string :=
  flat_map (λ e, matchWords (toLowerCase (text e))) es.

(** The words that are no stopwords. *)
Definition keptWords (stopwords : list string) (es : list Entry) : list string :=
  List.filter (λ w, negb (includes stopwords w)) (allWords es).

(** How often [w] occurs in [ws]. *)
Definition occurrences (w : string) (ws : list string) : nat :=
  length (List.filter (String.eqb w) ws).

(** The word→count map of a list of words: each word once, in the order
    of first occurrence, with the number of its occurrences. *)
Definition countTable (ws : list string) : PlainObject.t :=
  map (λ w, (w, PlainObject.Num (occurrences w ws))) (unique ws).

(** The stopwords that only [updateWordCloud] has. *)
Definition extraStopwords : list string := ["had"; "have"; "has"; "you"; "we"].

(** The count of an entry of a word→count map. *)
Definition countKey (p : string * PlainObject.value) : Z :=
  match p.2 with PlainObject.Num n => Z.of_nat n | _ => 0 end.

(** A key that means nothing special on a plain object. *)
Definition ordinary (w : string) : Prop :=
  includes PlainObject.inheritedNames w = false.

(** One entry whose text has a stopword of the cloud only. *)
Definition haveFun : list Entry := [mkEntry "Happy" "have have fun" 1700000000000].

(** One entry whose text has the word [constructor]. *)
Definition builderNote : list Entry :=
  [mkEntry "Calm" "wrote the constructor twice, the constructor works" 1700000000000].

(** The fresh page with Calm picked and a text typed, not yet submitted. *)
Definition calmDraft : State :=
  run utcDay (start utcDay ∅) [PickMood 4; TypeText "  Walked outside  "].

(** ** Further functions of the script *)

(** [escapeHtml(str)]: every ampersand, angle bracket and double quote
    is replaced by its entity. *)
Definition escapeChar (c : ascii) : list ascii :=
  if Ascii.eqb c "&"%char then chars "&amp;"
  else if Ascii.eqb c "<"%char then chars "&lt;"
  else if Ascii.eqb c ">"%char then chars "&gt;"
  else if Ascii.eqb c Chars.dquote then chars "&quot;"
  else [c].

Definition escapeHtml (s : string) : string :=
  str (flat_map escapeChar (chars s)).

(** [arr.slice(start)] for an integer [start]: a negative [start]
    counts from the end. *)
Definition sliceFrom {A} (start : Z) (l : list A) : list A :=
  let len := Z.of_nat (length l) in
  let k := if start <? 0 then Z.max (len + start) 0 else Z.min start len in
  drop (Z.to_nat k) l.

(** [getRecentMoodsForAffirmation(limit)]; the callers pass 5. *)
Definition getRecentMoodsForAffirmation (limit : Z) (es : list Entry) : list string :=
  if (length es =? 0)%nat then [] else map mood (sliceFrom (- limit) es).

(** The matches of a pattern that asks for at least [minLen] letters
    a-z between two word boundaries; [matchWordsFrom] is the case 3. *)
Definition emitRun (minLen : nat) (st : scanState) : list string :=
  match st with
  | Letters acc => if (minLen <=? length acc)%nat then [str (rev acc)] else []
  | _ => []
  end.

Fixpoint matchRunsFrom (minLen : nat) (st : scanState) (s : list ascii) : list string :=
  match s with
  | [] => emitRun minLen st
  | c :: rest =>
      if Chars.isWordChar c then
        match st with
        | Outside =>
            matchRunsFrom minLen (if Chars.isLower c then Letters [c] else Blocked) rest
        | Letters acc =>
            matchRunsFrom minLen
              (if Chars.isLower c then Letters (c :: acc) else Blocked) rest
        | Blocked => matchRunsFrom minLen Blocked rest
        end
      else emitRun minLen st ++ matchRunsFrom minLen Outside rest
  end.

(** [const moodKeywords = {Happy: [...], ...}], in the order of its keys. *)
Definition moodKeywords : list (string * list string) :=
  [ ("Happy", ["happy"; "joy"; "smile"; "glad"; "content"; "cheerful";
               "delighted"; "bliss"]);
    ("Sad", ["sad"; "down"; "unhappy"; "tearful"; "sorrow"; "depressed"; "cry";
             "blue"; "lonely"]);
    ("Angry", ["angry"; "mad"; "furious"; "annoyed"; "rage"; "frustrated";
               "irritated"; "upset"]);
    ("Excited", ["excited"; "thrilled"; "eager"; "enthusiastic"; "pumped";
                 "elated"]);
    ("Calm", ["calm"; "relaxed"; "peaceful"; "tranquil"; "chill"; "serene";
              "soothe"]) ].

(** The inner loop of [analyzeMoodSuggestion] for one word:
    [for (const mood in moodKeywords) if (...includes(word)) counts[mood]++]. *)
Definition countKeywords (counts : PlainObject.t) (word : string) : PlainObject.t :=
  foldl (λ counts entry,
           if includes entry.2 word then
             PlainObject.set counts entry.1
               (from_option PlainObject.increment PlainObject.NaN
                            (PlainObject.get counts entry.1))
           else counts)
        counts moodKeywords.

(** The last loop of [analyzeMoodSuggestion]: the first mood whose count
    is above all counts before it, with that count. *)
Definition pickBest (counts : PlainObject.t) : option string * nat :=
  foldl (λ acc entry,
           match entry.2 with
           | PlainObject.Num c => if (acc.2 <? c)%nat then (Some entry.1, c) else acc
           | _ => acc
           end)
        (None, 0%nat) counts.

Definition analyzeMoodSuggestion (text : string) : option string :=
  let words := map toLowerCase (matchRunsFrom 1 Outside (chars text)) in
  let zeroed :=
    foldl (λ counts m, PlainObject.set counts m (PlainObject.Num 0))
          PlainObject.empty (map fst moodKeywords) in
  let counts := foldl countKeywords zeroed words in
  let picked := pickBest counts in
  if (0 <? picked.2)%nat then picked.1 else None.

(** The cells that [updateCalendar] puts into the grid of a month that
    starts on week day [startDayIndex] and has [daysInMonth] days: blank
    cells, the days, and blank cells again. *)
Inductive GridCell := Blank | Day (n : nat).

Definition calendarGrid (startDayIndex daysInMonth : nat) : list GridCell :=
  let cellsCount := (startDayIndex + daysInMonth)%nat in
  let remainder := (cellsCount mod 7)%nat in
  replicate startDayIndex Blank
  ++ map Day (seq 1 daysInMonth)
  ++ (if (remainder =? 0)%nat then [] else replicate (7 - remainder) Blank).

(** A key is usable when it is a non-empty string that does not trim to
    nothing; what is used is the trimmed key. *)
Definition usableKey (k : option string) : option string :=
  match k with
  | Some s =>
      if truthy s && (0 <? String.length (trim s))%nat then Some (trim s) else None
  | None => None
  end.

(** [getApiKey], given the constant [GEMINI_API_KEY], the store and what
    the user would answer to [window.prompt] ([None]: cancel).  Returns
    the key, the store, and whether the user was asked. *)
Definition getApiKey (constant : string) (storage : gmap string string)
    (entered : option string) : option string * gmap string string * bool :=
  match usableKey (Some constant) with
  | Some k => (Some k, storage, false)
  | None =>
      match usableKey (storage !! "m2mGeminiKey") with
      | Some k => (Some k, storage, false)
      | None =>
          match usableKey entered with
          | Some k => (Some k, <["m2mGeminiKey" := k]> storage, true)
          | None => (None, storage, true)
          end
      end
  end.

(** *** The store that the script writes

    The time values of [Date]: whole milliseconds, at most 8.64e15 from
    the epoch, which is what [Date.now()] returns. *)
Definition timeValue (t : Z) : Prop :=
  -8640000000000000 ≤ t ≤ 8640000000000000.

(** A store as the script leaves it: the entries are absent or the text
    that [saveEntries] wrote for entries with time stamps, and the
    registry is absent or the text that [saveMoodList] wrote. *)
Definition appStore (storage : gmap string string) : Prop :=
  (storage !! "m2mEntries" = None
   ∨ ∃ es, storage !! "m2mEntries" = Some (JSON.stringifyEntries es)
       ∧ Forall (λ e, timeValue (timestamp e)) es)
  ∧ (storage !! "m2mMoods" = None
     ∨ ∃ ml, storage !! "m2mMoods" = Some (JSON.stringifyMoods ml)).

(** The time of a submission is the value of [Date.now()]. *)
Definition onClock (ev : Event) : Prop :=
  match ev with
  | Submit now => timeValue now
  | _ => True
  end.

(** The states of the page on such a store: those that some sequence of
    events leads to from a start on a store that the script wrote. *)
Definition onPage (toDateString : Z → string) (st : State) : Prop :=
  ∃ storage evs,
    appStore storage ∧ Forall onClock evs
    ∧ st = run toDateString (start toDateString storage) evs.

(** What the page keeps true of its store and its entries (see
    [reload_keeps_data]). *)
Definition storeKept (st : State) : Prop :=
  appStore (localStorage st) ∧ Forall (λ e, timeValue (timestamp e)) (entries st).

(** *** The two halves of [generateMixtureFeelingForDate]

    The function runs up to its [await] when it is called, and the rest
    when the text service has answered; other calls may run between. *)
Inductive Lookup :=
| Settled (feeling : option string)   (* returned without asking the service *)
| Pending (moods : list string).      (* the service is asked about [moods] *)

(** The part before the [await], on the cache as it is at the call. *)
Definition mixtureFeelingBefore (toDateString : Z → string)
    (mixFeelings : gmap string string) (es : list Entry) (dateString : string) : Lookup :=
  if negb (truthy dateString) then Settled None
  else if truthyOpt (mixFeelings !! dateString) then Settled (mixFeelings !! dateString)
  else
    let today := dayEntries toDateString es dateString in
    if (length today <? 4)%nat then Settled None
    else Pending (map mood today).

(** The part after the [await], on the cache as it is by then, with the
    answer [feeling] of the service. *)
Definition mixtureFeelingAfter (mixFeelings : gmap string string)
    (dateString : string) (feeling : option string)
    : option string * gmap string string :=
  match feeling with
  | Some feeling =>
      if truthy feeling then (Some feeling, <[dateString := feeling]> mixFeelings)
      else (None, mixFeelings)
  | None => (None, mixFeelings)
  end.

(** What a reload of the page finds in the store (see [reload_keeps_data]). *)
Definition persisted (st : State) : Prop :=
  readEntries (localStorage st) = entries st
  ∧ readMoodList (localStorage st) = List.filter keepMood (moodList st)
  ∧ Forall (λ m, trim (name m) ≠ "") (moodList st).

(** The page after a custom mood with the name of a placeholder was added. *)
Definition ggState : State :=
  run utcDay (start utcDay ∅) [SaveMood " GG " "#000000"].

(** The number of [words], with repetitions, that are among [keywords]. *)
Definition keywordHits (keywords words : list string) : nat :=
  length (List.filter (includes keywords) words).

(** The moods of [moodKeywords], each with the number of its keywords
    among [words]. *)
Definition moodHits (words : list string) : list (string * nat) :=
  map (λ entry, (entry.1, keywordHits entry.2 words)) moodKeywords.

(** An object that holds the counts [hits] under their keys. *)
Definition hitTable (hits : list (string * nat)) : PlainObject.t :=
  map (λ p, (p.1, PlainObject.Num p.2)) hits.

(** What a word view shows of the entries [es], for its stopwords and
    its number [n] of places: distinct words of the texts that are no
    stopwords, each made of three or more letters a-z, as many as there
    are places or such words, hence all of them when the places
    suffice. *)
Definition showsWords (stopwords : list string) (n : nat) (es : list Entry)
    (view : list (string * PlainObject.value)) : Prop :=
  let shown := map fst view in
  NoDup shown
  ∧ length shown = Nat.min n (length (unique (keptWords stopwords es)))
  ∧ (∀ w, w ∈ shown →
       w ∈ allWords es ∧ (w ∉ stopwords)
       ∧ (3 ≤ String.length w)%nat ∧ forallb Chars.isLower (chars w) = true)
  ∧ ((length (unique (keptWords stopwords es)) ≤ n)%nat →
     ∀ w, w ∈ allWords es → w ∉ stopwords → w ∈ shown).

(** [appendMessage(text, author)]: the HTML that becomes the [innerHTML]
    of the new message. *)

(** [s.replace(/c/g, rep)] for a pattern of one character and a
    replacement without [$]. *)
Definition replaceAll (c : ascii) (rep : string) (s : list ascii) : list ascii :=
  flat_map (λ x, if Ascii.eqb x c then chars rep else [x]) s.

Definition lineFeed : ascii := "010"%char.

(** The characters that [.] does not match (of those below 256). *)
Definition isLineTerminator (c : ascii) : bool :=
  Ascii.eqb c lineFeed || Ascii.eqb c "013"%char.

(** [html.replace(/\*\*(.*?)\*\*/g, '<strong>$1</strong>')].  A match
    begins at two stars and ends at the next two stars, if no line
    terminator stands between them; if one does, or the text ends, no
    match begins before it, and the text up to there stays.  [Open acc]
    is the state after two opening stars, with the characters read
    since, last first. *)
Inductive boldState := Plain | Open (acc : list ascii).

Fixpoint boldFrom (st : boldState) (s : list ascii) : list ascii :=
  match s with
  | [] =>
      match st with
      | Plain => []
      | Open acc => chars "**" ++ rev acc
      end
  | c :: rest =>
      match st with
      | Plain =>
          if Ascii.eqb c "*"%char then
            match rest with
            | c' :: rest' =>
                if Ascii.eqb c' "*"%char then boldFrom (Open []) rest'
                else c :: boldFrom Plain rest
            | [] => c :: boldFrom Plain rest
            end
          else c :: boldFrom Plain rest
      | Open acc =>
          if isLineTerminator c then
            chars "**" ++ rev acc ++ c :: boldFrom Plain rest
          else if Ascii.eqb c "*"%char then
            match rest with
            | c' :: rest' =>
                if Ascii.eqb c' "*"%char then
                  chars "<strong>" ++ rev acc ++ chars "</strong>" ++ boldFrom Plain rest'
                else boldFrom (Open (c :: acc)) rest
            | [] => boldFrom (Open (c :: acc)) rest
            end
          else boldFrom (Open (c :: acc)) rest
      end
  end.

Definition appendMessage (text : string) : string :=
  let html := chars text in
  let html := replaceAll ">" "&gt;" (replaceAll "<" "&lt;" (replaceAll "&" "&amp;" html)) in
  let html := boldFrom Plain html in
  let html := replaceAll lineFeed "<br>" html in
  str html.

(** HTML whose only tags are [<br>] and pairs of [<strong>] and
    [</strong>] around text without tags. *)
Definition noAngle (c : ascii) : Prop := c ≠ "<"%char ∧ c ≠ ">"%char.

Inductive tagged : list ascii → Prop :=
| tagged_nil : tagged []
| tagged_char c rest : noAngle c → tagged rest → tagged (c :: rest)
| tagged_br rest : tagged rest → tagged (chars "<br>" ++ rest)
| tagged_strong content rest :
    Forall noAngle content → tagged rest →
    tagged (chars "<strong>" ++ content ++ chars "</strong>" ++ rest).

(** The month of the calendar.  [currentCalendarDate] by its local
    fields: [getFullYear()], [getMonth()] (0 to 11) and [getDate()]. *)
Record LocalDate := mkLocalDate { fullYear : Z; monthIndex : Z; dayOfMonth : Z }.

Definition isLeapYear (y : Z) : bool :=
  (y mod 4 =? 0) && (negb (y mod 100 =? 0) || (y mod 400 =? 0)).

Definition monthLength (y m : Z) : Z :=
  if m =? 1 then (if isLeapYear y then 29 else 28)
  else if (m =? 3) || (m =? 5) || (m =? 8) || (m =? 10) then 30
  else 31.

(** The date that the fields [y], [m], [d] denote for any month number
    [m] and a day [d] from 1 to 31, as [setMonth] and [setDate] compute
    it: months beyond the year carry into the year, and days beyond the
    month carry into the next month. *)
Definition makeDay (y m d : Z) : LocalDate :=
  let y' := y + m / 12 in
  let m' := m mod 12 in
  if d <=? monthLength y' m' then mkLocalDate y' m' d
  else
    let y'' := y + (m + 1) / 12 in
    let m'' := (m + 1) mod 12 in
    mkLocalDate y'' m'' (d - monthLength y' m').

Definition setMonth (m : Z) (date : LocalDate) : LocalDate :=
  makeDay (fullYear date) m (dayOfMonth date).

Definition setDate (d : Z) (date : LocalDate) : LocalDate :=
  makeDay (fullYear date) (monthIndex date) d.

(** [initCalendar], and the click handlers of [prevMonthBtn] and
    [nextMonthBtn], on [currentCalendarDate]. *)
Definition initCalendar (date : LocalDate) : LocalDate := setDate 1 date.

Inductive MonthClick := PrevMonth | NextMonth.

Definition monthClick (date : LocalDate) (click : MonthClick) : LocalDate :=
  match click with
  | PrevMonth => setDate 1 (setMonth (monthIndex date - 1) date)
  | NextMonth => setDate 1 (setMonth (monthIndex date + 1) date)
  end.

(** The months since the year 0, and the months that a list of clicks
    moves forward. *)
Definition monthNumber (date : LocalDate) : Z := 12 * fullYear date + monthIndex date.

Definition monthsForward (clicks : list MonthClick) : Z :=
  foldr (λ click n, match click with PrevMonth => n - 1 | NextMonth => n + 1 end) 0 clicks.

(** The fields of a date object. *)
Definition validDate (date : LocalDate) : Prop :=
  0 ≤ monthIndex date ≤ 11
  ∧ 1 ≤ dayOfMonth date ≤ monthLength (fullYear date) (monthIndex date).

(** The look of the page: the store and the class list of [body]. *)
Record Look := mkLook { store : gmap string string; bodyClasses : gset string }.

(** [localStorage.getItem('m2mColorTheme') || 'default'] *)
Definition savedColorTheme (storage : gmap string string) : string :=
  match storage !! "m2mColorTheme" with
  | Some saved => if truthy saved then saved else "default"
  | None => "default"
  end.

(** [loadColorTheme]: the class list of [body]; the theme button made
    active is the one whose [data-theme] is [savedColorTheme]. *)
Definition loadColorTheme (look : Look) : Look :=
  let saved := savedColorTheme (store look) in
  let classes := bodyClasses look ∖ {[ "theme-neon"; "theme-sunset" ]} in
  let classes :=
    if String.eqb saved "neon" then {[ "theme-neon" ]} ∪ classes
    else if String.eqb saved "sunset" then {[ "theme-sunset" ]} ∪ classes
    else classes in
  mkLook (store look) classes.

(** [window.toggleTheme] *)
Definition toggleTheme (look : Look) : Look :=
  let isDark := bool_decide ("dark" ∉ bodyClasses look) in
  let classes :=
    if isDark then {[ "dark" ]} ∪ bodyClasses look
    else bodyClasses look ∖ {[ "dark" ]} in
  loadColorTheme
    (mkLook (<["m2mTheme" := if isDark then "dark" else "light"]> (store look)) classes).

(** [loadTheme] *)
Definition loadTheme (look : Look) : Look :=
  if bool_decide (store look !! "m2mTheme" = Some "dark") then
    loadColorTheme (mkLook (store look) ({[ "dark" ]} ∪ bodyClasses look))
  else look.

(** The click handler of the theme button whose [data-theme] is [theme]. *)
Definition themeClick (theme : string) (look : Look) : Look :=
  loadColorTheme (mkLook (<["m2mColorTheme" := theme]> (store look)) (bodyClasses look)).

(** What [DOMContentLoaded] does to the look of a page whose [body]
    comes with the classes [fresh]. *)
Definition loadLook (storage : gmap string string) (fresh : gset string) : Look :=
  loadColorTheme (loadTheme (mkLook storage fresh)).

Inductive LookEvent := ToggleTheme | ThemeClick (theme : string).

Definition lookStep (look : Look) (ev : LookEvent) : Look :=
  match ev with
  | ToggleTheme => toggleTheme look
  | ThemeClick theme => themeClick theme look
  end.

(** The classes that the script puts on [body] and takes from it. *)
Definition lookClasses : gset string := {[ "dark"; "theme-neon"; "theme-sunset" ]}.

(** The classes that a look with the store [storage] should have on a
    page whose [body] comes with [fresh]. *)
Definition classesFor (storage : gmap string string) (fresh : gset string) : gset string :=
  fresh
  ∪ (if bool_decide (storage !! "m2mTheme" = Some "dark") then {[ "dark" ]} else ∅)
  ∪ (if String.eqb (savedColorTheme storage) "neon" then {[ "theme-neon" ]}
     else if String.eqb (savedColorTheme storage) "sunset" then {[ "theme-sunset" ]}
     else ∅).

(** [hexToRgba(hex, alpha)] *)

(** [s.replace(c, '')] for a string pattern of one character: the first
    occurrence goes. *)
Fixpoint removeFirst (c : ascii) (s : list ascii) : list ascii :=
  match s with
  | [] => []
  | x :: rest => if Ascii.eqb x c then rest else x :: removeFirst c rest
  end.

(** A Number that is an integer, NaN or an infinity. *)
Inductive number := Finite (z : Z) | NotANumber | Infinite.

(** The Number for a natural number: the nearest one with 53
    significant bits, ties to even, and an infinity from 2^1024 on. *)
Definition roundToDouble (n : Z) : number :=
  let bits := if n =? 0 then 0 else Z.log2 n + 1 in
  if bits <=? 53 then Finite n
  else
    let shift := bits - 53 in
    let q := Z.shiftr n shift in
    let r := n mod 2 ^ shift in
    let half := 2 ^ (shift - 1) in
    let q := if (half <? r) || ((r =? half) && Z.odd q) then q + 1 else q in
    let v := Z.shiftl q shift in
    if 2 ^ 1024 <=? v then Infinite else Finite v.

(** The values of the longest prefix of hexadecimal digits. *)
Fixpoint hexPrefix (s : list ascii) : list N :=
  match s with
  | c :: rest =>
      match JSON.hexValue c with
      | Some v => v :: hexPrefix rest
      | None => []
      end
  | [] => []
  end.

Definition hexNumber (digits : list N) : Z :=
  foldl (λ acc d, 16 * acc + Z.of_N d) 0 digits.

(** [parseInt(s, 16)]: white space, a sign and one [0x] or [0X] may come
    first; what follows the digits is ignored. *)
Definition parseInt16 (s : list ascii) : number :=
  let s := dropSpaces s in
  let negative := match s with c :: _ => Ascii.eqb c "-"%char | [] => false end in
  let s :=
    match s with
    | c :: rest => if Ascii.eqb c "-"%char || Ascii.eqb c "+"%char then rest else s
    | [] => s
    end in
  let s :=
    match s with
    | c :: x :: rest =>
        if Ascii.eqb c "0"%char && (Ascii.eqb x "x"%char || Ascii.eqb x "X"%char)
        then rest else s
    | _ => s
    end in
  match hexPrefix s with
  | [] => NotANumber
  | digits =>
      match roundToDouble (hexNumber digits) with
      | Finite v => Finite (if negative then - v else v)
      | other => other
      end
  end.

(** ToInt32, which the operators [>>] and [&] apply to their operands. *)
Definition toInt32 (x : number) : Z :=
  match x with
  | Finite v => let m := v mod 2 ^ 32 in if 2 ^ 31 <=? m then m - 2 ^ 32 else m
  | NotANumber | Infinite => 0
  end.

(** [alpha] is the text that the template literal makes of the number
    [alpha]. *)
Definition hexToRgba (hex alpha : string) : string :=
  let cleaned := removeFirst "#" (chars hex) in
  let bigint := toInt32 (parseInt16 cleaned) in
  let r := Z.land (Z.shiftr bigint 16) 255 in
  let g := Z.land (Z.shiftr bigint 8) 255 in
  let b := Z.land bigint 255 in
  str (chars "rgba(" ++ JSON.printNumber r ++ chars "," ++ JSON.printNumber g
       ++ chars "," ++ JSON.printNumber b ++ chars "," ++ chars alpha ++ chars ")").

(** The text [rgba(r,g,b,alpha)]. *)
Definition rgbaText (r g b : Z) (alpha : string) : string :=
  str (chars "rgba(" ++ JSON.printNumber r ++ chars "," ++ JSON.printNumber g
       ++ chars "," ++ JSON.printNumber b ++ chars "," ++ chars alpha ++ chars ")").

(** The entries stand in the order of their time stamps, no two alike. *)
Definition chronological (es : list Entry) : Prop :=
  StronglySorted (λ a b, timestamp a < timestamp b) es.

(** The clock of the events [evs] that happen from [st] on runs
    forward: every submission has the time of [Date.now()] and comes
    later than all entries there are. *)
Fixpoint timely (toDateString : Z → string) (st : State) (evs : list Event) : Prop :=
  match evs with
  | [] => True
  | ev :: evs' =>
      match ev with
      | Submit now => timeValue now ∧ ∀ e, e ∈ entries st → timestamp e < now
      | _ => True
      end
      ∧ timely toDateString (step toDateString st ev) evs'
  end.

(** An entry as the submit handler makes it: a mood, and a text that is
    trimmed and not empty. *)
Definition wellFormed (e : Entry) : Prop :=
  mood e ≠ "" ∧ text e ≠ "" ∧ trim (text e) = text e.

(** What the pattern [\b[a-z]{n,}\b] asks of a match [w] in [s]: it
    stands between a piece [pre] that is empty or ends outside a word
    and a piece [post] that is empty or begins outside a word, and it is
    made of [minLen] or more letters a-z. *)
Definition endsInside (pre : list ascii) : Prop :=
  ∃ pre' c, pre = pre' ++ [c] ∧ Chars.isWordChar c = true.

Definition startsOutside (post : list ascii) : Prop :=
  match post with
  | [] => True
  | c :: _ => Chars.isWordChar c = false
  end.

Definition isRun (minLen : nat) (s : list ascii) (w : string) : Prop :=
  ∃ pre post,
    s = pre ++ chars w ++ post
    ∧ (minLen ≤ length (chars w))%nat
    ∧ forallb Chars.isLower (chars w) = true
    ∧ ¬ endsInside pre ∧ startsOutside post.

(** The checked radio button, if any, is the button of a registry mood. *)
Definition selectionOk (st : State) : Prop :=
  ∀ m, selectedMood (entryForm st) = Some m → m ∈ map name (moodList st).

(** A string of characters that does not start with white space. *)
Definition noLeadingSpace (l : list ascii) : Prop :=
  match l with c :: _ => Chars.isTrimSpace c = false | [] => True end.

(** Four entries on one day. *)
Definition busyDay : list Entry :=
  [ mkEntry "Calm" "Walked outside" 1699950000000;
    mkEntry "Happy" "Lunch with friends" 1699953600000;
    mkEntry "Tired" "Long meeting" 1699957200000;
    mkEntry "Calm" "Tea on the balcony" 1699960800000 ].

(** * Properties *)

(** ** Strings *)

Lemma str_chars (s : string) : str (chars s) = s.
Proof. apply String.string_of_list_ascii_of_string. Qed.

Lemma chars_str (l : list ascii) : chars (str l) = l.
Proof. apply String.list_ascii_of_string_of_list_ascii. Qed.

Lemma truthy_true (s : string) : truthy s = true ↔ s ≠ "".
Proof.
  unfold truthy. rewrite negb_true_iff. apply String.eqb_neq.
Qed.

Lemma truthy_false (s : string) : truthy s = false ↔ s = "".
Proof.
  unfold truthy. rewrite negb_false_iff. apply String.eqb_eq.
Qed.

Lemma includes_true (arr : list string) (x : string) :
  includes arr x = true ↔ x ∈ arr.
Proof.
  unfold includes. rewrite existsb_exists. split.
  - intros (y & Hy & Heq). apply String.eqb_eq in Heq. subst.
    by apply list_elem_of_In.
  - intros Hx. exists x. split; [by apply list_elem_of_In | apply String.eqb_refl].
Qed.

Lemma includes_false (arr : list string) (x : string) :
  includes arr x = false ↔ x ∉ arr.
Proof.
  rewrite <- includes_true. destruct (includes arr x); naive_solver.
Qed.

Lemma toLowerCase_empty (s : string) : toLowerCase s = "" ↔ s = "".
Proof.
  unfold toLowerCase. split.
  - intros H. destruct s as [|c s]; [done | discriminate H].
  - by intros ->.
Qed.

(** ** The JSON reader inverts the JSON printer *)

Module JSONFacts.

Import Chars JSON.

Lemma lex_quoteChar (c : ascii) (acc rest : list ascii) :
  lex (LString acc) (quoteChar c ++ rest) = lex (LString (c :: acc)) rest.
Proof.
  destruct c as [[|] [|] [|] [|] [|] [|] [|] [|]]; reflexivity.
Qed.

Lemma lex_string_body (s acc rest : list ascii) :
  lex (LString acc) (flat_map quoteChar s ++ dquote :: rest)
  = cons (TString (str (rev acc ++ s))) <$> lex LDefault rest.
Proof.
  revert acc. induction s as [|c s IH]; intros acc.
  - cbn. by rewrite app_nil_r.
  - cbn [flat_map]. rewrite <- app_assoc, lex_quoteChar, IH.
    cbn [rev]. by rewrite <- app_assoc.
Qed.

Lemma lex_quote (s : string) (rest : list ascii) :
  lex LDefault (quote s ++ rest) = cons (TString s) <$> lex LDefault rest.
Proof.
  unfold quote. cbn [app]. rewrite <- app_assoc. cbn [app].
  change (lex LDefault (dquote :: ?l)) with (lex (LString []) l).
  rewrite lex_string_body. cbn [rev app]. by rewrite str_chars.
Qed.

Lemma punct_not_digit (c : ascii) (t : token) :
  punct c = Some t → isDigit c = false.
Proof.
  unfold punct.
  repeat match goal with
         | |- context [Ascii.eqb c ?x] =>
             destruct (Ascii.eqb_spec c x) as [->|_]; [intros _; reflexivity|]
         end.
  done.
Qed.

Lemma lex_digits (ds acc : list ascii) (c : ascii) (t : token) (rest : list ascii) :
  Forall (λ d, isDigit d = true) ds → punct c = Some t →
  lex (LNumber acc) (ds ++ c :: rest)
  = n ← number (rev ds ++ acc); (λ ts, n :: t :: ts) <$> lex LDefault rest.
Proof.
  intros Hds Hc. revert acc. induction Hds as [|d ds Hd _ IH]; intros acc.
  - cbn. by rewrite (punct_not_digit c t), Hc.
  - cbn [app lex]. rewrite Hd, IH. cbn [rev]. by rewrite <- app_assoc.
Qed.

Lemma uint_digits (d : Decimal.uint) :
  Forall (λ c, isDigit c = true) (chars (NilEmpty.string_of_uint d)).
Proof. induction d; cbn; constructor; done. Qed.

(** The decimal text of an integer: a digit or a minus sign, then digits. *)
Lemma printNumber_shape (z : Z) :
  ∃ c ds, printNumber z = c :: ds
          ∧ (isDigit c || Ascii.eqb c "-"%char) = true
          ∧ Forall (λ d, isDigit d = true) ds.
Proof.
  unfold printNumber. destruct z as [|p|p]; cbn.
  - by exists "0"%char, [].
  - pose proof (uint_digits (Pos.to_uint p)) as H.
    pose proof (DecimalPos.Unsigned.to_uint_nonnil p) as Hn.
    unfold NilZero.string_of_uint.
    destruct (Pos.to_uint p) eqn:E; try done;
      cbn in *; inversion H; subst; eexists _, _; (split; [done|]); by rewrite ?H2.
  - pose proof (uint_digits (Pos.to_uint p)) as H.
    exists "-"%char. eexists. split; [done|]. split; [done|].
    pose proof (DecimalPos.Unsigned.to_uint_nonnil p) as Hn.
    unfold NilZero.string_of_uint. by destruct (Pos.to_uint p).
Qed.

Lemma number_printNumber (z : Z) :
  number (rev (printNumber z)) = Some (TNumber z).
Proof.
  unfold number, printNumber. rewrite rev_involutive, str_chars.
  rewrite NilZero.isi.
  - cbn. by rewrite DecimalZ.of_to.
  - destruct z; cbn; try done. intros [= H].
    by apply DecimalPos.Unsigned.to_uint_nonnil in H.
  - destruct z; cbn; try done. intros [= H].
    by apply DecimalPos.Unsigned.to_uint_nonnil in H.
Qed.

Lemma lex_number (z : Z) (c : ascii) (t : token) (rest : list ascii) :
  punct c = Some t →
  lex LDefault (printNumber z ++ c :: rest)
  = (λ ts, TNumber z :: t :: ts) <$> lex LDefault rest.
Proof.
  intros Hc. pose proof (number_printNumber z) as Hn.
  destruct (printNumber_shape z) as (c0 & ds & E & Hc0 & Hds).
  rewrite E in *. cbn [app lex].
  assert (punct c0 = None) as ->.
  { apply orb_true_iff in Hc0 as [H|H].
    - destruct (punct c0) eqn:Hp; [|done].
      apply punct_not_digit in Hp. congruence.
    - apply Ascii.eqb_eq in H. by subst. }
  assert (Ascii.eqb c0 dquote = false) as ->.
  { apply Ascii.eqb_neq. intros ->. by vm_compute in Hc0. }
  rewrite Hc0, (lex_digits ds [c0] c t rest Hds Hc).
  cbn [rev] in Hn. by rewrite Hn.
Qed.

Lemma lex_punct (t : token) (rest : list ascii) :
  isPunct t = true →
  ∃ c, printToken t = [c] ∧ punct c = Some t.
Proof. destruct t; intros [=]; eexists; split; reflexivity. Qed.

Lemma lex_tokens (ts : list token) (rest : list ascii) :
  delimited ts →
  lex LDefault (flat_map printToken ts ++ rest) = (ts ++.) <$> lex LDefault rest.
Proof.
  induction ts as [|t ts IH]; intros Hd.
  - cbn. by destruct (lex LDefault rest).
  - destruct t.
    1-6: cbn in Hd |- *; rewrite (IH Hd); by destruct (lex LDefault rest).
    + cbn [flat_map printToken]. rewrite <- app_assoc, lex_quote, (IH Hd).
      by destruct (lex LDefault rest).
    + destruct ts as [|t ts]; [done|]. destruct Hd as [Hp Hd].
      destruct (lex_punct t rest Hp) as (c & Ec & Hc).
      specialize (IH Hd). cbn [flat_map] in IH |- *. rewrite Ec in *.
      rewrite <- !app_assoc. cbn [app] in IH |- *.
      rewrite (lex_number z c t _ Hc).
      cbn [lex] in IH. rewrite Hc in IH.
      destruct (lex LDefault (flat_map printToken ts ++ rest)) as [l|] eqn:E;
        destruct (lex LDefault rest) as [l'|]; cbn in *; congruence.
Qed.

Lemma delimited_app (ts us : list token) :
  delimited ts → delimited us →
  (∀ z ts', ts ≠ ts' ++ [TNumber z]) →
  delimited (ts ++ us).
Proof.
  induction ts as [|t ts IH]; intros Ht Hu Hlast; [done|].
  assert (∀ z ts', ts ≠ ts' ++ [TNumber z]) as Hlast'.
  { intros z ts' ->. by apply (Hlast z (t :: ts')). }
  destruct t; cbn in *; try by apply IH.
  destruct ts as [|t ts]; [done|]. destruct Ht as [? ?]. split; [done|].
  by apply IH.
Qed.

Lemma delimited_items (items : list (list token)) :
  Forall (λ i, delimited i ∧ ∀ z ts', i ≠ ts' ++ [TNumber z]) items →
  delimited (arrayItems items).
Proof.
  induction 1 as [|i items [Hi Hl] _ IH]; [done|].
  cbn [arrayItems]. destruct items as [|j items].
  - by apply delimited_app.
  - apply delimited_app; [done| |done]. apply IH.
Qed.

Lemma entryTokens_delimited (e : Entry) :
  delimited (entryTokens e) ∧ ∀ z ts', entryTokens e ≠ ts' ++ [TNumber z].
Proof.
  split; [done|]. intros z ts' H.
  apply (f_equal (@rev token)) in H. rewrite rev_app_distr in H. done.
Qed.

Lemma moodTokens_delimited (m : Mood) :
  delimited (moodTokens m) ∧ ∀ z ts', moodTokens m ≠ ts' ++ [TNumber z].
Proof.
  split; [done|]. intros z ts' H.
  apply (f_equal (@rev token)) in H. rewrite rev_app_distr in H. done.
Qed.

Lemma readEntryItems_items (e : Entry) (es : list Entry) :
  readEntryItems (arrayItems (map entryTokens (e :: es))) = Some (e :: es).
Proof.
  revert e. induction es as [|e' es IH]; intros [m t n]; [done|].
  change (readEntryItems (arrayItems (map entryTokens (mkEntry m t n :: e' :: es))))
    with (cons (mkEntry m t n) <$> readEntryItems (arrayItems (map entryTokens (e' :: es)))).
  by rewrite IH.
Qed.

Lemma readMoodItems_items (m : Mood) (ms : list Mood) :
  readMoodItems (arrayItems (map moodTokens (m :: ms))) = Some (m :: ms).
Proof.
  revert m. induction ms as [|m' ms IH]; intros [n i c]; [done|].
  change (readMoodItems (arrayItems (map moodTokens (mkMood n i c :: m' :: ms))))
    with (cons (mkMood n i c) <$> readMoodItems (arrayItems (map moodTokens (m' :: ms)))).
  by rewrite IH.
Qed.

(** [JSON.parse(JSON.stringify(entries))] gives the entries back. *)
Lemma parse_stringify_entries (es : list Entry) :
  parseEntries (stringifyEntries es) = Some es.
Proof.
  unfold parseEntries, stringifyEntries, printTokens. rewrite chars_str.
  rewrite <- (app_nil_r (flat_map _ _)), lex_tokens.
  - cbn [lex fmap option_fmap option_map mbind option_bind].
    rewrite app_nil_r. destruct es as [|e es]; [done|].
    unfold arrayTokens, readArray.
    rewrite <- (readEntryItems_items e es). by destruct e, es.
  - unfold arrayTokens. cbn [delimited]. apply delimited_items, list.Forall_forall.
    intros i (e & -> & _)%list_elem_of_fmap.
    apply entryTokens_delimited.
Qed.

(** [JSON.parse(JSON.stringify(moodList))] gives the registry back. *)
Lemma parse_stringify_moods (ms : list Mood) :
  parseMoods (stringifyMoods ms) = Some ms.
Proof.
  unfold parseMoods, stringifyMoods, printTokens. rewrite chars_str.
  rewrite <- (app_nil_r (flat_map _ _)), lex_tokens.
  - cbn [lex fmap option_fmap option_map mbind option_bind].
    rewrite app_nil_r. destruct ms as [|m ms]; [done|].
    unfold arrayTokens, readArray.
    rewrite <- (readMoodItems_items m ms). by destruct m, ms.
  - unfold arrayTokens. cbn [delimited]. apply delimited_items, list.Forall_forall.
    intros i (m & -> & _)%list_elem_of_fmap.
    apply moodTokens_delimited.
Qed.

(** The text of an array is never the empty string. *)
Lemma printTokens_array_truthy (items : list (list token)) :
  truthy (printTokens (arrayTokens items)) = true.
Proof. done. Qed.

End JSONFacts.

(** ** The stable sort *)

Section Sorting.

Context {A : Type} (cmp : A → A → Z) (key : A → Z).

Lemma insertBy_Permutation (x : A) (l : list A) : insertBy cmp x l ≡ₚ x :: l.
Proof.
  induction l as [|y l IH]; cbn; [done|].
  destruct (cmp x y <=? 0); [done|]. rewrite IH. apply Permutation_swap.
Qed.

Lemma sortBy_Permutation (l : list A) : sortBy cmp l ≡ₚ l.
Proof.
  induction l as [|x l IH]; cbn; [done|].
  by rewrite insertBy_Permutation, IH.
Qed.

Lemma sortBy_elem (x : A) (l : list A) : x ∈ sortBy cmp l ↔ x ∈ l.
Proof. by rewrite sortBy_Permutation. Qed.

Lemma sortBy_length (l : list A) : length (sortBy cmp l) = length l.
Proof. by rewrite sortBy_Permutation. Qed.

Lemma byKey_Permutation (l l' : list A) :
  l ≡ₚ l' → byKey cmp key l → byKey cmp key l'.
Proof.
  intros Hp Hk x y Hx Hy. apply Hk; by rewrite Hp.
Qed.

Lemma byKey_tail (x : A) (l : list A) : byKey cmp key (x :: l) → byKey cmp key l.
Proof.
  intros Hk a b Ha Hb. apply Hk; by apply list_elem_of_further.
Qed.

Lemma insertBy_descending (x : A) (l : list A) :
  byKey cmp key (x :: l) → descending key l → descending key (insertBy cmp x l).
Proof.
  intros Hk Hs. induction Hs as [|y l Hs IH Hy]; cbn.
  - repeat constructor.
  - rewrite (Hk x y); [|apply list_elem_of_here|apply list_elem_of_further, list_elem_of_here].
    destruct (Z.leb_spec (key y - key x) 0) as [Hle|Hgt].
    + constructor; [by constructor|]. constructor; [lia|].
      eapply Forall_impl; [exact Hy|]. cbn. lia.
    + constructor.
      * apply IH. eapply byKey_Permutation; [|apply (byKey_tail y), (byKey_Permutation _ _ (Permutation_swap _ _ _) Hk)].
        done.
      * rewrite insertBy_Permutation. constructor; [lia | done].
Qed.

Lemma sortBy_descending (l : list A) :
  byKey cmp key l → descending key (sortBy cmp l).
Proof.
  induction l as [|x l IH]; intros Hk; [constructor|].
  apply insertBy_descending.
  - eapply byKey_Permutation; [|exact Hk].
    constructor. symmetry. apply sortBy_Permutation.
  - apply IH. by apply byKey_tail in Hk.
Qed.

(** Stability: the elements with one key keep their order. *)
Lemma insertBy_stable (k : Z) (x : A) (l : list A) :
  byKey cmp key (x :: l) →
  List.filter (λ a, key a =? k) (insertBy cmp x l)
  = List.filter (λ a, key a =? k) (x :: l).
Proof.
  intros Hk. induction l as [|y l IH]; [done|].
  cbn [insertBy].
  rewrite (Hk x y); [|apply list_elem_of_here|apply list_elem_of_further, list_elem_of_here].
  destruct (Z.leb_spec (key y - key x) 0) as [Hle|Hgt]; [done|].
  cbn [List.filter] in *. rewrite IH.
  - destruct (Z.eqb_spec (key x) k), (Z.eqb_spec (key y) k); try done. lia.
  - apply (byKey_tail y), (byKey_Permutation _ _ (Permutation_swap _ _ _) Hk).
Qed.

Lemma sortBy_stable (k : Z) (l : list A) :
  byKey cmp key l →
  List.filter (λ a, key a =? k) (sortBy cmp l) = List.filter (λ a, key a =? k) l.
Proof.
  induction l as [|x l IH]; intros Hk; [done|].
  cbn [sortBy foldr]. fold (sortBy cmp l). rewrite insertBy_stable.
  - cbn [List.filter]. rewrite IH; [done|]. by apply byKey_tail in Hk.
  - eapply byKey_Permutation; [|exact Hk].
    constructor. symmetry. apply sortBy_Permutation.
Qed.

End Sorting.

(** ** Lists *)

Section Filter.

Context {A : Type} (f : A → bool).

Lemma elem_of_filter_bool (x : A) (l : list A) :
  x ∈ List.filter f l ↔ x ∈ l ∧ f x = true.
Proof. by rewrite !list_elem_of_In, filter_In. Qed.

Lemma filter_bool_Permutation (l l' : list A) :
  l ≡ₚ l' → List.filter f l ≡ₚ List.filter f l'.
Proof.
  induction 1 as [|x l l' _ IH|x y l|l1 l2 l3 _ IH1 _ IH2]; cbn.
  - done.
  - destruct (f x); by rewrite IH.
  - destruct (f x), (f y); by try apply Permutation_swap.
  - by etrans.
Qed.

Lemma filter_descending (key : A → Z) (l : list A) :
  descending key l → descending key (List.filter f l).
Proof.
  induction 1 as [|x l _ IH Hx]; cbn; [constructor|].
  destruct (f x); [|done]. constructor; [done|].
  apply list.Forall_forall. intros y [Hy _]%elem_of_filter_bool.
  by apply (proj1 (list.Forall_forall _ _) Hx).
Qed.

Lemma filter_bool_all (l : list A) :
  (∀ x, x ∈ l → f x = true) → List.filter f l = l.
Proof.
  induction l as [|x l IH]; intros H; cbn; [done|].
  rewrite (H x) by apply list_elem_of_here.
  f_equal. apply IH. intros y Hy. by apply H, list_elem_of_further.
Qed.

End Filter.

(** ** The filtered timeline *)

Section Timeline.

Variable toDateString : Z → string.

Lemma card_passes (fm : option string) (fd : option Z) (e : Entry) :
  fm ≠ Some "" →
  card toDateString fm fd e
  = if passesFilters toDateString fm fd e then Some e else None.
Proof.
  intros Hfm. unfold card, passesFilters.
  destruct fm as [m|]; cbn.
  - assert (truthy m = true) as -> by (apply truthy_true; congruence). cbn.
    destruct (String.eqb_spec (mood e) m) as [->|Hne].
    + rewrite bool_decide_eq_true_2 by done. cbn.
      destruct fd as [d|]; [|done].
      by destruct (String.eqb (toDateString (timestamp e)) (toDateString d)).
    + rewrite bool_decide_eq_false_2 by congruence. done.
  - destruct fd as [d|]; [|done].
    by destruct (String.eqb (toDateString (timestamp e)) (toDateString d)).
Qed.

Lemma cards_filter (es : list Entry) (fm : option string) (fd : option Z) :
  fm ≠ Some "" →
  cards toDateString es fm fd
  = List.filter (passesFilters toDateString fm fd)
                (sortBy (λ a b, timestamp b - timestamp a) es).
Proof.
  intros Hfm. unfold cards.
  induction (sortBy _ es) as [|e l IH]; [done|].
  cbn. rewrite (card_passes fm fd e Hfm), <- IH.
  by destruct (passesFilters _ _ _ _).
Qed.

Lemma byKey_timestamp (es : list Entry) :
  byKey (λ a b, timestamp b - timestamp a) timestamp es.
Proof. by intros x y _ _. Qed.

Lemma filter_bool_comm {A} (f g : A → bool) (l : list A) :
  List.filter f (List.filter g l) = List.filter g (List.filter f l).
Proof.
  induction l as [|x l IH]; [done|]. cbn.
  destruct (f x) eqn:Hf, (g x) eqn:Hg; cbn; rewrite ?Hf, ?Hg, IH; done.
Qed.

(** C5. The timeline that [renderEntries] shows is ordered by falling
    timestamp and holds exactly the entries that pass every active
    filter (mood: the same mood; date: the same calendar day), each as
    often as the store holds it and, among equal timestamps, in storage
    order; with no filter set it holds all entries.  The mood filter
    is never the empty string on the page (see [reachable_consistent]),
    which is the hypothesis. *)
Theorem timeline_sorted_and_filtered
    (es : list Entry) (fm : option string) (fd : option Z) :
  fm ≠ Some "" →
  let shown := cards toDateString es fm fd in
  let passing := List.filter (passesFilters toDateString fm fd) es in
  descending timestamp shown
  ∧ shown ≡ₚ passing
  ∧ (∀ e, e ∈ shown ↔ e ∈ es ∧ passesFilters toDateString fm fd e = true)
  ∧ (∀ t, List.filter (λ e, timestamp e =? t) shown
          = List.filter (λ e, timestamp e =? t) passing)
  ∧ (fm = None → fd = None → shown ≡ₚ es).
Proof.
  intros Hfm shown passing. subst shown passing.
  rewrite (cards_filter es fm fd Hfm).
  set (cmp := λ a b : Entry, timestamp b - timestamp a).
  pose proof (byKey_timestamp es) as Hk. fold cmp in Hk.
  split; [|split; [|split; [|split]]].
  - apply filter_descending, (sortBy_descending cmp timestamp es Hk).
  - apply filter_bool_Permutation, sortBy_Permutation.
  - intros e. by rewrite elem_of_filter_bool, sortBy_elem.
  - intros t. rewrite filter_bool_comm, (sortBy_stable cmp timestamp t es Hk).
    apply filter_bool_comm.
  - intros -> ->. rewrite filter_bool_all by done. apply sortBy_Permutation.
Qed.

End Timeline.

Lemma timeline_sorted_and_filtered_witness :
  cards utcDay exampleEntries (Some "Calm") None
  = [ mkEntry "Calm" "Read a book" 1700090000000;
      mkEntry "Calm" "Walked outside" 1700000000000 ]
  ∧ descending timestamp (cards utcDay exampleEntries (Some "Calm") None).
Proof.
  split; [reflexivity|].
  apply (timeline_sorted_and_filtered utcDay exampleEntries (Some "Calm") None).
  discriminate.
Defined.

(** ** The registry keeps its names distinct and non-empty *)

Lemma map_fmap {A B} (f : A → B) (l : list A) : map f l = f <$> l.
Proof. done. Qed.

Lemma trim_empty : trim "" = "".
Proof. done. Qed.

Lemma keepMood_name (m : Mood) : keepMood m = true → name m ≠ "".
Proof.
  unfold keepMood. intros H Hn. rewrite Hn in H. by rewrite trim_empty in H.
Qed.

Lemma dropSeen_elem (seen : gset string) (ml : list Mood) (m : Mood) :
  m ∈ dropSeen seen ml → m ∈ ml ∧ name m ∉ seen.
Proof.
  revert seen. induction ml as [|m' ml IH]; intros seen; cbn; [by intros ?%elem_of_nil|].
  destruct (decide (name m' ∈ seen)) as [Hin|Hout].
  - intros [? ?]%IH. split; [by apply list_elem_of_further | done].
  - intros [->|[? Hns]%IH]%elem_of_cons.
    + split; [apply list_elem_of_here | done].
    + split; [by apply list_elem_of_further|].
      intros Hs. apply Hns, elem_of_union. by right.
Qed.

Lemma dropSeen_NoDup (seen : gset string) (ml : list Mood) :
  NoDup (map name (dropSeen seen ml)).
Proof.
  revert seen. induction ml as [|m ml IH]; intros seen; cbn; [constructor|].
  destruct (decide (name m ∈ seen)); [apply IH|].
  cbn. constructor; [|apply IH].
  rewrite map_fmap. intros (m' & Heq & [_ Hm']%dropSeen_elem)%list_elem_of_fmap.
  apply Hm'. rewrite <- Heq. apply elem_of_union. left. by apply elem_of_singleton.
Qed.

Lemma readMoodList_ok (storage : gmap string string) :
  registryOk (readMoodList storage).
Proof.
  unfold readMoodList.
  destruct (if truthyOpt _ then _ else _) as [ml|]; [|by split; constructor].
  split; [apply dropSeen_NoDup|].
  apply list.Forall_forall. intros m [Hm _]%dropSeen_elem.
  apply elem_of_filter_bool in Hm as [_ Hm]. by apply keepMood_name.
Qed.

Lemma NoDup_filter_names (f : Mood → bool) (ml : list Mood) :
  NoDup (map name ml) → NoDup (map name (List.filter f ml)).
Proof.
  induction ml as [|m ml IH]; [done|]. cbn.
  intros [Hm Hnd]%NoDup_cons.
  destruct (f m); [|by apply IH]. cbn. apply NoDup_cons. split; [|by apply IH].
  rewrite map_fmap in *. intros (m' & Heq & [Hm' _]%elem_of_filter_bool)%list_elem_of_fmap.
  apply Hm, list_elem_of_fmap. eauto.
Qed.

Lemma registryOk_filter (f : Mood → bool) (ml : list Mood) :
  registryOk ml → registryOk (List.filter f ml).
Proof.
  intros [Hnd Hne]. split; [by apply NoDup_filter_names|].
  apply list.Forall_forall. intros m [Hm _]%elem_of_filter_bool.
  by apply (proj1 (list.Forall_forall _ _) Hne).
Qed.

(** The registry after the upsert of [addCustomMood]. *)
Lemma registryOk_upsert (nm c : string) (ml : list Mood) :
  nm ≠ "" → registryOk ml →
  registryOk
    match list_find (λ m, toLowerCase (name m) = toLowerCase nm) ml with
    | Some (i, existing) => <[i := mkMood (name existing) "fa-heart" c]> ml
    | None => ml ++ [mkMood nm "fa-heart" c]
    end.
Proof.
  intros Hnm [Hnd Hne].
  destruct (list_find _ ml) as [[i existing]|] eqn:Hfind.
  - apply list_find_Some in Hfind as (Hi & _ & _).
    split.
    + rewrite map_fmap, list_fmap_insert. cbn.
      rewrite list_insert_id; [by rewrite <- map_fmap|].
      by rewrite list_lookup_fmap, Hi.
    + apply Forall_insert; [done|]. cbn.
      apply (proj1 (list.Forall_forall _ _) Hne). by eapply list_elem_of_lookup_2.
  - apply list_find_None in Hfind. split.
    + rewrite map_app. cbn. apply NoDup_app. split; [done|]. split; [|apply NoDup_singleton].
      intros x Hx ->%list_elem_of_singleton.
      rewrite map_fmap in Hx. apply list_elem_of_fmap in Hx as (m & Heq & Hm).
      apply (proj1 (list.Forall_forall _ _) Hfind m Hm). by rewrite <- Heq.
    + apply Forall_app. split; [done|]. by constructor.
Qed.

(** ** What every state of the page satisfies *)

Section Reachable.

Variable toDateString : Z → string.

Lemma start_consistent (storage : gmap string string) :
  consistent toDateString (start toDateString storage).
Proof.
  split; cbn; try done. apply readMoodList_ok.
Qed.

Lemma submit_consistent (now : Z) (st : State) :
  consistent toDateString st → consistent toDateString (submit toDateString now st).
Proof.
  intros [Hreg Hlab Hdat Hfm Htl]. unfold submit.
  destruct (negb _ || negb _); [by split|].
  destruct (selectedMood (entryForm st)); by split.
Qed.

Lemma deleteEntry_consistent (ts : Z) (st : State) :
  consistent toDateString st → consistent toDateString (deleteEntry toDateString ts st).
Proof.
  intros [Hreg Hlab Hdat Hfm Htl]. unfold deleteEntry.
  destruct (list_find _ _) as [[idx e]|]; by split.
Qed.

Lemma addCustomMood_consistent (nm c : string) (st : State) :
  consistent toDateString st → consistent toDateString (addCustomMood nm c st).
Proof.
  intros [Hreg Hlab Hdat Hfm Htl]. unfold addCustomMood.
  destruct (truthy nm) eqn:Hnm; cbn [negb]; [|by split].
  apply truthy_true in Hnm. split; cbn; try done.
  by apply registryOk_upsert.
Qed.

Lemma deleteMood_consistent (nm : string) (st : State) :
  consistent toDateString st → consistent toDateString (deleteMood nm st).
Proof.
  intros [Hreg Hlab Hdat Hfm Htl]. unfold deleteMood.
  destruct (includes builtInMoodNames nm); [by split|].
  split; cbn; try done. by apply registryOk_filter.
Qed.

Lemma chartClick_consistent (elements : list nat) (st : State) :
  consistent toDateString st → consistent toDateString (chartClick toDateString elements st).
Proof.
  intros [Hreg Hlab Hdat Hfm Htl]. unfold chartClick.
  destruct elements as [|index _]; [by split|].
  split; cbn; try done.
  destruct (decide _); [done|]. rewrite Hlab, map_fmap, list_lookup_fmap.
  destruct (moodList st !! index) as [m|] eqn:Hm; cbn; [|done].
  intros [= Hn]. destruct Hreg as [_ Hne].
  by apply (proj1 (list.Forall_forall _ _) Hne m (list_elem_of_lookup_2 _ _ _ Hm)).
Qed.

Lemma calendarClick_consistent (dateKey : Z) (st : State) :
  consistent toDateString st → consistent toDateString (calendarClick toDateString dateKey st).
Proof. intros [Hreg Hlab Hdat Hfm Htl]. by split. Qed.

Lemma step_consistent (st : State) (ev : Event) :
  consistent toDateString st → consistent toDateString (step toDateString st ev).
Proof.
  intros Hc. destruct ev as [i|t|now|ts|nm c|nm|els|d]; cbn.
  - destruct Hc. by destruct (moodList st !! i); split.
  - destruct Hc. by split.
  - by apply submit_consistent.
  - by apply deleteEntry_consistent.
  - unfold saveMoodClick. destruct (negb _); [done|]. by apply addCustomMood_consistent.
  - by apply deleteMood_consistent.
  - by apply chartClick_consistent.
  - by apply calendarClick_consistent.
Qed.

Lemma run_consistent (st : State) (evs : list Event) :
  consistent toDateString st → consistent toDateString (run toDateString st evs).
Proof.
  revert st. induction evs as [|ev evs IH]; intros st Hc; [done|].
  cbn. by apply IH, step_consistent.
Qed.

(** On the page, opened on a store that is empty or that the script
    wrote, the registry has distinct, non-empty names, the chart carries
    the labels and counts of the current registry and entries, the mood
    filter is never the empty string, and the timeline shows the cards
    of the current entries and filters. *)
Theorem reachable_consistent (st : State) :
  onPage toDateString st → consistent toDateString st.
Proof.
  intros (storage & evs & _ & _ & ->). apply run_consistent, start_consistent.
Qed.

End Reachable.

Lemma reachable_consistent_witness : consistent utcDay twoMoodsFiltered.
Proof.
  apply (reachable_consistent utcDay twoMoodsFiltered).
  exists ∅, [ PickMood 1; TypeText "rainy"; Submit 1700000000000;
             PickMood 0; TypeText "sunny"; Submit 1700000001000;
             ChartClick [1%nat] ].
  split; [by split; left|]. split; [|reflexivity].
  repeat constructor; unfold timeValue; lia.
Defined.

(** ** The handlers *)

Section Handlers.

Variable toDateString : Z → string.

Lemma cards_same_day (es : list Entry) (fm : option string) (d d' : Z) :
  toDateString d = toDateString d' →
  cards toDateString es fm (Some d) = cards toDateString es fm (Some d').
Proof. intros Heq. unfold cards, card. by rewrite Heq. Qed.

(** C7, amended.  A click on a chart bar sets the mood filter to the
    mood of the bar unless the filter already is that mood, in which
    case it clears it; a click on a calendar cell does the same with
    the date filter and the day of the cell.  Two clicks in a row on
    one target restore the filtered timeline when the filter was unset
    or already selected that target; when the filter held another
    value, the first click replaces it and the second clears it. *)
Theorem toggle_twice (st : State) :
  (∀ index : nat,
     let target := labels (moodChart st) !! index in
     let once := chartClick toDateString [index] st in
     let twice := chartClick toDateString [index] once in
     filterMood once = (if decide (filterMood st = target) then None else target)
     ∧ (filterMood st = None ∨ filterMood st = target →
        filterMood twice = filterMood st
        ∧ timeline twice = cards toDateString (entries st) (filterMood st) (filterDate st))
     ∧ (filterMood st ≠ None → filterMood st ≠ target →
        filterMood once = target ∧ filterMood twice = None))
  ∧ (∀ dateKey : Z,
     let selected := ∃ d, filterDate st = Some d ∧ toDateString d = toDateString dateKey in
     let once := calendarClick toDateString dateKey st in
     let twice := calendarClick toDateString dateKey once in
     (filterDate st = None → filterDate once = Some dateKey ∧ filterDate twice = None)
     ∧ (selected → filterDate once = None ∧ filterDate twice = Some dateKey)
     ∧ (filterDate st = None ∨ selected →
        timeline twice = cards toDateString (entries st) (filterMood st) (filterDate st))
     ∧ (filterDate st ≠ None → ¬ selected →
        filterDate once = Some dateKey ∧ filterDate twice = None)).
Proof.
  split.
  - intros index target once twice. subst once twice. unfold chartClick. cbn.
    fold target. split; [done|]. split.
    + intros [Hfm|Hfm]; rewrite Hfm.
      * destruct (decide (None = target)) as [<-|Hne]; cbn; [done|].
        by rewrite decide_True by done.
      * rewrite (decide_True (P := target = target)) by done. cbn.
        destruct (decide (None = target)) as [<-|Hne]; [done|]. done.
    + intros Hnone Hne. rewrite decide_False by done. split; [done|].
      by rewrite decide_True by done.
  - intros dateKey selected once twice. subst selected once twice.
    unfold calendarClick. cbn. split; [|split; [|split]].
    + intros ->. cbn. by rewrite String.eqb_refl.
    + intros (d & -> & Heq). cbn. rewrite Heq, String.eqb_refl. done.
    + intros [->|(d & -> & Heq)]; cbn.
      * by rewrite String.eqb_refl.
      * rewrite Heq, String.eqb_refl. by apply cards_same_day.
    + intros Hnone Hsel. destruct (filterDate st) as [d|]; [|done].
      destruct (String.eqb_spec (toDateString d) (toDateString dateKey)) as [Heq|Hne].
      * destruct Hsel. eauto.
      * cbn. by rewrite String.eqb_refl.
Qed.

(** C9.  A submission whose mood is missing (or empty) or whose text is
    empty once trimmed leaves the whole state as it is: no entry is
    appended, the stored snapshot is untouched and nothing else is
    shown; any other submission appends exactly one entry, made of the
    mood, the trimmed text and the time of the submission, and stores
    the new collection. *)
Theorem submit_validation (now : Z) (st : State) :
  let picked := selectedMood (entryForm st) in
  let trimmed := trim (entryText (entryForm st)) in
  (picked = None ∨ picked = Some "" ∨ trimmed = "" → submit toDateString now st = st)
  ∧ (∀ m, picked = Some m → m ≠ "" → trimmed ≠ "" →
       let after := submit toDateString now st in
       entries after = entries st ++ [mkEntry m trimmed now]
       ∧ length (entries after) = S (length (entries st))
       ∧ localStorage after
         = <["m2mEntries" := JSON.stringifyEntries (entries after)]> (localStorage st)).
Proof.
  intros picked trimmed. subst picked trimmed. unfold submit. split.
  - intros [H|[H|H]]; rewrite H; cbn; [done|done|].
    by rewrite orb_true_r.
  - intros m -> Hm Ht. cbn.
    rewrite (proj2 (truthy_true m) Hm), (proj2 (truthy_true _) Ht). cbn.
    split; [done|]. split; [|done]. rewrite length_app. cbn. lia.
Qed.

Lemma stringifyEntries_truthy (es : list Entry) :
  truthy (JSON.stringifyEntries es) = true.
Proof. done. Qed.

Lemma stringifyMoods_truthy (ml : list Mood) :
  truthy (JSON.stringifyMoods ml) = true.
Proof. done. Qed.

(** What [loadEntries] reads after [saveEntries] wrote [es]. *)
Lemma readEntries_saved (es : list Entry) (storage : gmap string string) :
  readEntries (<["m2mEntries" := JSON.stringifyEntries es]> storage) = es.
Proof.
  unfold readEntries.
  by rewrite lookup_insert_eq, stringifyEntries_truthy, JSONFacts.parse_stringify_entries.
Qed.

(** C4.  Whatever was added and removed, [saveEntries] followed by
    [loadEntries] yields the collection held before the save: the same
    entries, even in the same order. *)
Theorem save_load_entries (st : State) (evs : list Event) :
  let before := run toDateString st evs in
  let after := loadEntries (saveEntries before) in
  entries after = entries before ∧ entries after ≡ₚ entries before.
Proof.
  intros before after.
  assert (entries after = entries before) as ->; [|done].
  subst after. unfold loadEntries, saveEntries, setEntries, setItem.
  cbn [entries localStorage]. apply readEntries_saved.
Qed.

End Handlers.

Lemma submit_validation_witness :
  submit utcDay 1700000000000 (start utcDay ∅) = start utcDay ∅
  ∧ entries (submit utcDay 1700000000000 calmDraft)
    = [mkEntry "Calm" "Walked outside" 1700000000000].
Proof.
  split.
  - apply (submit_validation utcDay 1700000000000 (start utcDay ∅)).
    left. reflexivity.
  - destruct (submit_validation utcDay 1700000000000 calmDraft) as [_ Happend].
    apply (Happend "Calm"); [reflexivity | discriminate | discriminate].
Defined.

(** The claim C7 as the specification words it fails when the filter
    holds another mood than the one clicked: with the filter on Sad,
    two clicks on the bar of Happy leave no filter, and the timeline
    shows both entries instead of the sad one. *)
Lemma toggle_twice_not_identity :
  let twice := chartClick utcDay [0%nat] (chartClick utcDay [0%nat] twoMoodsFiltered) in
  filterMood twoMoodsFiltered = Some "Sad"
  ∧ filterMood twice = None
  ∧ timeline twoMoodsFiltered = [mkEntry "Sad" "rainy" 1700000000000]
  ∧ timeline twice
    = [mkEntry "Happy" "sunny" 1700000001000; mkEntry "Sad" "rainy" 1700000000000]
  ∧ ¬ (filterMood twice = filterMood twoMoodsFiltered
       ∧ timeline twice = timeline twoMoodsFiltered).
Proof.
  repeat split; try reflexivity. intros [H _]. vm_compute in H. discriminate H.
Qed.

(** ** Unique moods of a day *)

Lemma uniqueFrom_elem (seen : gset string) (l : list string) (x : string) :
  x ∈ uniqueFrom seen l ↔ x ∈ l ∧ x ∉ seen.
Proof.
  revert seen. induction l as [|y l IH]; intros seen; cbn.
  - split; [by intros ?%elem_of_nil | by intros [?%elem_of_nil _]].
  - destruct (decide (y ∈ seen)) as [Hin|Hout].
    + rewrite IH, elem_of_cons. naive_solver.
    + rewrite !elem_of_cons, IH, elem_of_union, elem_of_singleton.
      destruct (decide (x = y)); naive_solver.
Qed.

Lemma uniqueFrom_NoDup (seen : gset string) (l : list string) :
  NoDup (uniqueFrom seen l).
Proof.
  revert seen. induction l as [|y l IH]; intros seen; cbn; [constructor|].
  destruct (decide (y ∈ seen)); [apply IH|].
  constructor; [|apply IH]. rewrite uniqueFrom_elem, elem_of_union, elem_of_singleton.
  naive_solver.
Qed.

Lemma uniqueFrom_without (seen : gset string) (a : string) (l : list string) :
  uniqueFrom ({[a]} ∪ seen) l
  = List.filter (λ x, negb (String.eqb x a)) (uniqueFrom seen l).
Proof.
  revert seen. induction l as [|y l IH]; intros seen; cbn; [done|].
  destruct (decide (y ∈ seen)) as [Hin|Hout].
  - rewrite decide_True by (apply elem_of_union; by right). apply IH.
  - cbn. destruct (String.eqb_spec y a) as [->|Hne]; cbn.
    + rewrite decide_True by (apply elem_of_union; left; by apply elem_of_singleton).
      symmetry. apply filter_bool_all. intros x [_ Hx]%uniqueFrom_elem.
      apply negb_true_iff, String.eqb_neq. intros ->. apply Hx, elem_of_union.
      left. by apply elem_of_singleton.
    + rewrite decide_False.
      * f_equal. rewrite <- IH. f_equal.
        rewrite !(assoc_L (∪)). f_equal. apply (comm_L (∪)).
      * rewrite elem_of_union, elem_of_singleton. naive_solver.
Qed.

(** The first element comes first, the others follow as they do in the
    rest. *)
Lemma unique_cons (a : string) (l : list string) :
  unique (a :: l) = a :: List.filter (λ x, negb (String.eqb x a)) (unique l).
Proof.
  unfold unique. cbn. rewrite decide_False by apply not_elem_of_empty.
  by rewrite uniqueFrom_without.
Qed.

Lemma unique_elem (l : list string) (x : string) : x ∈ unique l ↔ x ∈ l.
Proof.
  unfold unique. rewrite uniqueFrom_elem. pose proof (not_elem_of_empty (C := gset string) x).
  naive_solver.
Qed.

(** First-seen order: what stands before [a] in [unique l] is what was
    seen in [l] before the first [a]. *)
Lemma unique_first_seen (l : list string) (a : string) :
  a ∈ l →
  ∃ l1 l2 u1 u2,
    l = l1 ++ a :: l2 ∧ (a ∉ l1) ∧ unique l = u1 ++ a :: u2 ∧ ∀ x, x ∈ u1 ↔ x ∈ l1.
Proof.
  induction l as [|y l IH]; [by intros ?%elem_of_nil|].
  intros Ha. rewrite unique_cons. destruct (decide (a = y)) as [->|Hne].
  - exists [], l, [], (List.filter (λ x, negb (String.eqb x y)) (unique l)).
    repeat split; try done. apply not_elem_of_nil.
  - apply elem_of_cons in Ha as [?|Ha]; [done|].
    destruct (IH Ha) as (l1 & l2 & u1 & u2 & -> & Hl1 & Hu & Hiff).
    set (keep := λ x, negb (String.eqb x y)).
    exists (y :: l1), l2, (y :: List.filter keep u1), (List.filter keep u2).
    split; [done|]. split.
    { rewrite not_elem_of_cons. done. }
    split.
    { rewrite Hu, List.filter_app. cbn. fold keep.
      assert (keep a = true) as ->; [|done].
      by apply negb_true_iff, String.eqb_neq. }
    intros x. rewrite !elem_of_cons, elem_of_filter_bool, Hiff.
    unfold keep. rewrite negb_true_iff, String.eqb_neq.
    destruct (decide (x = y)); naive_solver.
Qed.

(** The number of unique moods is the number of distinct moods. *)
Lemma unique_length (l : list string) :
  length (unique l) = size (list_to_set l : gset string).
Proof.
  rewrite <- (size_list_to_set (C := gset string) (unique l)) by apply uniqueFrom_NoDup.
  f_equal. apply set_eq. intros x. by rewrite !elem_of_list_to_set, unique_elem.
Qed.

Lemma unique_length_Permutation (l l' : list string) :
  l ≡ₚ l' → length (unique l) = length (unique l').
Proof.
  intros Hp. rewrite !unique_length. f_equal. by apply list_to_set_perm_L.
Qed.

(** ** The calendar cell of a day *)

Section Calendar.

Variable toDateString : Z → string.

Lemma dayEntries_elem (es : list Entry) (dateString : string) (e : Entry) :
  e ∈ dayEntries toDateString es dateString
  ↔ e ∈ es ∧ toDateString (timestamp e) = dateString.
Proof.
  unfold dayEntries. by rewrite elem_of_filter_bool, String.eqb_eq.
Qed.

Lemma omap_length_le {A B} (f : A → option B) (l : list A) :
  (length (omap f l) ≤ length l)%nat.
Proof.
  induction l as [|x l IH]; cbn; [done|]. destruct (f x); cbn; lia.
Qed.

Lemma omap_length_all {A B} (f : A → option B) (l : list A) :
  Forall (λ x, is_Some (f x)) l → length (omap f l) = length l.
Proof.
  induction 1 as [|x l [y Hy] _ IH]; cbn; [done|]. rewrite Hy. cbn. by rewrite IH.
Qed.

Lemma find_name_some (ml : list Mood) (nm : string) :
  nm ∈ map name ml → is_Some (List.find (λ m, String.eqb (name m) nm) ml).
Proof.
  induction ml as [|m ml IH]; cbn; [by intros ?%elem_of_nil|].
  destruct (String.eqb_spec (name m) nm) as [_|Hne]; [by eexists|].
  intros [?|?]%elem_of_cons; [congruence | by apply IH].
Qed.

(** The caption of a cell is there exactly from four entries on. *)
Lemma calendarCell_caption (mixFeelings : gmap string string) (ml : list Mood)
    (es : list Entry) (reply : list string → option string) (dateKey : Z) :
  is_Some (feelingText (calendarCell toDateString mixFeelings ml es reply dateKey).1)
  ↔ (4 ≤ length (dayEntries toDateString es (toDateString dateKey)))%nat.
Proof.
  unfold calendarCell. rewrite length_map.
  destruct (Nat.leb_spec 4 (length (dayEntries toDateString es (toDateString dateKey))))
    as [Hle|Hlt].
  - destruct (generateMixtureFeelingForDate _ _ _ _ _) as [feeling cache]. cbn.
    split; [done|]. intros _.
    destruct (truthyOpt feeling) eqn:Hf.
    + rewrite Hf. destruct feeling; [by eexists | done].
    + cbn. by eexists.
  - cbn. split; [by intros [? [=]] | lia].
Qed.

(** C6.  For a day of the calendar: the entries of the day are those
    whose timestamp falls on that calendar day; the unique moods are the
    mood names of these entries, each once, in the order in which they
    are first seen; the dots are the colours of those of the first
    three unique moods that the registry knows, so at most three, and
    as many as there are among the first three when the registry knows
    them all; the mixture summary runs exactly when the day has four
    entries or more, however many unique moods it has.  A day whose
    four entries have the moods Happy, Happy, Sad and Calm has three
    unique moods and gets the summary. *)
Theorem calendar_cell_moods (mixFeelings : gmap string string) (ml : list Mood)
    (es : list Entry) (reply : list string → option string) (dateKey : Z) :
  let today := dayEntries toDateString es (toDateString dateKey) in
  let dayMoods := map mood today in
  let cell := (calendarCell toDateString mixFeelings ml es reply dateKey).1 in
  (∀ e, e ∈ today ↔ e ∈ es ∧ toDateString (timestamp e) = toDateString dateKey)
  ∧ NoDup (uniqueMoods cell)
  ∧ (∀ m, m ∈ uniqueMoods cell ↔ m ∈ dayMoods)
  ∧ (∀ m, m ∈ dayMoods →
       ∃ l1 l2 u1 u2, dayMoods = l1 ++ m :: l2 ∧ (m ∉ l1)
                      ∧ uniqueMoods cell = u1 ++ m :: u2 ∧ ∀ x, x ∈ u1 ↔ x ∈ l1)
  ∧ dots cell
    = omap (λ nm, color <$> List.find (λ m, String.eqb (name m) nm) ml)
           (take 3 (uniqueMoods cell))
  ∧ (length (dots cell) ≤ 3)%nat
  ∧ ((∀ nm, nm ∈ take 3 (uniqueMoods cell) → nm ∈ map name ml) →
     length (dots cell) = Nat.min 3 (length (uniqueMoods cell)))
  ∧ (is_Some (feelingText cell) ↔ (4 ≤ length today)%nat)
  ∧ (dayMoods ≡ₚ ["Happy"; "Happy"; "Sad"; "Calm"] →
     length (uniqueMoods cell) = 3%nat ∧ is_Some (feelingText cell)).
Proof.
  intros today dayMoods cell.
  assert (uniqueMoods cell = unique dayMoods) as Hu.
  { subst cell. unfold calendarCell. fold today. fold dayMoods.
    destruct (4 <=? length dayMoods)%nat; [|done].
    by destruct (generateMixtureFeelingForDate _ _ _ _ _). }
  assert (dots cell
          = omap (λ nm, color <$> List.find (λ m, String.eqb (name m) nm) ml)
                 (take 3 (uniqueMoods cell))) as Hd.
  { rewrite Hu. subst cell. unfold calendarCell. fold today. fold dayMoods.
    destruct (4 <=? length dayMoods)%nat; [|done].
    by destruct (generateMixtureFeelingForDate _ _ _ _ _). }
  pose proof (calendarCell_caption mixFeelings ml es reply dateKey) as Hc.
  fold cell in Hc. fold today in Hc.
  split; [apply dayEntries_elem|].
  split; [rewrite Hu; apply uniqueFrom_NoDup|].
  split; [intros m; rewrite Hu; apply unique_elem|].
  split; [intros m Hm; rewrite Hu; by apply unique_first_seen|].
  split; [done|].
  split.
  { rewrite Hd. etrans; [apply omap_length_le|]. rewrite length_take. lia. }
  split.
  { intros Hknown. rewrite Hd, omap_length_all, length_take; [done|].
    apply list.Forall_forall. intros nm Hnm.
    destruct (find_name_some ml nm (Hknown nm Hnm)) as [m ->]. by eexists. }
  split; [done|].
  intros Hp. split.
  - rewrite Hu, (unique_length_Permutation _ _ Hp). reflexivity.
  - apply Hc. subst dayMoods. apply Permutation_length in Hp.
    rewrite length_map in Hp. rewrite Hp. cbn. lia.
Qed.

End Calendar.

(** ** Removing and adding moods *)

(** Reads the fields of a state that the setters built. *)
Ltac state_fields :=
  unfold updateChart, initChart, renderMoodOptions, saveMoodList, saveEntries,
    loadEntries, loadMoodList, setEntries, setMoodList, setFilterMood,
    setFilterDate, setItem, setChart, setTimeline, setForm;
  cbn [entries moodList filterMood filterDate localStorage moodChart timeline
       entryForm labels data selectedMood entryText].


Lemma filter_name_length (nm : string) (ml : list Mood) :
  NoDup (map name ml) → nm ∈ map name ml →
  S (length (List.filter (λ m, negb (String.eqb (name m) nm)) ml)) = length ml.
Proof.
  induction ml as [|m ml IH]; cbn; [by intros _ ?%elem_of_nil|].
  intros [Hm Hnd]%NoDup_cons Hin.
  destruct (String.eqb_spec (name m) nm) as [<-|Hne]; cbn.
  - rewrite filter_bool_all; [done|]. intros m' Hm'.
    apply negb_true_iff, String.eqb_neq. intros Heq. apply Hm.
    rewrite map_fmap, <- Heq. by apply list_elem_of_fmap_2.
  - apply elem_of_cons in Hin as [?|Hin]; [congruence|]. by rewrite IH.
Qed.

(** C8.  [deleteMood] leaves the state alone when the name is one of
    the five built-in names; for any other name it removes the mood of
    that name, which makes the registry one mood shorter when there is
    such a mood and leaves the registry as it is when there is none. *)
Theorem deleteMood_size (nm : string) (st : State) :
  registryOk (moodList st) →
  let after := moodList (deleteMood nm st) in
  (nm ∈ builtInMoodNames → deleteMood nm st = st)
  ∧ (nm ∉ builtInMoodNames → nm ∈ map name (moodList st) →
     S (length after) = length (moodList st)
     ∧ ∀ m, m ∈ after ↔ m ∈ moodList st ∧ name m ≠ nm)
  ∧ (nm ∉ builtInMoodNames → nm ∉ map name (moodList st) → after = moodList st).
Proof.
  intros [Hnd _] after. subst after. unfold deleteMood.
  split; [|split].
  - intros Hb. by rewrite (proj2 (includes_true _ _) Hb).
  - intros Hb Hin. rewrite (proj2 (includes_false _ _) Hb). cbn. split.
    + by apply filter_name_length.
    + intros m. by rewrite elem_of_filter_bool, negb_true_iff, String.eqb_neq.
  - intros Hb Hout. rewrite (proj2 (includes_false _ _) Hb). cbn.
    apply filter_bool_all. intros m Hm. apply negb_true_iff, String.eqb_neq.
    intros Heq. apply Hout. rewrite map_fmap, <- Heq. by apply list_elem_of_fmap_2.
Qed.

Lemma deleteMood_size_witness :
  deleteMood "Happy" joyState = joyState
  ∧ S (length (moodList (deleteMood "Joy" joyState))) = length (moodList joyState).
Proof.
  assert (registryOk (moodList joyState)) as Hok.
  { apply (consistent_registry utcDay), run_consistent, start_consistent. }
  split.
  - apply (deleteMood_size "Happy" joyState Hok), includes_true. reflexivity.
  - apply (deleteMood_size "Joy" joyState Hok).
    + apply includes_false. reflexivity.
    + apply includes_true. reflexivity.
Defined.

Lemma dropSeen_NoDup_id (seen : gset string) (ml : list Mood) :
  NoDup (map name ml) → (∀ m, m ∈ ml → name m ∉ seen) → dropSeen seen ml = ml.
Proof.
  revert seen. induction ml as [|m ml IH]; intros seen; cbn; [done|].
  intros [Hm Hnd]%NoDup_cons Hseen.
  rewrite decide_False by apply Hseen, list_elem_of_here.
  f_equal. apply IH; [done|]. intros m' Hm'.
  rewrite elem_of_union, elem_of_singleton. intros [Heq|Hin].
  - apply Hm. rewrite map_fmap, <- Heq. by apply list_elem_of_fmap_2.
  - by apply (Hseen m'); [apply list_elem_of_further|].
Qed.

(** What [loadMoodList] reads after [saveMoodList] wrote a registry
    with distinct names: the moods that pass the first filter. *)
Lemma readMoodList_saved (ml : list Mood) (storage : gmap string string) :
  NoDup (map name ml) →
  readMoodList (<["m2mMoods" := JSON.stringifyMoods ml]> storage)
  = List.filter keepMood ml.
Proof.
  intros Hnd. unfold readMoodList. rewrite lookup_insert_eq. cbn [truthyOpt].
  rewrite stringifyMoods_truthy. cbn [mbind option_bind].
  rewrite JSONFacts.parse_stringify_moods.
  apply dropSeen_NoDup_id; [|intros; apply not_elem_of_empty].
  by apply NoDup_filter_names.
Qed.

Lemma keepMood_same_name (m m' : Mood) : name m = name m' → keepMood m = keepMood m'.
Proof. unfold keepMood. by intros ->. Qed.

(** C10.  When the name given to [addCustomMood] matches a registry
    mood up to case, the first such mood is updated in place: it keeps
    its name and position, takes the given colour and the icon
    [fa-heart] of custom moods, and the registry keeps its size.  The
    updated registry is what is stored, so the change also holds after
    a reload (for a mood that passes the load-time filters, as every
    built-in does): a built-in mood loses its own icon for good. *)
Theorem addCustomMood_upsert (nm c : string) (st : State) :
  registryOk (moodList st) →
  (∃ m, m ∈ moodList st ∧ toLowerCase (name m) = toLowerCase nm) →
  let after := addCustomMood nm c st in
  ∃ i existing,
    moodList st !! i = Some existing
    ∧ toLowerCase (name existing) = toLowerCase nm
    ∧ (∀ j m, (j < i)%nat → moodList st !! j = Some m →
         toLowerCase (name m) ≠ toLowerCase nm)
    ∧ moodList after = <[i := mkMood (name existing) "fa-heart" c]> (moodList st)
    ∧ length (moodList after) = length (moodList st)
    ∧ localStorage after !! "m2mMoods" = Some (JSON.stringifyMoods (moodList after))
    ∧ (keepMood existing = true →
       mkMood (name existing) "fa-heart" c ∈ readMoodList (localStorage after)).
Proof.
  intros Hok (m & Hm & Hmatch) after.
  assert (nm ≠ "") as Hnm.
  { intros ->. change (toLowerCase "") with "" in Hmatch.
    apply (proj1 (toLowerCase_empty _)) in Hmatch.
    destruct Hok as [_ Hne]. by apply (proj1 (list.Forall_forall _ _) Hne m Hm). }
  pose proof (registryOk_upsert nm c (moodList st) Hnm Hok) as [Hnd' _].
  subst after. unfold addCustomMood. rewrite (proj2 (truthy_true nm) Hnm). cbn [negb].
  destruct (list_find _ (moodList st)) as [[i existing]|] eqn:Hfind.
  - pose proof Hfind as (Hi & Hex & Hfirst)%list_find_Some.
    exists i, existing. state_fields.
    split; [done|]. split; [done|].
    split; [intros j m' Hj Hm'; by eapply Hfirst|].
    split; [done|]. split; [by rewrite length_insert|].
    split; [by rewrite lookup_insert_eq|].
    intros Hkeep. rewrite readMoodList_saved by done.
    apply elem_of_filter_bool. split.
    + apply list_elem_of_lookup. exists i. apply list_lookup_insert_eq.
      by eapply lookup_lt_Some.
    + by rewrite <- Hkeep.
  - apply list_find_None in Hfind.
    by destruct (proj1 (list.Forall_forall _ _) Hfind m Hm).
Qed.

Lemma addCustomMood_upsert_witness :
  ∃ i existing,
    moodList (start utcDay ∅) !! i = Some existing
    ∧ name existing = "Happy"
    ∧ icon existing = "fa-smile-beam"
    ∧ moodList (addCustomMood "happy" "#000000" (start utcDay ∅)) !! i
      = Some (mkMood "Happy" "fa-heart" "#000000")
    ∧ mkMood "Happy" "fa-heart" "#000000"
      ∈ readMoodList (localStorage (addCustomMood "happy" "#000000" (start utcDay ∅))).
Proof.
  assert (registryOk (moodList (start utcDay ∅))) as Hok.
  { apply (consistent_registry utcDay), start_consistent. }
  destruct (addCustomMood_upsert "happy" "#000000" (start utcDay ∅) Hok)
    as (i & existing & Hi & Hlow & Hfirst & Hafter & _ & _ & Hreload).
  { exists (mkMood "Happy" "fa-smile-beam" "#6c63ff").
    split; [apply list_elem_of_here | reflexivity]. }
  destruct i as [|i].
  - injection Hi as <-. exists 0%nat, (mkMood "Happy" "fa-smile-beam" "#6c63ff").
    split; [reflexivity|]. split; [reflexivity|]. split; [reflexivity|].
    split; [reflexivity|]. apply Hreload. reflexivity.
  - exfalso. apply (Hfirst 0%nat (mkMood "Happy" "fa-smile-beam" "#6c63ff")).
    + lia.
    + reflexivity.
    + reflexivity.
Defined.

(** ** Loading the registry *)

(** [dropSeen] keeps, for each name not seen before, the first mood
    of that name. *)
Lemma dropSeen_first (seen : gset string) (ml : list Mood) (m : Mood) :
  m ∈ dropSeen seen ml
  ↔ (name m ∉ seen) ∧ List.find (λ m', String.eqb (name m') (name m)) ml = Some m.
Proof.
  revert seen. induction ml as [|x ml IH]; intros seen; cbn.
  - split; [by intros ?%elem_of_nil | by intros [_ ?]].
  - destruct (decide (name x ∈ seen)) as [Hin|Hout].
    + rewrite IH. destruct (String.eqb_spec (name x) (name m)) as [Heq|Hne]; [|done].
      rewrite <- Heq. split; [by intros [? _] | by intros [? _]].
    + rewrite elem_of_cons, IH, elem_of_union, elem_of_singleton.
      destruct (String.eqb_spec (name x) (name m)) as [Heq|Hne].
      * split.
        -- intros [->|[Hn _]]; [done|]. destruct Hn. by left.
        -- intros [_ [= ->]]. by left.
      * split.
        -- intros [->|[Hn Hf]]; [done|]. split; [|done]. intros ?. apply Hn. by right.
        -- intros [Hn Hf]. right. split; [|done]. intros [?|?]; [congruence | done].
Qed.

Lemma dropSeen_sublist (seen : gset string) (ml : list Mood) :
  sublist (dropSeen seen ml) ml.
Proof.
  revert seen. induction ml as [|m ml IH]; intros seen; cbn; [constructor|].
  destruct (decide (name m ∈ seen)); [apply sublist_cons | apply sublist_skip]; apply IH.
Qed.

Lemma filter_bool_sublist {A} (f : A → bool) (l : list A) :
  sublist (List.filter f l) l.
Proof.
  induction l as [|x l IH]; cbn; [constructor|].
  destruct (f x); by constructor.
Qed.

Lemma filter_name_none (nm : string) (ml : list Mood) :
  nm ∉ map name ml → List.filter (λ m, String.eqb (name m) nm) ml = [].
Proof.
  induction ml as [|x ml IH]; cbn; [done|].
  intros [Hx Hnm]%not_elem_of_cons.
  destruct (String.eqb_spec (name x) nm); [done | by apply IH].
Qed.

Lemma filter_name_singleton (m : Mood) (ml : list Mood) :
  NoDup (map name ml) → m ∈ ml →
  List.filter (λ m', String.eqb (name m') (name m)) ml = [m].
Proof.
  induction ml as [|x ml IH]; cbn; [by intros _ ?%elem_of_nil|].
  intros [Hx Hnd]%NoDup_cons Hm.
  destruct (String.eqb_spec (name x) (name m)) as [Heq|Hne].
  - assert (m = x) as ->.
    { apply elem_of_cons in Hm as [?|Hm]; [done|]. destruct Hx.
      rewrite Heq, map_fmap. by apply list_elem_of_fmap_2. }
    by rewrite filter_name_none.
  - apply elem_of_cons in Hm as [->|Hm]; [done|]. by apply IH.
Qed.

(** C1, amended.  Whatever the store holds, the registry that
    [loadMoodList] computes never has two moods with the same name,
    compared exactly (case matters).  For a persisted registry it keeps,
    in their order and among the moods that pass the first filter (no
    empty name, no placeholder name), the first-listed mood of each
    name and no other. *)
Theorem loadMoodList_first_of_each_name (persisted : list Mood)
    (storage : gmap string string) :
  let loaded := readMoodList (<["m2mMoods" := JSON.stringifyMoods persisted]> storage) in
  let hygienic := List.filter keepMood persisted in
  NoDup (map name (readMoodList storage))
  ∧ NoDup (map name loaded)
  ∧ sublist loaded persisted
  ∧ (∀ m, m ∈ loaded
          ↔ List.find (λ m', String.eqb (name m') (name m)) hygienic = Some m)
  ∧ (∀ m, List.find (λ m', String.eqb (name m') (name m)) hygienic = Some m →
          List.filter (λ m', String.eqb (name m') (name m)) loaded = [m]).
Proof.
  intros loaded hygienic.
  assert (loaded = dropSeen ∅ hygienic) as Hl.
  { subst loaded. unfold readMoodList. rewrite lookup_insert_eq. cbn [truthyOpt].
    rewrite stringifyMoods_truthy. cbn [mbind option_bind].
    by rewrite JSONFacts.parse_stringify_moods. }
  assert (∀ m, m ∈ loaded
               ↔ List.find (λ m', String.eqb (name m') (name m)) hygienic = Some m)
    as Hfirst.
  { intros m. rewrite Hl, dropSeen_first.
    pose proof (not_elem_of_empty (C := gset string) (name m)). tauto. }
  split; [apply readMoodList_ok|].
  split; [apply readMoodList_ok|].
  split; [rewrite Hl; etrans; [apply dropSeen_sublist | apply filter_bool_sublist]|].
  split; [done|].
  intros m Hm. apply filter_name_singleton; [apply readMoodList_ok | by apply Hfirst].
Qed.

(** The claim C1 as the specification words it fails: of two case
    variants of a name, [loadMoodList] keeps both. *)
Lemma loadMoodList_keeps_case_variants :
  let loaded := readMoodList {["m2mMoods" := JSON.stringifyMoods joyTwice]} in
  loaded = joyTwice
  ∧ ¬ NoDup (map (λ m, toLowerCase (name m)) loaded).
Proof.
  split; [reflexivity|].
  intros Hnd. vm_compute in Hnd. apply NoDup_cons in Hnd as [Hin _].
  apply Hin, list_elem_of_here.
Qed.

(** ** Plain objects *)

Module PlainObjectFacts.

Import PlainObject.

Lemma own_put_eq (o : t) (k : string) (v : value) : own (put o k v) k = Some v.
Proof.
  induction o as [|[k' v'] o IH]; cbn.
  - by rewrite String.eqb_refl.
  - destruct (String.eqb_spec k' k) as [->|Hne]; cbn.
    + by rewrite String.eqb_refl.
    + by rewrite (proj2 (String.eqb_neq k' k) Hne).
Qed.

Lemma own_put_ne (o : t) (k k' : string) (v : value) :
  k ≠ k' → own (put o k v) k' = own o k'.
Proof.
  intros Hne. induction o as [|[k0 v0] o IH]; cbn.
  - by rewrite (proj2 (String.eqb_neq k k') Hne).
  - destruct (String.eqb_spec k0 k) as [->|Hne0]; cbn.
    + by rewrite (proj2 (String.eqb_neq k k') Hne).
    + by rewrite IH.
Qed.

Lemma own_set_ne (o : t) (k k' : string) (v : value) :
  k ≠ k' → own (set o k v) k' = own o k'.
Proof.
  intros Hne. unfold set. destruct (String.eqb k "__proto__"); [done|].
  by apply own_put_ne.
Qed.

Lemma own_set_eq (o : t) (k : string) (v : value) :
  k ≠ "__proto__" → own (set o k v) k = Some v.
Proof.
  intros Hk. unfold set. rewrite (proj2 (String.eqb_neq _ _) Hk). apply own_put_eq.
Qed.

Lemma get_own (o : t) (k : string) (v : value) :
  k ≠ "__proto__" → own o k = Some v → get o k = Some v.
Proof.
  intros Hk Ho. unfold get. by rewrite (proj2 (String.eqb_neq _ _) Hk), Ho.
Qed.

End PlainObjectFacts.

(** ** Mood counts *)

Section MoodCounts.

Import PlainObject PlainObjectFacts.

Lemma entriesWithMood_cons (k : string) (e : Entry) (es : list Entry) :
  entriesWithMood k (e :: es)
  = ((if String.eqb (mood e) k then 1 else 0) + entriesWithMood k es)%nat.
Proof.
  unfold entriesWithMood. cbn. by destruct (String.eqb (mood e) k).
Qed.

(** The loop over the entries adds, to the counter of a registry mood,
    the number of entries of that mood. *)
Lemma counting_own (es : list Entry) (counts : PlainObject.t) (k : string) (n : nat) :
  k ≠ "__proto__" → own counts k = Some (Num n) →
  own (foldl (λ counts e,
                match get counts (mood e) with
                | Some v => set counts (mood e) (increment v)
                | None => counts
                end) counts es) k
  = Some (Num (n + entriesWithMood k es)).
Proof.
  intros Hk. revert counts n. induction es as [|e es IH]; intros counts n Hown.
  - cbn. by rewrite Nat.add_0_r.
  - cbn [foldl]. rewrite entriesWithMood_cons.
    destruct (String.eqb_spec (mood e) k) as [->|Hne].
    + rewrite (get_own counts k (Num n) Hk Hown). cbn [increment].
      rewrite (IH _ (S n)) by by apply own_set_eq.
      f_equal. f_equal. lia.
    + rewrite Nat.add_0_l. apply IH.
      destruct (get counts (mood e)); [|done]. by rewrite own_set_ne.
Qed.

(** The loop over the registry gives every registry mood a counter at 0. *)
Lemma zeroing_own (ml : list Mood) (counts : PlainObject.t) (k : string) :
  k ≠ "__proto__" →
  k ∈ map name ml ∨ own counts k = Some (Num 0) →
  own (foldl (λ counts m, set counts (name m) (Num 0)) counts ml) k = Some (Num 0).
Proof.
  intros Hk. revert counts. induction ml as [|m ml IH]; intros counts; cbn [foldl map].
  - intros [?%elem_of_nil|?]; done.
  - intros Hin. apply IH.
    destruct (decide (name m = k)) as [<-|Hne].
    + right. by apply own_set_eq.
    + destruct Hin as [[?|?]%elem_of_cons|?]; [congruence | by left |].
      right. by rewrite own_set_ne.
Qed.

Lemma chartCounts_slot (ml : list Mood) (es : list Entry) (k : string) :
  k ≠ "__proto__" → k ∈ map name ml →
  orZero (get (moodCounts ml es) k) = Num (entriesWithMood k es).
Proof.
  intros Hk Hin. unfold moodCounts.
  rewrite (get_own _ k (Num (0 + entriesWithMood k es)) Hk).
  - cbn. by destruct (entriesWithMood k es).
  - apply counting_own; [done|]. apply zeroing_own; [done | by left].
Qed.

(** An entry adds one to the counts of the moods that have its name. *)
Lemma sum_entriesWithMood (ml : list Mood) (e : Entry) (es : list Entry) :
  NoDup (map name ml) →
  sumCounts (map (λ m, Num (entriesWithMood (name m) (e :: es))) ml)
  = ((if includes (map name ml) (mood e) then 1 else 0)
     + sumCounts (map (λ m, Num (entriesWithMood (name m) es)) ml))%nat.
Proof.
  induction ml as [|m ml IH]; [done|].
  intros [Hm Hnd]%NoDup_cons.
  change (map name (m :: ml)) with (name m :: map name ml).
  change (includes (name m :: map name ml) (mood e))
    with (String.eqb (mood e) (name m) || includes (map name ml) (mood e)).
  change (sumCounts (map (λ m, Num (entriesWithMood (name m) (e :: es))) (m :: ml)))
    with (entriesWithMood (name m) (e :: es)
          + sumCounts (map (λ m, Num (entriesWithMood (name m) (e :: es))) ml))%nat.
  change (sumCounts (map (λ m, Num (entriesWithMood (name m) es)) (m :: ml)))
    with (entriesWithMood (name m) es
          + sumCounts (map (λ m, Num (entriesWithMood (name m) es)) ml))%nat.
  assert (includes (map name ml) (name m) = false) as Hinc by by apply includes_false.
  rewrite (IH Hnd), entriesWithMood_cons.
  destruct (String.eqb_spec (mood e) (name m)) as [Heq|Hne].
  - rewrite Heq, Hinc. cbn. lia.
  - cbn. lia.
Qed.

Lemma sum_entriesInRegistry (ml : list Mood) (es : list Entry) :
  NoDup (map name ml) →
  sumCounts (map (λ m, Num (entriesWithMood (name m) es)) ml) = entriesInRegistry ml es.
Proof.
  intros Hnd. induction es as [|e es IH].
  - unfold entriesInRegistry. cbn. induction ml as [|m ml IHm]; [done|].
    apply NoDup_cons in Hnd as [_ Hnd]. cbn. by apply IHm.
  - rewrite (sum_entriesWithMood ml e es Hnd), IH. unfold entriesInRegistry.
    cbn [List.filter]. by destruct (includes (map name ml) (mood e)).
Qed.

End MoodCounts.

(** The mood-count projection, for a registry that has no mood named
    [__proto__]: the dataset of the chart holds, for each registry mood
    in registry order, the number of entries whose mood is the name of
    that mood; a mood that no entry has gets 0; the counts add up to the
    number of entries whose mood is in the registry; an entry whose mood
    is not in the registry changes no count. *)
Theorem chartCounts_counts (ml : list Mood) (es : list Entry) :
  registryOk ml → "__proto__" ∉ map name ml →
  chartCounts ml es = map (λ m, PlainObject.Num (entriesWithMood (name m) es)) ml
  ∧ length (chartCounts ml es) = length ml
  ∧ (∀ i m, ml !! i = Some m → (∀ e, e ∈ es → mood e ≠ name m) →
       chartCounts ml es !! i = Some (PlainObject.Num 0))
  ∧ sumCounts (chartCounts ml es) = entriesInRegistry ml es
  ∧ (∀ e, mood e ∉ map name ml → chartCounts ml (e :: es) = chartCounts ml es).
Proof.
  intros [Hnd _] Hproto.
  assert (∀ es', chartCounts ml es'
                 = map (λ m, PlainObject.Num (entriesWithMood (name m) es')) ml) as Heq.
  { intros es'. unfold chartCounts. apply map_ext_in. intros m Hm%list_elem_of_In.
    assert (name m ∈ map name ml) as Hin.
    { rewrite map_fmap. by apply list_elem_of_fmap_2. }
    apply chartCounts_slot; [|done]. by intros Hn; rewrite Hn in Hin. }
  split; [apply Heq|]. split; [by rewrite Heq, length_map|]. split; [|split].
  - intros i m Hi Hnone. rewrite Heq, map_fmap, list_lookup_fmap, Hi. cbn.
    do 2 f_equal. unfold entriesWithMood.
    induction es as [|e es IH]; [done|]. cbn.
    rewrite (proj2 (String.eqb_neq _ _) (Hnone e (list_elem_of_here _ _))).
    apply IH. intros e' He'. by apply Hnone, list_elem_of_further.
  - rewrite Heq. by apply sum_entriesInRegistry.
  - intros e He. rewrite !Heq. apply map_ext_in. intros m Hm%list_elem_of_In.
    rewrite entriesWithMood_cons.
    destruct (String.eqb_spec (mood e) (name m)) as [Heq'|_]; [|done].
    destruct He. rewrite Heq', map_fmap. by apply list_elem_of_fmap_2.
Qed.

Lemma chartCounts_counts_witness :
  chartCounts defaultMoods exampleEntries
  = [ PlainObject.Num 1; PlainObject.Num 0; PlainObject.Num 0;
      PlainObject.Num 0; PlainObject.Num 2 ]
  ∧ sumCounts (chartCounts defaultMoods exampleEntries)
    = entriesInRegistry defaultMoods exampleEntries.
Proof.
  assert (registryOk defaultMoods) as Hok.
  { split; by apply (bool_decide_unpack _). }
  assert ("__proto__" ∉ map name defaultMoods) as Hproto.
  { apply includes_false. reflexivity. }
  destruct (chartCounts_counts defaultMoods exampleEntries Hok Hproto)
    as (Heq & _ & _ & Hsum & _).
  split; [by rewrite Heq | exact Hsum].
Defined.

(** C3 at a registry with a mood named [__proto__].  The assignment
    [counts[m.name] = 0] of [updateChart] is dropped for that name and
    the later read finds the inherited object, so the dataset holds an
    object where the count of that mood belongs: with no entries (the
    count should be 0) and with one entry of that mood (it should be
    1). *)
Theorem updateChart_proto_mood :
  moodList protoState !! 5%nat = Some (mkMood "__proto__" "fa-heart" "#ffb74d")
  ∧ entries protoState = []
  ∧ data (moodChart protoState) !! 5%nat = Some PlainObject.Inherited
  ∧ entries protoEntryState = [mkEntry "__proto__" "odd day" 1700000000000]
  ∧ data (moodChart protoEntryState) !! 5%nat = Some PlainObject.Inherited
  ∧ reachable utcDay protoEntryState.
Proof.
  repeat split; try reflexivity.
  exists ∅, [SaveMood "__proto__" "#ffb74d"; PickMood 5; TypeText "odd day";
            Submit 1700000000000].
  unfold protoEntryState, protoState, run. by rewrite <- foldl_app.
Qed.

(** ** Word frequencies *)

Section WordCounts.

Import PlainObject PlainObjectFacts.

Lemma foldl_flat_map {A B C} (f : A → C → A) (g : B → list C) (a : A) (l : list B) :
  foldl f a (flat_map g l) = foldl (λ a x, foldl f a (g x)) a l.
Proof.
  revert a. induction l as [|x l IH]; intros a; [done|].
  cbn. by rewrite foldl_app, IH.
Qed.

Lemma wordFrequencies_allWords (stopwords : list string) (es : list Entry) :
  wordFrequencies stopwords es = foldl (countWord stopwords) empty (allWords es).
Proof. unfold wordFrequencies, allWords. by rewrite foldl_flat_map. Qed.

(** A stopword changes nothing, so only the other words count. *)
Lemma countWord_kept (stopwords : list string) (ws : list string) (freq : PlainObject.t) :
  foldl (countWord stopwords) freq ws
  = foldl (countWord []) freq (List.filter (λ w, negb (includes stopwords w)) ws).
Proof.
  revert freq. induction ws as [|w ws IH]; intros freq; [done|].
  cbn [foldl List.filter]. unfold countWord at 2.
  destruct (includes stopwords w); cbn [negb]; [apply IH|].
  cbn [foldl]. by rewrite IH.
Qed.

Lemma uniqueFrom_snoc (seen : gset string) (ws : list string) (w : string) :
  uniqueFrom seen (ws ++ [w])
  = uniqueFrom seen ws ++ (if decide (w ∈ seen ∨ w ∈ ws) then [] else [w]).
Proof.
  revert seen. induction ws as [|x ws IH]; intros seen; cbn.
  - destruct (decide (w ∈ seen)) as [Hin|Hout].
    + by rewrite decide_True by by left.
    + rewrite decide_False; [done|]. by intros [?|?%elem_of_nil].
  - destruct (decide (x ∈ seen)) as [Hin|Hout].
    + rewrite IH. f_equal. apply decide_ext. rewrite elem_of_cons.
      split; [tauto|]. intros [?|[->|?]]; tauto.
    + cbn. rewrite IH. do 2 f_equal. apply decide_ext.
      rewrite elem_of_union, elem_of_singleton, elem_of_cons. tauto.
Qed.

Lemma unique_snoc (ws : list string) (w : string) :
  unique (ws ++ [w]) = if decide (w ∈ ws) then unique ws else unique ws ++ [w].
Proof.
  unfold unique. rewrite uniqueFrom_snoc.
  destruct (decide (w ∈ ws)) as [Hin|Hout].
  - rewrite decide_True by by right. apply app_nil_r.
  - rewrite decide_False; [done|]. intros [?%not_elem_of_empty|?]; done.
Qed.

Lemma occurrences_snoc (x w : string) (ws : list string) :
  occurrences x (ws ++ [w])
  = (occurrences x ws + if String.eqb x w then 1 else 0)%nat.
Proof.
  unfold occurrences. rewrite List.filter_app, length_app. cbn.
  by destruct (String.eqb x w).
Qed.

Lemma occurrences_zero (w : string) (ws : list string) :
  w ∉ ws → occurrences w ws = 0%nat.
Proof.
  intros Hw. unfold occurrences. induction ws as [|x ws IH]; [done|].
  apply not_elem_of_cons in Hw as [Hne Hw]. cbn.
  rewrite (proj2 (String.eqb_neq w x) Hne). by apply IH.
Qed.

Lemma own_table (f : string → value) (l : list string) (w : string) :
  own (map (λ x, (x, f x)) l) w = if decide (w ∈ l) then Some (f w) else None.
Proof.
  induction l as [|x l IH]; cbn.
  - by rewrite decide_False by apply not_elem_of_nil.
  - destruct (String.eqb_spec x w) as [->|Hne].
    + by rewrite decide_True by apply list_elem_of_here.
    + rewrite IH. apply decide_ext. rewrite elem_of_cons.
      split; [by right|]. intros [?|?]; [congruence | done].
Qed.

Lemma put_table_out (f : string → value) (l : list string) (w : string) (v : value) :
  w ∉ l → put (map (λ x, (x, f x)) l) w v = map (λ x, (x, f x)) l ++ [(w, v)].
Proof.
  induction l as [|x l IH]; cbn; [done|].
  intros [Hne Hw]%not_elem_of_cons.
  rewrite (proj2 (String.eqb_neq x w)) by congruence. by rewrite IH.
Qed.

Lemma put_table_in (f g : string → value) (l : list string) (w : string) :
  NoDup l → w ∈ l → (∀ x, x ≠ w → g x = f x) →
  put (map (λ x, (x, f x)) l) w (g w) = map (λ x, (x, g x)) l.
Proof.
  intros Hnd Hw Hg. induction Hnd as [|x l Hx Hnd IH]; [by apply elem_of_nil in Hw|].
  cbn. destruct (String.eqb_spec x w) as [->|Hne].
  - f_equal. apply map_ext_in. intros y Hy%list_elem_of_In.
    rewrite Hg; [done|]. by intros ->.
  - rewrite (Hg x Hne). f_equal. apply IH.
    apply elem_of_cons in Hw as [?|?]; [congruence | done].
Qed.

(** Counting one more ordinary word in the table of the words so far
    gives the table of the words with that word. *)
Lemma countWord_table (ws : list string) (w : string) :
  ordinary w → countWord [] (countTable ws) w = countTable (ws ++ [w]).
Proof.
  intros Hord. unfold ordinary in Hord.
  assert (w ≠ "__proto__") as Hproto.
  { intros ->. discriminate Hord. }
  unfold countWord. cbn [includes existsb]. unfold get, set.
  rewrite (proj2 (String.eqb_neq _ _) Hproto), Hord.
  unfold countTable. rewrite own_table, unique_snoc.
  destruct (decide (w ∈ unique ws)) as [Hin|Hout].
  - pose proof (proj1 (unique_elem _ _) Hin) as Hin'. rewrite decide_True by done.
    assert (orZero (Some (Num (occurrences w ws))) = Num (occurrences w ws)) as ->.
    { cbn. by destruct (occurrences w ws). }
    cbn [plusOne].
    assert (S (occurrences w ws) = occurrences w (ws ++ [w])) as ->.
    { rewrite occurrences_snoc, String.eqb_refl. lia. }
    rewrite (put_table_in (λ x, Num (occurrences x ws))
                          (λ x, Num (occurrences x (ws ++ [w])))).
    + done.
    + apply uniqueFrom_NoDup.
    + done.
    + intros x Hx. rewrite occurrences_snoc, (proj2 (String.eqb_neq x w) Hx).
      by rewrite Nat.add_0_r.
  - assert (w ∉ ws) as Hout' by by rewrite <- unique_elem.
    rewrite decide_False by done. cbn [orZero plusOne].
    rewrite put_table_out by done. rewrite map_app. cbn [map]. f_equal.
    + apply map_ext_in. intros x Hx%list_elem_of_In.
      apply (proj1 (unique_elem _ _)) in Hx.
      rewrite occurrences_snoc, (proj2 (String.eqb_neq x w)); [by rewrite Nat.add_0_r|].
      by intros ->.
    + by rewrite occurrences_snoc, String.eqb_refl, occurrences_zero.
Qed.

Lemma countWords_table (ws : list string) :
  Forall ordinary ws → foldl (countWord []) empty ws = countTable ws.
Proof.
  induction ws as [|w ws IH] using rev_ind; intros Hord; [done|].
  apply Forall_app in Hord as [Hws Hw]. apply (proj1 (Forall_singleton _ _)) in Hw.
  rewrite foldl_app. cbn [foldl]. rewrite (IH Hws). by apply countWord_table.
Qed.

End WordCounts.

Section WordViews.

Import PlainObject PlainObjectFacts.

(** Every match of the pattern is made of letters a-z. *)
Lemma matchWordsFrom_lower (st : scanState) (s : list ascii) (w : string) :
  match st with
  | Letters acc => forallb Chars.isLower acc = true
  | _ => True
  end →
  w ∈ matchWordsFrom st s → forallb Chars.isLower (chars w) = true.
Proof.
  assert (∀ st', match st' with
                 | Letters acc => forallb Chars.isLower acc = true
                 | _ => True
                 end → w ∈ emit st' → forallb Chars.isLower (chars w) = true) as Hemit.
  { intros [|acc|] Hacc; unfold emit; try by intros ?%elem_of_nil.
    destruct (3 <=? length acc)%nat; [|by intros ?%elem_of_nil].
    intros ->%list_elem_of_singleton. rewrite chars_str.
    apply forallb_forall. intros c Hc%in_rev.
    by apply (proj1 (forallb_forall _ _) Hacc). }
  revert st. induction s as [|c s IH]; intros st Hst; cbn; [by apply Hemit|].
  destruct (Chars.isWordChar c).
  - destruct st as [|acc|]; apply IH; try done.
    + destruct (Chars.isLower c) eqn:Hc; [by cbn; rewrite Hc | done].
    + destruct (Chars.isLower c) eqn:Hc; [by cbn; rewrite Hc, Hst | done].
  - intros [?|?]%elem_of_app; [by apply (Hemit st) | by apply (IH Outside)].
Qed.

(** Of the names that a plain object inherits, [constructor] is the
    only one the pattern can match. *)
Lemma allWords_ordinary (es : list Entry) (w : string) :
  w ∈ allWords es → w ≠ "constructor" → ordinary w.
Proof.
  intros Hw Hc. unfold allWords in Hw.
  apply list_elem_of_In, in_flat_map in Hw as (e & _ & Hw%list_elem_of_In).
  apply (matchWordsFrom_lower Outside _ w I) in Hw.
  unfold ordinary. apply includes_false. intros Hin.
  unfold inheritedNames in Hin.
  repeat (apply elem_of_cons in Hin as [->|Hin]; [done || discriminate Hw|]).
  by apply elem_of_nil in Hin.
Qed.

(** Without the word [constructor] in the texts, the object [freq] is
    the word→count map of the words that are no stopwords. *)
Lemma wordFrequencies_table (stopwords : list string) (es : list Entry) :
  "constructor" ∉ allWords es →
  wordFrequencies stopwords es = countTable (keptWords stopwords es).
Proof.
  intros Hc. rewrite wordFrequencies_allWords, countWord_kept.
  apply countWords_table, list.Forall_forall.
  intros w [Hw _]%elem_of_filter_bool. apply (allWords_ordinary es w Hw).
  by intros ->.
Qed.

Lemma filter_bool_filter {A} (f g : A → bool) (l : list A) :
  List.filter f (List.filter g l) = List.filter (λ x, g x && f x) l.
Proof.
  induction l as [|x l IH]; [done|]. cbn.
  destruct (g x); cbn; [destruct (f x)|]; by rewrite IH.
Qed.

Lemma filter_bool_ext {A} (f g : A → bool) (l : list A) :
  (∀ x, f x = g x) → List.filter f l = List.filter g l.
Proof.
  intros H. induction l as [|x l IH]; [done|]. cbn. by rewrite H, IH.
Qed.

(** The words the cloud counts are the words the trending view counts,
    less the five extra stopwords. *)
Lemma keptWords_cloud (es : list Entry) :
  keptWords cloudStopwords es
  = List.filter (λ w, negb (includes extraStopwords w)) (keptWords trendingStopwords es).
Proof.
  unfold keptWords. rewrite filter_bool_filter. apply filter_bool_ext.
  intros w. unfold includes.
  change cloudStopwords with (trendingStopwords ++ extraStopwords).
  by rewrite existsb_app, negb_orb.
Qed.

Lemma uniqueFrom_filter (f : string → bool) (seen : gset string) (l : list string) :
  uniqueFrom seen (List.filter f l) = List.filter f (uniqueFrom seen l).
Proof.
  revert seen. induction l as [|x l IH]; intros seen; [done|]. cbn.
  destruct (f x) eqn:Hf; cbn.
  - destruct (decide (x ∈ seen)); [apply IH|]. cbn. by rewrite Hf, IH.
  - destruct (decide (x ∈ seen)); [apply IH|]. cbn. rewrite Hf, <- IH.
    rewrite uniqueFrom_without. symmetry. apply filter_bool_all.
    intros y Hy. apply (proj1 (uniqueFrom_elem _ _ _)) in Hy as [Hy _].
    apply (proj1 (elem_of_filter_bool _ _ _)) in Hy as [_ Hy].
    apply negb_true_iff, String.eqb_neq. intros ->. congruence.
Qed.

Lemma occurrences_filter (f : string → bool) (w : string) (l : list string) :
  f w = true → occurrences w (List.filter f l) = occurrences w l.
Proof.
  intros Hf. unfold occurrences. rewrite filter_bool_filter. f_equal.
  apply filter_bool_ext. intros x.
  destruct (String.eqb_spec w x) as [<-|_]; [by rewrite Hf | apply andb_false_r].
Qed.

Lemma countTable_filter (f : string → bool) (ws : list string) :
  countTable (List.filter f ws) = List.filter (λ p, f p.1) (countTable ws).
Proof.
  unfold countTable, unique. rewrite uniqueFrom_filter.
  induction (uniqueFrom ∅ ws) as [|w l IH]; [done|]. cbn.
  destruct (f w) eqn:Hf; cbn; [|done]. by rewrite occurrences_filter, IH.
Qed.

Lemma byKey_countTable (ws : list string) :
  byKey (λ a b : string * value, difference b.2 a.2) countKey (countTable ws).
Proof.
  intros x y Hx Hy. unfold countTable in *. rewrite map_fmap in *.
  apply list_elem_of_fmap in Hx as (wx & -> & _).
  apply list_elem_of_fmap in Hy as (wy & -> & _). done.
Qed.

End WordViews.

(** What the two word views compute on texts without the word
    [constructor] (whose count is no number, see
    [word_views_constructor]).  Each view has its own word→count map:
    the texts are lower-cased, the words are the matches of the
    pattern, the stopwords of the view are left out, and the map holds
    each remaining word once, in the order of first occurrence, with
    its number of occurrences.  The map of the cloud is the map of the
    trending view without the words had, have, has, you and we.  Each
    view ranks its map by falling count, words of one count staying in
    the order of the map; the trending view takes the first 5 and the
    cloud the first 20.  When none of the five words occurs, both maps
    are one and the trending view is the top 5 of the cloud. *)
Theorem word_views (es : list Entry) :
  "constructor" ∉ allWords es →
  let trendingMap := wordFrequencies trendingStopwords es in
  let cloudMap := wordFrequencies cloudStopwords es in
  trendingMap = countTable (keptWords trendingStopwords es)
  ∧ cloudMap = countTable (keptWords cloudStopwords es)
  ∧ cloudMap = List.filter (λ p, negb (includes extraStopwords p.1)) trendingMap
  ∧ updateTrending es = take 5 (ranked trendingMap)
  ∧ updateWordCloud es = take 20 (ranked cloudMap)
  ∧ descending countKey (ranked trendingMap) ∧ ranked trendingMap ≡ₚ trendingMap
  ∧ descending countKey (ranked cloudMap) ∧ ranked cloudMap ≡ₚ cloudMap
  ∧ (∀ n, List.filter (λ p, countKey p =? n) (ranked trendingMap)
          = List.filter (λ p, countKey p =? n) trendingMap)
  ∧ (∀ n, List.filter (λ p, countKey p =? n) (ranked cloudMap)
          = List.filter (λ p, countKey p =? n) cloudMap)
  ∧ ((∀ w, w ∈ extraStopwords → w ∉ allWords es) →
     cloudMap = trendingMap ∧ updateTrending es = take 5 (updateWordCloud es)).
Proof.
  intros Hc trendingMap cloudMap.
  assert (trendingMap = countTable (keptWords trendingStopwords es)) as Ht
    by by apply wordFrequencies_table.
  assert (cloudMap = countTable (keptWords cloudStopwords es)) as Hcl
    by by apply wordFrequencies_table.
  assert (cloudMap = List.filter (λ p, negb (includes extraStopwords p.1)) trendingMap)
    as Hrel.
  { by rewrite Hcl, Ht, keptWords_cloud, countTable_filter. }
  split; [done|]. split; [done|]. split; [done|].
  split; [done|]. split; [done|].
  split; [rewrite Ht; apply sortBy_descending, byKey_countTable|].
  split; [apply sortBy_Permutation|].
  split; [rewrite Hcl; apply sortBy_descending, byKey_countTable|].
  split; [apply sortBy_Permutation|].
  split; [intros n; rewrite Ht; apply sortBy_stable, byKey_countTable|].
  split; [intros n; rewrite Hcl; apply sortBy_stable, byKey_countTable|].
  intros Hnone.
  assert (cloudMap = trendingMap) as Heq.
  { rewrite Hrel. apply filter_bool_all. intros [w v] Hw. cbn [fst].
    apply negb_true_iff, (proj2 (includes_false _ _)). intros Hex.
    apply (Hnone w Hex). rewrite Ht in Hw. unfold countTable in Hw.
    rewrite map_fmap in Hw.
    apply (proj1 (list_elem_of_fmap _ _ _)) in Hw as (w' & [= -> _] & Hw).
    apply (proj1 (unique_elem _ _)) in Hw.
    by apply (proj1 (elem_of_filter_bool _ _ _)) in Hw as [Hw _]. }
  split; [done|]. unfold updateTrending, updateWordCloud.
  fold trendingMap. fold cloudMap. rewrite Heq, take_take. done.
Qed.

Lemma word_views_witness :
  updateTrending exampleEntries
  = take 5 (ranked (countTable (keptWords trendingStopwords exampleEntries)))
  ∧ updateTrending exampleEntries = take 5 (updateWordCloud exampleEntries).
Proof.
  assert ("constructor" ∉ allWords exampleEntries) as Hc.
  { apply includes_false. reflexivity. }
  destruct (word_views exampleEntries Hc)
    as (Ht & _ & _ & Htop & _ & _ & _ & _ & _ & _ & _ & Hsame).
  split.
  - by rewrite Htop, Ht.
  - apply Hsame. intros w Hw. apply includes_false.
    unfold extraStopwords in Hw.
    repeat (apply elem_of_cons in Hw as [->|Hw]; [reflexivity|]).
    by apply elem_of_nil in Hw.
Defined.

(** C2.  The two word views are not taken from one word→count map
    with one stopword set: for the entry that says have have fun, the
    trending view shows have with the count 2 and fun with the count 1,
    the cloud, whose stopwords include have, shows fun alone, and no
    map has these as its first 5 and its first 20 by rank. *)
Lemma word_views_differ :
  updateTrending haveFun = [("have", PlainObject.Num 2); ("fun", PlainObject.Num 1)]
  ∧ updateWordCloud haveFun = [("fun", PlainObject.Num 1)]
  ∧ ¬ ∃ freq : PlainObject.t,
        updateTrending haveFun = take 5 (ranked freq)
        ∧ updateWordCloud haveFun = take 20 (ranked freq).
Proof.
  split; [reflexivity|]. split; [reflexivity|].
  intros (freq & H5 & H20).
  apply (f_equal length) in H5, H20.
  rewrite length_take in H5, H20.
  change (length (updateTrending haveFun)) with 2%nat in H5.
  change (length (updateWordCloud haveFun)) with 1%nat in H20.
  lia.
Qed.

(** * Properties of the further functions *)

(** ** [escapeHtml] *)

(** The four entities, without their ampersand. *)
Lemma escapeChar_cases (c : ascii) :
  (c = "&"%char ∧ escapeChar c = chars "&amp;")
  ∨ (c = "<"%char ∧ escapeChar c = chars "&lt;")
  ∨ (c = ">"%char ∧ escapeChar c = chars "&gt;")
  ∨ (c = Chars.dquote ∧ escapeChar c = chars "&quot;")
  ∨ (c ≠ "&"%char ∧ c ≠ "<"%char ∧ c ≠ ">"%char ∧ c ≠ Chars.dquote
     ∧ escapeChar c = [c]).
Proof.
  unfold escapeChar.
  destruct (Ascii.eqb_spec c "&"%char) as [->|?]; [by left|].
  destruct (Ascii.eqb_spec c "<"%char) as [->|?]; [by right; left|].
  destruct (Ascii.eqb_spec c ">"%char) as [->|?]; [by right; right; left|].
  destruct (Ascii.eqb_spec c Chars.dquote) as [->|?]; [by right; right; right; left|].
  by right; right; right; right.
Qed.

Lemma escape_inj (l l' : list ascii) :
  flat_map escapeChar l = flat_map escapeChar l' → l = l'.
Proof.
  revert l'. induction l as [|c l IH]; intros [|c' l']; cbn [flat_map].
  - done.
  - by destruct (escapeChar_cases c') as [[_ ->]|[[_ ->]|[[_ ->]|[[_ ->]|(_&_&_&_&->)]]]].
  - by destruct (escapeChar_cases c) as [[_ ->]|[[_ ->]|[[_ ->]|[[_ ->]|(_&_&_&_&->)]]]].
  - destruct (escapeChar_cases c) as [[-> ->]|[[-> ->]|[[-> ->]|[[-> ->]|(?&?&?&?&->)]]]];
      destruct (escapeChar_cases c')
        as [[-> ->]|[[-> ->]|[[-> ->]|[[-> ->]|(?&?&?&?&->)]]]];
      cbn; intros Heq; simplify_eq; f_equal; by apply IH.
Qed.

Lemma escape_no_markup (l : list ascii) (c : ascii) :
  c ∈ flat_map escapeChar l →
  c ≠ "<"%char ∧ c ≠ ">"%char ∧ c ≠ Chars.dquote.
Proof.
  induction l as [|x l IH]; cbn [flat_map]; [by intros ?%elem_of_nil|].
  intros [Hc|Hc]%elem_of_app; [|by apply IH].
  destruct (escapeChar_cases x) as [[_ E]|[[_ E]|[[_ E]|[[_ E]|(?&?&?&?&E)]]]];
    rewrite E in Hc; cbn in Hc;
    repeat (apply elem_of_cons in Hc as [->|Hc]; [done|]);
    by apply elem_of_nil in Hc.
Qed.

Lemma escape_ampersand (l pre post : list ascii) :
  flat_map escapeChar l = pre ++ "&"%char :: post →
  ∃ e, e ∈ [chars "amp;"; chars "lt;"; chars "gt;"; chars "quot;"] ∧ e `prefix_of` post.
Proof.
  revert pre. induction l as [|x l IH]; intros pre; cbn [flat_map].
  - by destruct pre.
  - destruct (escapeChar_cases x) as [[_ E]|[[_ E]|[[_ E]|[[_ E]|(?&?&?&?&E)]]]];
      rewrite E; cbn; intros Heq.
    + destruct pre as [|? pre]; simplify_eq/=.
      { exists (chars "amp;"). split; [set_solver|]. by eexists. }
      do 4 (destruct pre as [|? pre]; simplify_eq/=). by eapply IH.
    + destruct pre as [|? pre]; simplify_eq/=.
      { exists (chars "lt;"). split; [set_solver|]. by eexists. }
      do 3 (destruct pre as [|? pre]; simplify_eq/=). by eapply IH.
    + destruct pre as [|? pre]; simplify_eq/=.
      { exists (chars "gt;"). split; [set_solver|]. by eexists. }
      do 3 (destruct pre as [|? pre]; simplify_eq/=). by eapply IH.
    + destruct pre as [|? pre]; simplify_eq/=.
      { exists (chars "quot;"). split; [set_solver|]. by eexists. }
      do 5 (destruct pre as [|? pre]; simplify_eq/=). by eapply IH.
    + destruct pre as [|? pre]; simplify_eq/=. by eapply IH.
Qed.

Lemma escape_length (l : list ascii) :
  (length l ≤ length (flat_map escapeChar l))%nat.
Proof.
  induction l as [|x l IH]; cbn [flat_map]; [done|]. rewrite length_app. cbn.
  destruct (escapeChar_cases x) as [[_ E]|[[_ E]|[[_ E]|[[_ E]|(?&?&?&?&E)]]]];
    rewrite E; cbn; lia.
Qed.

Lemma string_length_chars (s : string) : String.length s = length (chars s).
Proof. induction s as [|c s IH]; cbn; [done|]. by rewrite IH. Qed.

(** What [escapeHtml] gives is safe to put between tags and loses
    nothing: it holds no angle bracket and no double quote; each of its
    ampersands starts one of the four entities; two texts with one
    escaped form are one text; a text without the four characters is
    left as it is; the escaped text is never shorter. *)
Theorem escapeHtml_safe (s : string) :
  (∀ c, c ∈ chars (escapeHtml s) →
        c ≠ "<"%char ∧ c ≠ ">"%char ∧ c ≠ Chars.dquote)
  ∧ (∀ pre post, chars (escapeHtml s) = pre ++ "&"%char :: post →
       ∃ e, e ∈ [chars "amp;"; chars "lt;"; chars "gt;"; chars "quot;"]
            ∧ e `prefix_of` post)
  ∧ (∀ t, escapeHtml s = escapeHtml t ↔ s = t)
  ∧ ((∀ c, c ∈ chars s →
           c ≠ "&"%char ∧ c ≠ "<"%char ∧ c ≠ ">"%char ∧ c ≠ Chars.dquote) →
     escapeHtml s = s)
  ∧ (String.length s ≤ String.length (escapeHtml s))%nat.
Proof.
  unfold escapeHtml. rewrite chars_str.
  split; [intros c; apply escape_no_markup|].
  split; [intros pre post; apply escape_ampersand|].
  split; [|split].
  - intros t. split; [|by intros ->]. intros H.
    apply (f_equal chars) in H. rewrite !chars_str in H.
    apply escape_inj in H. by rewrite <- (str_chars s), H, str_chars.
  - intros Hplain. rewrite <- (str_chars s) at 2. f_equal.
    induction (chars s) as [|c l IH]; [done|]. cbn [flat_map].
    destruct (Hplain c (list_elem_of_here _ _)) as (?&?&?&?).
    destruct (escapeChar_cases c) as [[? _]|[[? _]|[[? _]|[[? _]|(_&_&_&_&->)]]]];
      try done.
    cbn. f_equal. apply IH. intros c' Hc'. by apply Hplain, list_elem_of_further.
  - rewrite !string_length_chars, chars_str. apply escape_length.
Qed.

(** ** [getRecentMoodsForAffirmation] *)

Lemma sliceFrom_drop {A} (start : Z) (l : list A) :
  sliceFrom start l
  = drop (if start <? 0 then (length l - Z.to_nat (- start))%nat else Z.to_nat start) l.
Proof.
  unfold sliceFrom. destruct (Z.ltb_spec start 0) as [Hneg|Hpos].
  - f_equal. lia.
  - destruct (Z.le_gt_cases start (Z.of_nat (length l))) as [Hle|Hgt].
    + f_equal. lia.
    + rewrite !drop_ge by lia. done.
Qed.

(** For a positive limit, the moods of the last [limit] entries (of all
    entries when there are fewer), oldest first.  For the limit 0 the
    function does not return nothing but the moods of all entries, as
    [slice(-0)] is [slice(0)]; for a negative limit it drops that many
    entries from the front. *)
Theorem recent_moods (limit : Z) (es : list Entry) :
  let recent := getRecentMoodsForAffirmation limit es in
  (0 < limit →
   recent = map mood (drop (length es - Z.to_nat limit) es)
   ∧ length recent = Nat.min (Z.to_nat limit) (length es)
   ∧ recent `suffix_of` map mood es)
  ∧ (limit = 0 → recent = map mood es)
  ∧ (limit < 0 → recent = map mood (drop (Z.to_nat (- limit)) es)).
Proof.
  intros recent. subst recent. unfold getRecentMoodsForAffirmation.
  destruct es as [|e es].
  { cbn [length Nat.eqb]. rewrite !drop_nil. split; [|done].
    intros _. split; [done|]. split; [by rewrite Nat.min_0_r | done]. }
  cbn [length Nat.eqb]. rewrite sliceFrom_drop. split; [|split].
  - intros Hpos. rewrite (proj2 (Z.ltb_lt _ _)) by lia.
    rewrite Z.opp_involutive. split; [done|]. split.
    + rewrite length_map, length_drop. cbn [length]. lia.
    + rewrite map_fmap, fmap_drop.
      exists (take (length (e :: es) - Z.to_nat limit) (mood <$> (e :: es))).
      by rewrite take_drop.
  - intros ->. done.
  - intros Hneg. rewrite (proj2 (Z.ltb_ge _ _)) by lia. done.
Qed.

(** ** Deleting an entry *)

Lemma delete_last_app {A} (l : list A) (x : A) : delete (length l) (l ++ [x]) = l.
Proof. induction l as [|y l IH]; cbn; [done | by f_equal]. Qed.

Lemma delete_app_lt {A} (l k : list A) (i : nat) :
  (i < length l)%nat → delete i (l ++ k) = delete i l ++ k.
Proof.
  revert i. induction l as [|x l IH]; intros [|i] Hi; cbn in *; try lia; [done|].
  f_equal. apply IH. lia.
Qed.

Section DeleteEntry.

Variable toDateString : Z → string.

Lemma deleteEntry_found (ts : Z) (st : State) (i : nat) (e : Entry) :
  entries st !! i = Some e → timestamp e = ts →
  (∀ j e', (j < i)%nat → entries st !! j = Some e' → timestamp e' ≠ ts) →
  deleteEntry toDateString ts st
  = updateChart (renderEntries toDateString
      (saveEntries (setEntries (delete i (entries st)) st))).
Proof.
  intros Hi Hts Hfirst. unfold deleteEntry.
  rewrite (proj2 (list_find_Some (λ e, timestamp e = ts) (entries st) i e)); [done|].
  split; [done|]. split; [done|]. intros j e' Hj Hlt. by eapply Hfirst.
Qed.

(** The Delete button of a card removes the first entry, in storage
    order, that has the timestamp of the card, and only that one: the
    other entries keep their order, the collection gets one shorter, the
    stored snapshot is the new collection and the timeline is drawn
    again.  When no entry has the timestamp, nothing changes at all. *)
Theorem deleteEntry_first (ts : Z) (st : State) :
  let after := deleteEntry toDateString ts st in
  ((∀ e, e ∈ entries st → timestamp e ≠ ts) → after = st)
  ∧ (∀ i e, entries st !! i = Some e → timestamp e = ts →
       (∀ j e', (j < i)%nat → entries st !! j = Some e' → timestamp e' ≠ ts) →
       entries after = delete i (entries st)
       ∧ S (length (entries after)) = length (entries st)
       ∧ readEntries (localStorage after) = entries after
       ∧ timeline after
         = cards toDateString (entries after) (filterMood st) (filterDate st)
       ∧ moodList after = moodList st
       ∧ filterMood after = filterMood st
       ∧ filterDate after = filterDate st).
Proof.
  intros after. subst after. split.
  - intros Hnone. unfold deleteEntry.
    rewrite (proj2 (list_find_None (λ e, timestamp e = ts) (entries st))); [done|].
    apply list.Forall_forall. intros e He. by apply Hnone.
  - intros i e Hi Hts Hfirst.
    rewrite (deleteEntry_found ts st i e Hi Hts Hfirst).
    state_fields. unfold renderEntries. state_fields.
    split; [done|]. split.
    + rewrite length_delete by by eexists.
      apply lookup_lt_Some in Hi. lia.
    + split; [apply readEntries_saved | done].
Qed.

(** Adding an entry and deleting it again by its timestamp gives the
    collection back, provided no older entry has the same timestamp.
    If one has, it is that older entry which is deleted and the new
    one stays. *)
Theorem submit_then_delete (now : Z) (m : string) (st : State) :
  selectedMood (entryForm st) = Some m → m ≠ "" →
  trim (entryText (entryForm st)) ≠ "" →
  let added := submit toDateString now st in
  let new := mkEntry m (trim (entryText (entryForm st))) now in
  ((∀ e, e ∈ entries st → timestamp e ≠ now) →
   entries (deleteEntry toDateString now added) = entries st)
  ∧ (∀ i e, entries st !! i = Some e → timestamp e = now →
       (∀ j e', (j < i)%nat → entries st !! j = Some e' → timestamp e' ≠ now) →
       entries (deleteEntry toDateString now added) = delete i (entries st) ++ [new]).
Proof.
  intros Hm Hne Ht added new.
  assert (entries added = entries st ++ [new]) as Hadded.
  { subst added new. unfold submit. rewrite Hm. cbn [truthyOpt].
    rewrite (proj2 (truthy_true m) Hne), (proj2 (truthy_true _) Ht). done. }
  split.
  - intros Hnone.
    rewrite (deleteEntry_found now added (length (entries st)) new).
    + state_fields. unfold renderEntries. state_fields. rewrite Hadded.
      apply delete_last_app.
    + by rewrite Hadded, lookup_app_r, Nat.sub_diag.
    + done.
    + intros j e' Hj. rewrite Hadded, lookup_app_l by done.
      intros He'. by apply Hnone, (list_elem_of_lookup_2 _ j).
  - intros i e Hi Hts Hfirst.
    rewrite (deleteEntry_found now added i e).
    + state_fields. unfold renderEntries. state_fields. rewrite Hadded.
      apply delete_app_lt. by apply lookup_lt_Some in Hi.
    + rewrite Hadded. by apply lookup_app_l_Some.
    + done.
    + intros j e' Hj. rewrite Hadded, lookup_app_l.
      * by apply Hfirst.
      * apply lookup_lt_Some in Hi. lia.
Qed.

End DeleteEntry.

Lemma submit_then_delete_witness :
  entries (deleteEntry utcDay 1700000000000 (submit utcDay 1700000000000 calmDraft))
  = entries calmDraft.
Proof.
  destruct (submit_then_delete utcDay 1700000000000 "Calm" calmDraft) as [Hback _];
    [reflexivity | discriminate | discriminate |].
  apply Hback. intros e He. by apply elem_of_nil in He.
Defined.


(** ** The cache of mixture feelings *)

Section MixtureFeeling.

Variable toDateString : Z → string.

Lemma mixtureFeelingBefore_hit (mixFeelings : gmap string string)
    (es : list Entry) (dateString feeling : string) :
  mixtureFeelingBefore toDateString mixFeelings es dateString = Settled (Some feeling)
  ↔ dateString ≠ "" ∧ feeling ≠ "" ∧ mixFeelings !! dateString = Some feeling.
Proof.
  unfold mixtureFeelingBefore. split.
  - destruct (truthy dateString) eqn:Hd; cbn [negb]; [|done].
    apply truthy_true in Hd.
    destruct (mixFeelings !! dateString) as [cached|] eqn:Hc; cbn [truthyOpt].
    + destruct (truthy cached) eqn:Ht.
      * intros [= ->]. by apply truthy_true in Ht.
      * by destruct (length _ <? 4)%nat.
    + by destruct (length _ <? 4)%nat.
  - intros (Hd & Hf & ->). cbn [truthyOpt].
    by rewrite (proj2 (truthy_true _) Hd), (proj2 (truthy_true _) Hf).
Qed.

Lemma mixtureFeelingBefore_miss (mixFeelings : gmap string string)
    (es : list Entry) (dateString : string) (moods : list string) :
  mixtureFeelingBefore toDateString mixFeelings es dateString = Pending moods →
  moods = map mood (dayEntries toDateString es dateString)
  ∧ (4 ≤ length moods)%nat
  ∧ dateString ≠ ""
  ∧ (mixFeelings !! dateString = None ∨ mixFeelings !! dateString = Some "").
Proof.
  unfold mixtureFeelingBefore.
  destruct (truthy dateString) eqn:Hd; cbn [negb]; [|done].
  apply truthy_true in Hd.
  assert (truthyOpt (mixFeelings !! dateString) = false →
          mixFeelings !! dateString = None ∨ mixFeelings !! dateString = Some "") as Hmiss.
  { destruct (mixFeelings !! dateString) as [cached|]; cbn [truthyOpt]; [|by left].
    intros ->%truthy_false. by right. }
  destruct (truthyOpt (mixFeelings !! dateString)); [done|].
  destruct (Nat.ltb_spec (length (dayEntries toDateString es dateString)) 4); [done|].
  intros [= <-]. rewrite length_map. by split_and!; [| | |apply Hmiss].
Qed.

Lemma mixtureFeelingAfter_cases (later : gmap string string)
    (dateString : string) (answer : option string) :
  (∃ feeling, answer = Some feeling ∧ feeling ≠ ""
     ∧ mixtureFeelingAfter later dateString answer
       = (Some feeling, <[dateString := feeling]> later))
  ∨ ((answer = None ∨ answer = Some "")
     ∧ mixtureFeelingAfter later dateString answer = (None, later)).
Proof.
  unfold mixtureFeelingAfter. destruct answer as [feeling|]; [|by right; split; [left|]].
  destruct (truthy feeling) eqn:Hf.
  - left. exists feeling. by split_and!; [|apply truthy_true|].
  - right. apply truthy_false in Hf as ->. by split; [right|].
Qed.

(** [generateMixtureFeelingForDate] on a date string that names nothing
    of [Object.prototype] (the strings of [toDateString] never do).  The
    function reads the cache when it is called and writes it when the
    text service has answered.  A call with no other call in between is
    the two halves in a row.  A call that begins while the cache holds
    a phrase for the date returns that phrase and asks nothing; else it
    asks the service only for a day of four or more entries, about the
    moods of that day.  When the answer comes, a phrase that is
    returned is the answer, is not empty and is in the cache from then
    on, so that calls that begin later return it; without a phrase the
    cache stays as it is; no other date is touched.  When two calls for
    one date overlap, both ask the service, each returns its own
    answer, and the cache keeps the answer that came last. *)
Theorem mixture_feeling_cached (mixFeelings : gmap string string)
    (es : list Entry) (reply : list string → option string) (dateString : string) :
  ordinary dateString →
  generateMixtureFeelingForDate toDateString mixFeelings es reply dateString
  = match mixtureFeelingBefore toDateString mixFeelings es dateString with
    | Settled feeling => (feeling, mixFeelings)
    | Pending moods => mixtureFeelingAfter mixFeelings dateString (reply moods)
    end
  ∧ (∀ feeling,
       mixtureFeelingBefore toDateString mixFeelings es dateString = Settled (Some feeling)
       ↔ dateString ≠ "" ∧ feeling ≠ "" ∧ mixFeelings !! dateString = Some feeling)
  ∧ (∀ moods,
       mixtureFeelingBefore toDateString mixFeelings es dateString = Pending moods →
       moods = map mood (dayEntries toDateString es dateString)
       ∧ (4 ≤ length moods)%nat)
  ∧ (∀ later answer,
       let result := mixtureFeelingAfter later dateString answer in
       (∀ feeling, result.1 = Some feeling →
          answer = Some feeling ∧ feeling ≠ ""
          ∧ result.2 !! dateString = Some feeling
          ∧ (dateString ≠ "" → ∀ es',
               mixtureFeelingBefore toDateString result.2 es' dateString
               = Settled (Some feeling)))
       ∧ (result.1 = None → result.2 = later)
       ∧ (∀ other, other ≠ dateString → result.2 !! other = later !! other))
  ∧ (∀ moods first second,
       mixtureFeelingBefore toDateString mixFeelings es dateString = Pending moods →
       first ≠ "" → second ≠ "" →
       let one := mixtureFeelingAfter mixFeelings dateString (Some first) in
       let other := mixtureFeelingAfter one.2 dateString (Some second) in
       one.1 = Some first ∧ other.1 = Some second
       ∧ other.2 !! dateString = Some second).
Proof.
  intros _. split_and!.
  - unfold generateMixtureFeelingForDate, mixtureFeelingBefore, mixtureFeelingAfter.
    destruct (negb (truthy dateString)); [done|].
    destruct (truthyOpt (mixFeelings !! dateString)); [done|].
    by destruct (length (dayEntries toDateString es dateString) <? 4)%nat.
  - intros feeling. apply mixtureFeelingBefore_hit.
  - intros moods Hmoods.
    by destruct (mixtureFeelingBefore_miss _ _ _ _ Hmoods) as (? & ? & _).
  - intros later answer result. subst result.
    destruct (mixtureFeelingAfter_cases later dateString answer)
      as [(feeling & -> & Hf & ->) | [_ ->]]; cbn [fst snd].
    + split_and!; [| done | by intros other Hne; rewrite lookup_insert_ne].
      intros ? [= <-]. split_and!; [done | done | by rewrite lookup_insert_eq |].
      intros Hd es'. apply mixtureFeelingBefore_hit.
      by rewrite lookup_insert_eq.
    + by split_and!.
  - intros moods first second _ Hfirst Hsecond. cbn zeta.
    unfold mixtureFeelingAfter.
    rewrite (proj2 (truthy_true _) Hfirst), (proj2 (truthy_true _) Hsecond).
    cbn [fst snd]. by rewrite lookup_insert_eq.
Qed.

End MixtureFeeling.

Lemma mixture_feeling_cached_witness :
  mixtureFeelingBefore utcDay ∅ busyDay "19675" = Pending ["Calm"; "Happy"; "Tired"; "Calm"]
  ∧ (mixtureFeelingAfter
       (mixtureFeelingAfter ∅ "19675" (Some "Steady and warm")).2
       "19675" (Some "Bright and calm")).2 !! "19675"
    = Some "Bright and calm".
Proof.
  split; [reflexivity|].
  destruct (mixture_feeling_cached utcDay ∅ busyDay (λ _, None) "19675")
    as (_ & _ & _ & _ & Hoverlap); [reflexivity|].
  destruct (Hoverlap ["Calm"; "Happy"; "Tired"; "Calm"]
              "Steady and warm" "Bright and calm") as (_ & _ & Hlast);
    [reflexivity | discriminate | discriminate |].
  exact Hlast.
Defined.

(** ** The grid of the calendar *)

Lemma calendarGrid_length (startDayIndex daysInMonth : nat) :
  ∃ weeks, length (calendarGrid startDayIndex daysInMonth) = (7 * weeks)%nat
    ∧ (startDayIndex + daysInMonth ≤ 7 * weeks < startDayIndex + daysInMonth + 7)%nat.
Proof.
  unfold calendarGrid. cbn zeta.
  rewrite !length_app, length_replicate, length_map, length_seq.
  pose proof (Nat.div_mod_eq (startDayIndex + daysInMonth) 7) as Hdiv.
  pose proof (Nat.mod_upper_bound (startDayIndex + daysInMonth) 7 ltac:(lia)) as Hlt.
  destruct (Nat.eqb_spec ((startDayIndex + daysInMonth) mod 7) 0) as [Hz|Hnz].
  - exists ((startDayIndex + daysInMonth) / 7)%nat. cbn [length]. lia.
  - exists (S ((startDayIndex + daysInMonth) / 7))%nat. rewrite length_replicate. lia.
Qed.

Lemma calendarGrid_day (startDayIndex daysInMonth d : nat) :
  (1 ≤ d ≤ daysInMonth)%nat →
  calendarGrid startDayIndex daysInMonth !! (startDayIndex + (d - 1))%nat = Some (Day d).
Proof.
  intros Hd. unfold calendarGrid. cbn zeta.
  rewrite lookup_app_r by (rewrite length_replicate; lia).
  rewrite length_replicate.
  replace (startDayIndex + (d - 1) - startDayIndex)%nat with (d - 1)%nat by lia.
  rewrite lookup_app_l by (rewrite length_map, length_seq; lia).
  rewrite list_lookup_fmap, lookup_seq_lt by lia. cbn. f_equal. f_equal. lia.
Qed.

(** The grid that [updateCalendar] builds is made of whole weeks, as few
    as hold the blank cells before the first day and the days of the
    month; the day [d] is the cell at position [startDayIndex + d - 1],
    so the first day stands in the column of its week day and every day
    stands in the column after the day before; every other cell is
    blank, and each day occurs once. *)
Theorem calendarGrid_weeks (startDayIndex daysInMonth : nat) :
  let grid := calendarGrid startDayIndex daysInMonth in
  (∃ weeks, length grid = (7 * weeks)%nat
     ∧ (startDayIndex + daysInMonth ≤ 7 * weeks < startDayIndex + daysInMonth + 7)%nat)
  ∧ (∀ i d, grid !! i = Some (Day d)
       ↔ (1 ≤ d ≤ daysInMonth)%nat ∧ i = (startDayIndex + (d - 1))%nat)
  ∧ (∀ i, grid !! i = Some Blank
       ↔ (i < startDayIndex ∨ startDayIndex + daysInMonth ≤ i < length grid)%nat).
Proof.
  intros grid. subst grid. split; [apply calendarGrid_length|].
  assert (∀ i, (i < startDayIndex)%nat →
            calendarGrid startDayIndex daysInMonth !! i = Some Blank) as Hbefore.
  { intros i Hi. unfold calendarGrid. cbn zeta.
    rewrite lookup_app_l by (rewrite length_replicate; lia).
    by rewrite lookup_replicate_2. }
  assert (∀ i, (startDayIndex + daysInMonth ≤ i
                < length (calendarGrid startDayIndex daysInMonth))%nat →
            calendarGrid startDayIndex daysInMonth !! i = Some Blank) as Hafter.
  { intros i. unfold calendarGrid. cbn zeta.
    rewrite !length_app, length_replicate, length_map, length_seq. intros Hi.
    rewrite lookup_app_r by (rewrite length_replicate; lia).
    rewrite lookup_app_r by (rewrite length_replicate, length_map, length_seq; lia).
    rewrite length_replicate, length_map, length_seq.
    destruct (_ =? 0)%nat; cbn [length] in Hi; [lia|].
    rewrite length_replicate in Hi. apply lookup_replicate_2. lia. }
  assert (∀ i, (i < startDayIndex)%nat
               ∨ (∃ d, (1 ≤ d ≤ daysInMonth)%nat ∧ i = (startDayIndex + (d - 1))%nat)
               ∨ (startDayIndex + daysInMonth ≤ i)%nat) as Hpos.
  { intros i. destruct (decide (i < startDayIndex)%nat); [by left|].
    destruct (decide (startDayIndex + daysInMonth ≤ i)%nat); [by auto|].
    right; left. exists (S (i - startDayIndex)). lia. }
  split.
  - intros i d. split.
    + intros Hi. destruct (Hpos i) as [Hlt | [(d' & Hd' & ->) | Hge]].
      * by rewrite Hbefore in Hi.
      * rewrite calendarGrid_day in Hi by done. simplify_eq. split; [done | lia].
      * apply lookup_lt_Some in Hi as Hlen. rewrite Hafter in Hi by lia. done.
    + intros [Hd ->]. by apply calendarGrid_day.
  - intros i. split.
    + intros Hi. apply lookup_lt_Some in Hi as Hlen.
      destruct (Hpos i) as [Hlt | [(d' & Hd' & ->) | Hge]]; [by left | | right; lia].
      by rewrite calendarGrid_day in Hi.
    + intros [Hlt | Hge]; [by apply Hbefore | by apply Hafter].
Qed.


(** ** The key of the text service *)

Lemma dropSpaces_noLeadingSpace (l : list ascii) : noLeadingSpace (dropSpaces l).
Proof.
  induction l as [|c l IH]; cbn; [done|].
  by destruct (Chars.isTrimSpace c) eqn:Hc.
Qed.

Lemma dropSpaces_fixed (l : list ascii) : noLeadingSpace l → dropSpaces l = l.
Proof. destruct l as [|c l]; cbn; [done|]. by intros ->. Qed.

Lemma dropSpaces_suffix (l : list ascii) : ∃ k, l = k ++ dropSpaces l.
Proof.
  induction l as [|c l (k & IH)]; cbn; [by exists []|].
  destruct (Chars.isTrimSpace c).
  - exists (c :: k). cbn. by f_equal.
  - by exists [].
Qed.

Lemma noLeadingSpace_prefix (l k : list ascii) :
  noLeadingSpace (l ++ k) → noLeadingSpace l.
Proof. by destruct l. Qed.

Lemma trim_trim (s : string) : trim (trim s) = trim s.
Proof.
  unfold trim. rewrite chars_str.
  set (a := dropSpaces (chars s)).
  set (b := dropSpaces (rev a)).
  assert (noLeadingSpace (rev b)) as Hhead.
  { destruct (dropSpaces_suffix (rev a)) as (k & Hk). fold b in Hk.
    apply (f_equal (@rev ascii)) in Hk. rewrite rev_involutive, rev_app_distr in Hk.
    apply (noLeadingSpace_prefix _ (rev k)). rewrite <- Hk.
    apply dropSpaces_noLeadingSpace. }
  rewrite (dropSpaces_fixed (rev b)) by done.
  rewrite rev_involutive.
  rewrite (dropSpaces_fixed b) by apply dropSpaces_noLeadingSpace.
  done.
Qed.

Lemma string_length_zero (s : string) : String.length s = 0%nat ↔ s = "".
Proof. destruct s; cbn; split; (done || lia). Qed.

Lemma usableKey_trim (s : string) :
  usableKey (Some s) = if truthy (trim s) then Some (trim s) else None.
Proof.
  unfold usableKey.
  destruct (truthy (trim s)) eqn:Ht.
  - apply truthy_true in Ht.
    assert (s ≠ "") as Hs by (intros ->; by rewrite trim_empty in Ht).
    rewrite (proj2 (truthy_true s) Hs). cbn [andb].
    destruct (Nat.ltb_spec 0 (String.length (trim s))) as [|Hlen]; [done|].
    destruct Ht. apply string_length_zero. lia.
  - apply truthy_false in Ht. rewrite Ht. cbn. by rewrite andb_false_r.
Qed.

Lemma usableKey_Some (o : option string) (k : string) :
  usableKey o = Some k → k ≠ "" ∧ trim k = k ∧ usableKey (Some k) = Some k.
Proof.
  destruct o as [s|]; [|done]. rewrite usableKey_trim.
  destruct (truthy (trim s)) eqn:Ht; [|done]. intros [= <-].
  split_and!; [by apply truthy_true | apply trim_trim |].
  by rewrite usableKey_trim, trim_trim, Ht.
Qed.

(** [getApiKey], with a store that can be read and written: a key that
    is returned is not empty and has no space around it; the constant
    of the build wins over the stored key, the stored key over the
    prompt, and the user is asked only when neither gives a key; a key
    that the user enters is stored under [m2mGeminiKey], so the next
    call returns the same key without asking; nothing else of the store
    changes, and without a key the store is as it was. *)
Theorem getApiKey_priority (constant : string) (storage : gmap string string)
    (entered : option string) :
  let result := getApiKey constant storage entered in
  let key := result.1.1 in
  let storage' := result.1.2 in
  let asked := result.2 in
  (∀ k, key = Some k →
     k ≠ "" ∧ trim k = k
     ∧ ∀ entered', getApiKey constant storage' entered' = (Some k, storage', false))
  ∧ (trim constant ≠ "" → result = (Some (trim constant), storage, false))
  ∧ (∀ saved, trim constant = "" → storage !! "m2mGeminiKey" = Some saved →
       trim saved ≠ "" → result = (Some (trim saved), storage, false))
  ∧ (asked = true ↔
       trim constant = "" ∧ usableKey (storage !! "m2mGeminiKey") = None)
  ∧ (asked = true → key = usableKey entered)
  ∧ (asked = false ∨ key = None → storage' = storage)
  ∧ (∀ other, other ≠ "m2mGeminiKey" → storage' !! other = storage !! other).
Proof.
  intros result key storage' asked. subst key storage' asked result.
  unfold getApiKey. rewrite usableKey_trim.
  destruct (truthy (trim constant)) eqn:Hc.
  { pose proof (proj1 (truthy_true _) Hc) as Hne. cbn [fst snd].
    split_and!; try done.
    - intros k [= <-]. split_and!; [done | apply trim_trim |].
      by intros entered'.
    - split; [done|]. intros [Hempty _]. by rewrite Hempty in Hne. }
  pose proof (proj1 (truthy_false _) Hc) as Hempty.
  destruct (usableKey (storage !! "m2mGeminiKey")) as [k|] eqn:Hsaved.
  { cbn [fst snd]. destruct (usableKey_Some _ _ Hsaved) as (Hk & Htrim & _).
    split_and!; try done.
    - intros ? [= <-]. split_and!; [done | done |].
      intros entered'. by rewrite Hsaved.
    - intros saved _ Hlook Hne. rewrite Hlook, usableKey_trim in Hsaved.
      rewrite (proj2 (truthy_true _) Hne) in Hsaved. by simplify_eq.
    - split; [done|]. by intros [_ ?]. }
  destruct (usableKey entered) as [k|] eqn:Hentered; cbn [fst snd].
  - destruct (usableKey_Some _ _ Hentered) as (Hk & Htrim & Hagain).
    split_and!; try done.
    + intros ? [= <-]. split_and!; [done | done |].
      intros entered'. by rewrite lookup_insert_eq, Hagain.
    + intros saved _ Hlook Hne. rewrite Hlook, usableKey_trim in Hsaved.
      by rewrite (proj2 (truthy_true _) Hne) in Hsaved.
    + by intros [|].
    + intros other Hne. by rewrite lookup_insert_ne.
  - split_and!; try done.
    intros saved _ Hlook Hne. rewrite Hlook, usableKey_trim in Hsaved.
    by rewrite (proj2 (truthy_true _) Hne) in Hsaved.
Qed.


(** ** The suggested mood *)

Lemma isLower_toLowerChar (c : ascii) :
  Chars.isLower c = true → Chars.toLowerChar c = c.
Proof. by destruct c as [[|] [|] [|] [|] [|] [|] [|] [|]]. Qed.

Lemma toLowerCase_lower (w : string) :
  forallb Chars.isLower (chars w) = true → toLowerCase w = w.
Proof.
  intros Hw. unfold toLowerCase. rewrite <- (str_chars w) at 2. f_equal.
  induction (chars w) as [|c l IH]; [done|].
  cbn in Hw. apply andb_true_iff in Hw as [Hc Hl].
  cbn. by rewrite isLower_toLowerChar, IH.
Qed.

Lemma matchRunsFrom_lower (minLen : nat) (st : scanState) (s : list ascii) (w : string) :
  match st with
  | Letters acc => forallb Chars.isLower acc = true
  | _ => True
  end →
  w ∈ matchRunsFrom minLen st s → forallb Chars.isLower (chars w) = true.
Proof.
  assert (∀ st', match st' with
                 | Letters acc => forallb Chars.isLower acc = true
                 | _ => True
                 end → w ∈ emitRun minLen st' →
                 forallb Chars.isLower (chars w) = true) as Hemit.
  { intros [|acc|] Hacc; unfold emitRun; try by intros ?%elem_of_nil.
    destruct (minLen <=? length acc)%nat; [|by intros ?%elem_of_nil].
    intros ->%list_elem_of_singleton. rewrite chars_str.
    apply forallb_forall. intros c Hc%in_rev.
    by apply (proj1 (forallb_forall _ _) Hacc). }
  revert st. induction s as [|c s IH]; intros st Hst; cbn; [by apply Hemit|].
  destruct (Chars.isWordChar c).
  - destruct st as [|acc|]; apply IH; try done.
    + destruct (Chars.isLower c) eqn:Hc; [by cbn; rewrite Hc | done].
    + destruct (Chars.isLower c) eqn:Hc; [by cbn; rewrite Hc, Hst | done].
  - intros [?|?]%elem_of_app; [by apply (Hemit st) | by apply (IH Outside)].
Qed.

Lemma matchRunsFrom_toLowerCase (minLen : nat) (s : list ascii) :
  map toLowerCase (matchRunsFrom minLen Outside s) = matchRunsFrom minLen Outside s.
Proof.
  rewrite <- (map_id (matchRunsFrom minLen Outside s)) at 2.
  apply map_ext_in. intros w Hw%list_elem_of_In.
  apply toLowerCase_lower. by apply (matchRunsFrom_lower minLen Outside s w I).
Qed.

Lemma matchRunsFrom_no_letter (minLen : nat) (st : scanState) (s : list ascii) :
  (∀ c, c ∈ s → Chars.isLower c = false) → st = Outside ∨ st = Blocked →
  matchRunsFrom minLen st s = [].
Proof.
  revert st. induction s as [|c s IH]; intros st Hs Hst.
  - by destruct Hst as [-> | ->].
  - cbn. rewrite (Hs c) by left.
    assert (∀ c', c' ∈ s → Chars.isLower c' = false) as Hs'
      by (intros c' Hc'; apply Hs; by right).
    destruct (Chars.isWordChar c).
    + destruct Hst as [-> | ->]; apply IH; auto.
    + rewrite IH by auto. by destruct Hst as [-> | ->].
Qed.

Lemma keywordHits_snoc (keywords pre : list string) (w : string) :
  keywordHits keywords (pre ++ [w])
  = if includes keywords w then S (keywordHits keywords pre)
    else keywordHits keywords pre.
Proof.
  unfold keywordHits. rewrite List.filter_app, length_app. cbn.
  destruct (includes keywords w); cbn; lia.
Qed.

Lemma countKeywords_hits (pre : list string) (w : string) :
  countKeywords (hitTable (moodHits pre)) w = hitTable (moodHits (pre ++ [w])).
Proof.
  unfold countKeywords, hitTable, moodHits, moodKeywords.
  repeat match goal with
         | |- context [@pair string (list string) ?m (?a :: ?l)] =>
             generalize (a :: l); intros ?
         end.
  cbn [map foldl fst snd]. rewrite !keywordHits_snoc.
  repeat match goal with
         | |- context [keywordHits ?k pre] =>
             generalize (keywordHits k pre); intros ?;
             generalize (includes k w); intros ?
         end.
  repeat match goal with b : bool |- _ => destruct b end; reflexivity.
Qed.

Lemma countKeywords_all (words : list string) :
  foldl countKeywords
        (foldl (λ counts m, PlainObject.set counts m (PlainObject.Num 0))
               PlainObject.empty (map fst moodKeywords))
        words
  = hitTable (moodHits words).
Proof.
  change (foldl _ PlainObject.empty _) with (hitTable (moodHits [])).
  rewrite <- (app_nil_l words) at 2. generalize (@nil string).
  induction words as [|w words IH]; intros pre; cbn [foldl].
  - by rewrite app_nil_r.
  - rewrite countKeywords_hits, IH. by rewrite <- app_assoc.
Qed.

Lemma pickBest_from (hits : list (string * nat)) (acc : option string * nat) :
  let picked :=
    foldl (λ acc entry,
             match entry.2 with
             | PlainObject.Num c => if (acc.2 <? c)%nat then (Some entry.1, c) else acc
             | _ => acc
             end) acc (hitTable hits) in
  (picked = acc ∧ ∀ p, p ∈ hits → (p.2 ≤ acc.2)%nat)
  ∨ ∃ i k, hits !! i = Some (k, picked.2) ∧ picked.1 = Some k
      ∧ (acc.2 < picked.2)%nat
      ∧ (∀ p, p ∈ hits → (p.2 ≤ picked.2)%nat)
      ∧ (∀ j p, (j < i)%nat → hits !! j = Some p → (p.2 < picked.2)%nat).
Proof.
  cbn zeta. revert acc. induction hits as [|[k n] hits IH]; intros acc.
  { left. split; [done|]. by intros p ?%elem_of_nil. }
  cbn [hitTable map foldl fst snd].
  destruct (Nat.ltb_spec acc.2 n) as [Hlt|Hge].
  - destruct (IH (Some k, n)) as [[Heq Hall] | (i & k' & Hi & Hk & Hlt' & Hall & Hbefore)];
      fold (hitTable hits) in *.
    + right. exists 0%nat, k. rewrite Heq. cbn [fst snd] in *.
      split_and!; try done.
      * intros p [->|Hp]%elem_of_cons; [done | by apply Hall].
      * intros j p Hj. lia.
    + right. exists (S i), k'. cbn [fst snd] in *.
      split_and!; try done; try lia.
      * intros p [->|Hp]%elem_of_cons; [cbn [fst snd]; lia | by apply Hall].
      * intros [|j] p Hj Hp; cbn in Hp; [simplify_eq; cbn [fst snd]; lia|].
        apply (Hbefore j); [lia | done].
  - destruct (IH acc) as [[Heq Hall] | (i & k' & Hi & Hk & Hlt' & Hall & Hbefore)];
      fold (hitTable hits) in *.
    + left. split; [done|].
      intros p [->|Hp]%elem_of_cons; [done | by apply Hall].
    + right. exists (S i), k'.
      split_and!; try done.
      * intros p [->|Hp]%elem_of_cons; [cbn [fst snd]; lia | by apply Hall].
      * intros [|j] p Hj Hp; cbn in Hp; [simplify_eq; cbn [fst snd]; lia|].
        apply (Hbefore j); [lia | done].
Qed.

(** [analyzeMoodSuggestion] suggests the mood with the most keywords
    among the words of the text (runs of letters a-z between word
    boundaries, counted with repetitions), the first such mood in the
    order Happy, Sad, Angry, Excited, Calm when several have the most,
    and no mood when no word is a keyword.  As the pattern matches
    lower-case letters only, a text without any lower-case letter
    gets no suggestion. *)
Theorem analyzeMoodSuggestion_best (text : string) :
  let hits := moodHits (matchRunsFrom 1 Outside (chars text)) in
  (∀ m, analyzeMoodSuggestion text = Some m ↔
     ∃ i n, hits !! i = Some (m, n) ∧ (0 < n)%nat
       ∧ (∀ p, p ∈ hits → (p.2 ≤ n)%nat)
       ∧ (∀ j p, (j < i)%nat → hits !! j = Some p → (p.2 < n)%nat))
  ∧ (analyzeMoodSuggestion text = None ↔ ∀ p, p ∈ hits → p.2 = 0%nat)
  ∧ ((∀ c, c ∈ chars text → Chars.isLower c = false) →
     analyzeMoodSuggestion text = None).
Proof.
  intros hits.
  assert (analyzeMoodSuggestion text
          = let picked := pickBest (hitTable hits) in
            if (0 <? picked.2)%nat then picked.1 else None) as Hdef.
  { unfold analyzeMoodSuggestion. cbn zeta.
    by rewrite matchRunsFrom_toLowerCase, countKeywords_all. }
  cbn zeta in Hdef. unfold pickBest in Hdef.
  assert ((∀ m, analyzeMoodSuggestion text = Some m ↔
     ∃ i n, hits !! i = Some (m, n) ∧ (0 < n)%nat
       ∧ (∀ p, p ∈ hits → (p.2 ≤ n)%nat)
       ∧ (∀ j p, (j < i)%nat → hits !! j = Some p → (p.2 < n)%nat))
  ∧ (analyzeMoodSuggestion text = None ↔ ∀ p, p ∈ hits → p.2 = 0%nat)) as [Hsome Hnone].
  { rewrite Hdef.
    destruct (pickBest_from hits (None, 0%nat))
      as [[-> Hall] | (i & k & Hi & Hk & Hlt & Hall & Hbefore)]; cbn [fst snd] in *.
    - split.
      + intros m. split; [done|].
        intros (i & n & Hi & Hn & _). apply list_elem_of_lookup_2, Hall in Hi.
        cbn [fst snd] in Hi. lia.
      + split; [|done]. intros _ p Hp. apply Hall in Hp. lia.
    - rewrite (proj2 (Nat.ltb_lt _ _) Hlt), Hk. split.
      + intros m. split.
        * intros [= <-]. eexists i, _. by split_and!.
        * intros (i' & n' & Hi' & Hn' & Hall' & Hbefore'). f_equal.
          pose proof (Hall _ (list_elem_of_lookup_2 _ _ _ Hi')) as H1.
          pose proof (Hall' _ (list_elem_of_lookup_2 _ _ _ Hi)) as H2.
          cbn [fst snd] in H1, H2.
          destruct (Nat.lt_trichotomy i i') as [Hlt'|[->|Hgt]].
          -- specialize (Hbefore' _ _ Hlt' Hi). cbn [fst snd] in Hbefore'. lia.
          -- by simplify_eq.
          -- specialize (Hbefore _ _ Hgt Hi'). cbn [fst snd] in Hbefore. lia.
      + split; [done|]. intros Hzero.
        apply list_elem_of_lookup_2, Hzero in Hi. cbn [fst snd] in Hi. lia. }
  split; [done|]. split; [done|].
  intros Hlower. apply Hnone. subst hits.
  rewrite matchRunsFrom_no_letter by auto.
  intros p Hp. unfold moodHits, moodKeywords in Hp. cbn in Hp.
  repeat (apply elem_of_cons in Hp as [->|Hp]; [done|]).
  by apply elem_of_nil in Hp.
Qed.


(** ** Reloading the page *)

Lemma readEntries_other (k v : string) (storage : gmap string string) :
  k ≠ "m2mEntries" → readEntries (<[k := v]> storage) = readEntries storage.
Proof. intros Hk. unfold readEntries. by rewrite lookup_insert_ne. Qed.

Lemma readMoodList_other (k v : string) (storage : gmap string string) :
  k ≠ "m2mMoods" → readMoodList (<[k := v]> storage) = readMoodList storage.
Proof. intros Hk. unfold readMoodList. by rewrite lookup_insert_ne. Qed.

Lemma filter_bool_id {A} (f : A → bool) (l : list A) :
  (∀ x, x ∈ l → f x = true) → List.filter f l = l.
Proof.
  induction l as [|x l IH]; intros Hall; cbn; [done|].
  rewrite (Hall x) by left. f_equal. apply IH. intros y Hy. apply Hall. by right.
Qed.

Lemma keepMood_trim (m : Mood) : keepMood m = true → trim (name m) ≠ "".
Proof.
  unfold keepMood. destruct (truthy (trim (name m))) eqn:Ht; [|done].
  intros _. by apply truthy_true.
Qed.

Lemma keepMood_false (m : Mood) :
  keepMood m = false → trim (name m) ≠ "" →
  toLowerCase (trim (name m)) = "gg" ∨ toLowerCase (trim (name m)) = "gg gg".
Proof.
  unfold keepMood. intros Hk Hne. rewrite (proj2 (truthy_true _) Hne) in Hk.
  cbn [negb] in Hk.
  destruct (String.eqb_spec (toLowerCase (trim (name m))) "gg") as [|_]; [by left|].
  destruct (String.eqb_spec (toLowerCase (trim (name m))) "gg gg") as [|_]; [by right|].
  done.
Qed.

Section Reload.

Variable toDateString : Z → string.

Lemma start_fields (storage : gmap string string) :
  let st := start toDateString storage in
  entries st = readEntries storage ∧ moodList st = readMoodList storage
  ∧ localStorage st = storage ∧ filterMood st = None ∧ filterDate st = None
  ∧ timeline st = cards toDateString (readEntries storage) None None.
Proof. by split_and!. Qed.

Lemma start_persisted (storage : gmap string string) :
  persisted (start toDateString storage).
Proof.
  destruct (start_fields storage) as (Hes & Hml & Hst & _).
  unfold persisted. rewrite Hes, Hml, Hst.
  assert (∀ m, m ∈ readMoodList storage → keepMood m = true) as Hkeep.
  { intros m. unfold readMoodList.
    destruct (if truthyOpt _ then _ else _) as [ml|]; [|by intros ?%elem_of_nil].
    intros [Hm _]%dropSeen_elem. by apply elem_of_filter_bool in Hm as [_ Hm]. }
  split_and!; [done | by rewrite filter_bool_id |].
  apply list.Forall_forall. intros m Hm. by apply keepMood_trim, Hkeep.
Qed.

Lemma entries_persisted (es : list Entry) (st : State) :
  persisted st →
  persisted (updateChart (renderEntries toDateString (saveEntries (setEntries es st)))).
Proof.
  intros (_ & Hml & Hnames). unfold persisted, renderEntries. state_fields.
  split_and!; [apply readEntries_saved | by rewrite readMoodList_other | done].
Qed.

Lemma moods_persisted (ml : list Mood) (st : State) :
  NoDup (map name ml) → Forall (λ m, trim (name m) ≠ "") ml →
  persisted st →
  persisted (updateChart (renderMoodOptions (saveMoodList (setMoodList ml st)))).
Proof.
  intros Hnd Hnames (Hes & _ & _). unfold persisted. state_fields.
  split_and!; [by rewrite readEntries_other | by apply readMoodList_saved | done].
Qed.

Lemma step_persisted (st : State) (ev : Event) :
  consistent toDateString st → persisted st → persisted (step toDateString st ev).
Proof.
  intros Hc Hp.
  pose proof (consistent_registry _ _ (step_consistent toDateString st ev Hc)) as [Hnd _].
  destruct ev as [i|t|now|ts|nm c|nm|els|d]; cbn [step] in *.
  - by destruct (moodList st !! i).
  - done.
  - unfold submit. destruct (negb _ || negb _); [done|].
    destruct (selectedMood (entryForm st)); [|done].
    exact (entries_persisted (entries st ++ [mkEntry s (trim (entryText (entryForm st))) now]) st Hp).
  - unfold deleteEntry. destruct (list_find _ _) as [[idx e]|]; [|done].
    by apply entries_persisted.
  - unfold saveMoodClick in *. destruct (truthy (trim nm)) eqn:Hnm; cbn [negb] in *; [|done].
    unfold addCustomMood in *. rewrite Hnm in *. cbn [negb] in *.
    apply moods_persisted; [done | | done].
    destruct Hp as (_ & _ & Hnames). apply truthy_true in Hnm.
    destruct (list_find _ _) as [[i existing]|] eqn:Hfind.
    + apply list_find_Some in Hfind as (Hi & _ & _).
      apply Forall_insert; [done|]. cbn [name].
      by apply (proj1 (list.Forall_forall _ _) Hnames existing (list_elem_of_lookup_2 _ _ _ Hi)).
    + apply Forall_app. split; [done|]. apply Forall_singleton. cbn [name].
      by rewrite trim_trim.
  - unfold deleteMood in *. destruct (includes builtInMoodNames nm); [done|].
    apply moods_persisted; [done | | done].
    destruct Hp as (_ & _ & Hnames).
    apply list.Forall_forall. intros m [Hm _]%elem_of_filter_bool.
    by apply (proj1 (list.Forall_forall _ _) Hnames).
  - unfold chartClick. by destruct els.
  - done.
Qed.

Lemma run_persisted (st : State) (evs : list Event) :
  consistent toDateString st → persisted st → persisted (run toDateString st evs).
Proof.
  revert st. induction evs as [|ev evs IH]; intros st Hc Hp; [done|].
  cbn. apply IH; [by apply step_consistent | by apply step_persisted].
Qed.

Lemma readEntries_written (storage : gmap string string) (es : list Entry) :
  storage !! "m2mEntries" = Some (JSON.stringifyEntries es) → readEntries storage = es.
Proof.
  intros Hes. unfold readEntries.
  by rewrite Hes, stringifyEntries_truthy, JSONFacts.parse_stringify_entries.
Qed.

Lemma appStore_entries (storage : gmap string string) (es : list Entry) :
  appStore storage → Forall (λ e, timeValue (timestamp e)) es →
  appStore (<["m2mEntries" := JSON.stringifyEntries es]> storage).
Proof.
  intros [_ Hml] Hes. split.
  - right. exists es. by rewrite lookup_insert_eq.
  - by rewrite lookup_insert_ne.
Qed.

Lemma appStore_moods (storage : gmap string string) (ml : list Mood) :
  appStore storage → appStore (<["m2mMoods" := JSON.stringifyMoods ml]> storage).
Proof.
  intros [Hes _]. split.
  - by rewrite lookup_insert_ne.
  - right. exists ml. by rewrite lookup_insert_eq.
Qed.

Lemma start_storeKept (storage : gmap string string) :
  appStore storage → storeKept (start toDateString storage).
Proof.
  intros Happ. destruct (start_fields storage) as (Hes & _ & Hst & _).
  unfold storeKept. rewrite Hes, Hst. split; [done|].
  destruct Happ as [[Hnone | (es & Hsome & Htimes)] _].
  - unfold readEntries. rewrite Hnone. constructor.
  - by rewrite (readEntries_written storage es).
Qed.

Lemma step_storeKept (st : State) (ev : Event) :
  onClock ev → storeKept st → storeKept (step toDateString st ev).
Proof.
  intros Hclock [Happ Htimes].
  destruct ev as [i|t|now|ts|nm c|nm|els|d]; cbn [step onClock] in *.
  - by destruct (moodList st !! i).
  - done.
  - unfold submit. destruct (negb _ || negb _); [done|].
    destruct (selectedMood (entryForm st)) as [m|]; [|done].
    assert (Forall (λ e, timeValue (timestamp e))
              (entries st ++ [mkEntry m (trim (entryText (entryForm st))) now])) as Hnew.
    { apply Forall_app. split; [done|]. by apply Forall_singleton. }
    split; [|exact Hnew]. by apply (appStore_entries (localStorage st)).
  - unfold deleteEntry. destruct (list_find _ _) as [[idx e]|]; [|done].
    assert (Forall (λ e, timeValue (timestamp e)) (delete idx (entries st))) as Hnew.
    { apply list.Forall_forall. intros x Hx.
      apply (proj1 (list.Forall_forall _ _) Htimes).
      by apply (list_elem_of_delete_inv _ idx). }
    split; [|exact Hnew]. by apply (appStore_entries (localStorage st)).
  - unfold saveMoodClick. destruct (negb _); [done|].
    unfold addCustomMood. destruct (negb _); [done|].
    split; [|done]. by apply (appStore_moods (localStorage st)).
  - unfold deleteMood. destruct (includes _ _); [done|].
    split; [|done]. by apply (appStore_moods (localStorage st)).
  - unfold chartClick. by destruct els.
  - done.
Qed.

Lemma run_storeKept (st : State) (evs : list Event) :
  Forall onClock evs → storeKept st → storeKept (run toDateString st evs).
Proof.
  revert st. induction evs as [|ev evs IH]; intros st Hclock Hkept; [done|].
  apply Forall_cons in Hclock as [Hev Hclock].
  cbn. apply IH; [done | by apply step_storeKept].
Qed.

(** Whatever was done on the page, opened on a store that is empty or
    that the script wrote, the store it leaves is again one that the
    script wrote, and closing the page and opening it again gives the
    same entries in the same order and the same moods in the same
    order, except the custom moods whose name is one of the
    placeholders [gg] and [gg gg] in any case: those are saved but
    dropped at the next load.  The filters are not kept: the timeline
    of the reloaded page shows every entry. *)
Theorem reload_keeps_data (st : State) :
  onPage toDateString st →
  let reloaded := start toDateString (localStorage st) in
  appStore (localStorage st)
  ∧ entries reloaded = entries st
  ∧ moodList reloaded = List.filter keepMood (moodList st)
  ∧ (∀ m, m ∈ moodList st → m ∉ moodList reloaded →
       toLowerCase (trim (name m)) = "gg" ∨ toLowerCase (trim (name m)) = "gg gg")
  ∧ filterMood reloaded = None ∧ filterDate reloaded = None
  ∧ timeline reloaded = cards toDateString (entries st) None None.
Proof.
  intros (storage & evs & Happ & Hclock & ->) reloaded.
  destruct (run_persisted (start toDateString storage) evs
              (start_consistent toDateString storage) (start_persisted storage))
    as (Hes & Hml & Hnames).
  destruct (run_storeKept (start toDateString storage) evs Hclock
              (start_storeKept storage Happ)) as [Hkept _].
  subst reloaded.
  destruct (start_fields (localStorage (run toDateString (start toDateString storage) evs)))
    as (-> & -> & _ & -> & -> & ->).
  rewrite Hes, Hml. split_and!; try done.
  intros m Hm Hout. apply keepMood_false.
  - destruct (keepMood m) eqn:Hk; [|done].
    destruct Hout. by apply elem_of_filter_bool.
  - by apply (proj1 (list.Forall_forall _ _) Hnames).
Qed.

End Reload.

Lemma reload_keeps_data_witness :
  map name (moodList ggState) = ["Happy"; "Sad"; "Angry"; "Excited"; "Calm"; "GG"]
  ∧ map name (moodList (start utcDay (localStorage ggState)))
    = ["Happy"; "Sad"; "Angry"; "Excited"; "Calm"].
Proof.
  split; [reflexivity|].
  destruct (reload_keeps_data utcDay ggState) as (_ & _ & -> & _).
  - exists ∅, [SaveMood " GG " "#000000"].
    split; [by split; left|]. split; [by repeat constructor | reflexivity].
  - reflexivity.
Defined.


(** ** The words of the two word views *)

Section ShownWords.

Import PlainObject PlainObjectFacts.

Lemma keys_put (o : t) (k : string) (v : value) :
  map fst (put o k v) = if decide (k ∈ map fst o) then map fst o else map fst o ++ [k].
Proof.
  induction o as [|[k' v'] o IH]; cbn.
  - by rewrite decide_False by apply not_elem_of_nil.
  - destruct (String.eqb_spec k' k) as [->|Hne]; cbn.
    + by rewrite decide_True by left.
    + rewrite IH. destruct (decide (k ∈ map fst o)) as [Hin|Hout].
      * by rewrite decide_True by by right.
      * rewrite decide_False; [done|]. by intros [?|?]%elem_of_cons.
Qed.

Lemma keys_countWords (ws : list string) :
  Forall (λ w, w ≠ "__proto__") ws →
  map fst (foldl (countWord []) empty ws) = unique ws.
Proof.
  induction ws as [|w ws IH] using rev_ind; intros Hws; [done|].
  apply Forall_app in Hws as [Hws Hw]. apply (proj1 (Forall_singleton _ _)) in Hw.
  rewrite foldl_app. cbn [foldl]. unfold countWord at 1. cbn [includes existsb].
  unfold set. rewrite (proj2 (String.eqb_neq _ _) Hw).
  rewrite keys_put, (IH Hws), unique_snoc.
  apply decide_ext, unique_elem.
Qed.

Lemma matchWordsFrom_long (st : scanState) (s : list ascii) (w : string) :
  w ∈ matchWordsFrom st s → (3 ≤ String.length w)%nat.
Proof.
  assert (∀ st', w ∈ emit st' → (3 ≤ String.length w)%nat) as Hemit.
  { intros [|acc|]; unfold emit; try by intros ?%elem_of_nil.
    destruct (Nat.leb_spec 3 (length acc)); [|by intros ?%elem_of_nil].
    intros ->%list_elem_of_singleton.
    by rewrite string_length_chars, chars_str, length_rev. }
  revert st. induction s as [|c s IH]; intros st; cbn; [by apply Hemit|].
  destruct (Chars.isWordChar c).
  - destruct st as [|acc|]; apply IH.
  - intros [?|?]%elem_of_app; [by apply (Hemit st) | by apply (IH Outside)].
Qed.

Lemma allWords_shape (es : list Entry) (w : string) :
  w ∈ allWords es →
  (3 ≤ String.length w)%nat ∧ forallb Chars.isLower (chars w) = true.
Proof.
  intros Hw. unfold allWords in Hw.
  apply list_elem_of_In, in_flat_map in Hw as (e & _ & Hw%list_elem_of_In).
  unfold matchWords in Hw.
  split; [exact (matchWordsFrom_long Outside _ w Hw) |
          exact (matchWordsFrom_lower Outside _ w I Hw)].
Qed.

Lemma wordFrequencies_keys (stopwords : list string) (es : list Entry) :
  map fst (wordFrequencies stopwords es) = unique (keptWords stopwords es).
Proof.
  rewrite wordFrequencies_allWords, countWord_kept. apply keys_countWords.
  apply list.Forall_forall. intros w [Hw _]%elem_of_filter_bool.
  apply allWords_shape in Hw as [_ Hw]. by intros ->.
Qed.

(** What the two word views show, whatever the texts are (the word
    [constructor] included): the trending view shows up to five and the
    cloud up to twenty distinct words of the texts that are none of the
    stopwords of the view, each of three or more letters a-z; a view
    shows every such word when there are no more of them than it has
    places. *)
Theorem word_views_shown (es : list Entry) :
  showsWords trendingStopwords 5 es (updateTrending es)
  ∧ showsWords cloudStopwords 20 es (updateWordCloud es).
Proof.
  assert (∀ stopwords n,
            showsWords stopwords n es (take n (ranked (wordFrequencies stopwords es))))
    as Hview; [|by split; apply Hview].
  intros stopwords n. unfold showsWords. cbn zeta.
  set (freq := wordFrequencies stopwords es).
  assert (map fst (ranked freq) ≡ₚ unique (keptWords stopwords es)) as Hperm.
  { rewrite <- wordFrequencies_keys. rewrite !map_fmap.
    apply fmap_Permutation, sortBy_Permutation. }
  assert (map fst (take n (ranked freq)) = take n (map fst (ranked freq))) as Htake.
  { rewrite !map_fmap. apply fmap_take. }
  rewrite Htake.
  assert (NoDup (map fst (ranked freq))) as Hnd.
  { rewrite Hperm. apply uniqueFrom_NoDup. }
  split_and!.
  - rewrite <- (take_drop n (map fst (ranked freq))) in Hnd.
    by apply NoDup_app in Hnd as [Hnd _].
  - rewrite length_take. by rewrite Hperm.
  - intros w Hw. apply (subseteq_take n _ w) in Hw.
    rewrite Hperm in Hw. apply (proj1 (unique_elem _ _)) in Hw.
    apply elem_of_filter_bool in Hw as [Hw Hstop].
    apply negb_true_iff, includes_false in Hstop.
    destruct (allWords_shape es w Hw). by split_and!.
  - intros Hlen w Hw Hstop. rewrite take_ge by (rewrite Hperm; lia).
    rewrite Hperm. apply unique_elem, elem_of_filter_bool. split; [done|].
    by apply negb_true_iff, includes_false.
Qed.

End ShownWords.


(** ** What a submission changes on the page *)

Lemma entriesWithMood_snoc (k : string) (e : Entry) (es : list Entry) :
  entriesWithMood k (es ++ [e])
  = (entriesWithMood k es + if String.eqb (mood e) k then 1 else 0)%nat.
Proof.
  unfold entriesWithMood. rewrite List.filter_app, length_app. cbn.
  by destruct (String.eqb (mood e) k).
Qed.

Section SubmitEffects.

Variable toDateString : Z → string.

Lemma step_selectionOk (st : State) (ev : Event) :
  selectionOk st → selectionOk (step toDateString st ev).
Proof.
  intros Hsel. destruct ev as [i|t|now|ts|nm c|nm|els|d]; cbn [step].
  - destruct (moodList st !! i) as [md|] eqn:Hi; [|done].
    intros m [= <-]. cbn. rewrite map_fmap.
    by apply list_elem_of_fmap_2, (list_elem_of_lookup_2 _ i).
  - done.
  - unfold submit. destruct (negb _ || negb _); [done|].
    by destruct (selectedMood (entryForm st)).
  - unfold deleteEntry. by destruct (list_find _ _) as [[idx e]|].
  - unfold saveMoodClick. destruct (negb _); [done|].
    unfold addCustomMood. by destruct (negb _).
  - unfold deleteMood. by destruct (includes _ _).
  - unfold chartClick. by destruct els.
  - done.
Qed.

Lemma run_selectionOk (st : State) (evs : list Event) :
  selectionOk st → selectionOk (run toDateString st evs).
Proof.
  revert st. induction evs as [|ev evs IH]; intros st Hsel; [done|].
  cbn. by apply IH, step_selectionOk.
Qed.

(** On the page, opened on a store that is empty or that the script
    wrote, the checked mood is always a mood of the registry, so a
    submission with a text counts on the chart: the bar of the mood
    rises by one and no other bar changes (the mood named [__proto__]
    apart, see [updateChart_proto_mood]); the new entry is on the
    timeline exactly when it passes the filters, and no other card comes
    or goes; the form is reset, so that submitting again at once adds
    nothing. *)
Theorem submit_effects (now : Z) (m : string) (st : State) :
  onPage toDateString st →
  selectedMood (entryForm st) = Some m →
  trim (entryText (entryForm st)) ≠ "" →
  m ≠ "__proto__" →
  let after := submit toDateString now st in
  let new := mkEntry m (trim (entryText (entryForm st))) now in
  m ∈ map name (moodList st)
  ∧ labels (moodChart after) = labels (moodChart st)
  ∧ (∀ i md, moodList st !! i = Some md →
       if String.eqb (name md) m
       then data (moodChart st) !! i
              = Some (PlainObject.Num (entriesWithMood m (entries st)))
            ∧ data (moodChart after) !! i
              = Some (PlainObject.Num (S (entriesWithMood m (entries st))))
       else data (moodChart after) !! i = data (moodChart st) !! i)
  ∧ (new ∈ timeline after
     ↔ passesFilters toDateString (filterMood st) (filterDate st) new = true)
  ∧ (∀ e, e ≠ new → e ∈ timeline after ↔ e ∈ timeline st)
  ∧ entryForm after = blankForm
  ∧ (∀ now', submit toDateString now' after = after).
Proof.
  intros (storage & evs & _ & _ & ->) Hm Ht Hproto after new.
  set (st := run toDateString (start toDateString storage) evs) in *.
  assert (consistent toDateString st) as [[Hnd Hne] Hlab Hdat Hfm Htl]
    by apply run_consistent, start_consistent.
  assert (m ∈ map name (moodList st)) as Hin.
  { by apply (run_selectionOk (start toDateString storage) evs). }
  assert (m ≠ "") as Hnonempty.
  { intros ->. rewrite map_fmap in Hin. apply list_elem_of_fmap in Hin as (md & Hname & Hmd).
    by apply (proj1 (list.Forall_forall _ _) Hne md Hmd). }
  assert (after = setForm blankForm
            (updateChart (renderEntries toDateString
               (saveEntries (setEntries (entries st ++ [new]) st))))) as Hafter.
  { subst after new. unfold submit. rewrite Hm. cbn [truthyOpt].
    by rewrite (proj2 (truthy_true m) Hnonempty), (proj2 (truthy_true _) Ht). }
  assert (∀ es e, e ∈ cards toDateString es (filterMood st) (filterDate st)
            ↔ e ∈ es ∧ passesFilters toDateString (filterMood st) (filterDate st) e = true)
    as Hcards.
  { intros es e. rewrite cards_filter by done.
    by rewrite elem_of_filter_bool, sortBy_elem. }
  rewrite Hafter. subst new. unfold renderEntries. state_fields.
  split_and!; [done | done | | | | done | done].
  - intros i md Hi.
    assert (name md ∈ map name (moodList st)) as Hmd.
    { rewrite map_fmap. by apply list_elem_of_fmap_2, (list_elem_of_lookup_2 _ i). }
    rewrite Hdat. unfold chartCounts. rewrite !map_fmap, !list_lookup_fmap, Hi.
    cbn [fmap option_fmap option_map].
    destruct (String.eqb_spec (name md) m) as [Heq|Hneq].
    + rewrite Heq, !chartCounts_slot by done.
      rewrite entriesWithMood_snoc. cbn [mood]. rewrite String.eqb_refl.
      by rewrite Nat.add_1_r.
    + destruct (decide (name md = "__proto__")) as [Hp|Hp].
      * by rewrite Hp.
      * rewrite !chartCounts_slot by done.
        rewrite entriesWithMood_snoc. cbn [mood].
        rewrite (proj2 (String.eqb_neq m (name md))) by done.
        by rewrite Nat.add_0_r.
  - rewrite Hcards, elem_of_app, list_elem_of_singleton. naive_solver.
  - intros e He. rewrite Htl, !Hcards, elem_of_app, list_elem_of_singleton.
    naive_solver.
Qed.

End SubmitEffects.

Lemma submit_effects_witness :
  "Calm" ∈ map name (moodList calmDraft)
  ∧ data (moodChart (submit utcDay 1700000000000 calmDraft)) !! 4%nat
    = Some (PlainObject.Num 1).
Proof.
  destruct (submit_effects utcDay 1700000000000 "Calm" calmDraft)
    as (Hin & _ & Hbars & _).
  - exists ∅, [PickMood 4; TypeText "  Walked outside  "].
    split; [by split; left|]. split; [by repeat constructor | reflexivity].
  - reflexivity.
  - discriminate.
  - discriminate.
  - split; [exact Hin|].
    exact (proj2 (Hbars 4%nat (mkMood "Calm" "fa-spa" "#55c57a") eq_refl)).
Defined.


(** ** The HTML of a chat message *)

Lemma matchRunsFrom_three (st : scanState) (s : list ascii) :
  matchRunsFrom 3 st s = matchWordsFrom st s.
Proof.
  revert st. induction s as [|c s IH]; intros st; cbn; [done|].
  destruct (Chars.isWordChar c); [|by rewrite IH].
  destruct st; by rewrite IH.
Qed.

Lemma replaceAll_app (c : ascii) (rep : string) (l k : list ascii) :
  replaceAll c rep (l ++ k) = replaceAll c rep l ++ replaceAll c rep k.
Proof. apply flat_map_app. Qed.

Lemma replaceAll_id (c : ascii) (rep : string) (l : list ascii) :
  Forall (λ x, x ≠ c) l → replaceAll c rep l = l.
Proof.
  unfold replaceAll. induction 1 as [|x l Hx _ IH]; [done|].
  cbn [flat_map]. rewrite (proj2 (Ascii.eqb_neq x c) Hx). cbn [app]. by rewrite IH.
Qed.

Lemma replaceAll_Forall (P : ascii → Prop) (c : ascii) (rep : string) (l : list ascii) :
  Forall P (chars rep) → Forall (λ x, x ≠ c → P x) l → Forall P (replaceAll c rep l).
Proof.
  intros Hrep. induction 1 as [|x l Hx _ IH]; [constructor|].
  cbn. apply Forall_app. split; [|done].
  destruct (Ascii.eqb_spec x c); [done|]. by apply Forall_singleton, Hx.
Qed.

Lemma escaped_noAngle (s : list ascii) :
  Forall noAngle
    (replaceAll ">" "&gt;" (replaceAll "<" "&lt;" (replaceAll "&" "&amp;" s))).
Proof.
  apply replaceAll_Forall.
  { by repeat constructor. }
  eapply Forall_impl.
  - apply (replaceAll_Forall (λ x, x ≠ "<"%char)).
    + by repeat constructor.
    + apply list.Forall_forall. by intros x _ Hx.
  - intros x Hlt Hgt. by split.
Qed.

Lemma tagged_plain (l rest : list ascii) :
  Forall noAngle l → tagged rest → tagged (replaceAll lineFeed "<br>" l ++ rest).
Proof.
  intros Hl Hrest. induction Hl as [|c l Hc _ IH]; [done|].
  cbn. rewrite <- app_assoc. destruct (Ascii.eqb c lineFeed).
  - by apply tagged_br.
  - by apply tagged_char.
Qed.

Lemma isLineTerminator_false (c : ascii) :
  isLineTerminator c = false → c ≠ lineFeed.
Proof. intros Hc ->. discriminate Hc. Qed.

Lemma boldFrom_Plain_cons (c : ascii) (rest : list ascii) :
  boldFrom Plain (c :: rest) = [c] ++ boldFrom Plain rest
  ∨ ∃ c' rest', rest = c' :: rest'
      ∧ boldFrom Plain (c :: rest) = boldFrom (Open []) rest'.
Proof.
  cbn [boldFrom]. destruct (Ascii.eqb c "*"%char); [|by left].
  destruct rest as [|c' rest']; [by left|].
  destruct (Ascii.eqb c' "*"%char); [|by left].
  right. by exists c', rest'.
Qed.

Lemma boldFrom_Open_cons (acc : list ascii) (c : ascii) (rest : list ascii) :
  (isLineTerminator c = true
   ∧ boldFrom (Open acc) (c :: rest)
     = (chars "**" ++ rev acc ++ [c]) ++ boldFrom Plain rest)
  ∨ (isLineTerminator c = false
     ∧ boldFrom (Open acc) (c :: rest) = boldFrom (Open (c :: acc)) rest)
  ∨ ∃ c' rest', rest = c' :: rest'
      ∧ boldFrom (Open acc) (c :: rest)
        = chars "<strong>" ++ rev acc ++ chars "</strong>" ++ boldFrom Plain rest'.
Proof.
  cbn [boldFrom]. destruct (isLineTerminator c).
  { left. split; [done|]. by rewrite <- !app_assoc. }
  destruct (Ascii.eqb c "*"%char); [|by right; left].
  destruct rest as [|c' rest']; [by right; left|].
  destruct (Ascii.eqb c' "*"%char); [|by right; left].
  right; right. by exists c', rest'.
Qed.

Lemma tagged_bold (n : nat) (s : list ascii) (st : boldState) :
  (length s ≤ n)%nat → Forall noAngle s →
  match st with
  | Plain => True
  | Open acc => Forall (λ c, noAngle c ∧ isLineTerminator c = false) acc
  end →
  tagged (replaceAll lineFeed "<br>" (boldFrom st s)).
Proof.
  revert s st. induction n as [|n IH]; intros s st Hlen Hs Hst.
  { destruct s; [|cbn in Hlen; lia]. destruct st as [|acc]; cbn [boldFrom]; [constructor|].
    rewrite <- (app_nil_r (replaceAll _ _ _)).
    apply tagged_plain; [|constructor].
    constructor; [done|]. constructor; [done|].
    apply Forall_rev. eapply Forall_impl; [done|]. by intros c [Hc _]. }
  destruct s as [|c rest]; [by apply (IH [] st); [cbn; lia | |]|].
  cbn in Hlen. apply Forall_cons in Hs as [Hc Hrest].
  destruct st as [|acc].
  - destruct (boldFrom_Plain_cons c rest) as [-> | (c' & rest' & -> & ->)].
    + rewrite replaceAll_app. apply tagged_plain; [by constructor|].
      apply IH; [lia | done | done].
    + cbn in Hlen. apply Forall_cons in Hrest as [_ Hrest].
      apply IH; [lia | done | constructor].
  - assert (Forall noAngle (rev acc)) as Hacc.
    { apply Forall_rev. eapply Forall_impl; [done|]. by intros x [Hx _]. }
    destruct (boldFrom_Open_cons acc c rest)
      as [[Hlt ->] | [[Hlt ->] | (c' & rest' & -> & ->)]].
    + rewrite replaceAll_app. apply tagged_plain; [|apply IH; [lia | done | done]].
      apply Forall_app. split; [by repeat constructor|].
      apply Forall_app. split; [done | by constructor].
    + apply IH; [lia | done | by constructor].
    + cbn in Hlen. apply Forall_cons in Hrest as [_ Hrest].
      rewrite !replaceAll_app.
      rewrite (replaceAll_id lineFeed "<br>" (rev acc)).
      * apply (tagged_strong (rev acc)); [done|].
        apply IH; [lia | done | done].
      * apply Forall_rev. eapply Forall_impl; [done|].
        intros x [_ Hx]. by apply isLineTerminator_false.
Qed.

Lemma boldFrom_no_star (s : list ascii) :
  Forall (λ c, c ≠ "*"%char) s → boldFrom Plain s = s.
Proof.
  induction 1 as [|c s Hc _ IH]; [done|].
  cbn. by rewrite (proj2 (Ascii.eqb_neq c "*") Hc), IH.
Qed.

(** The HTML that [appendMessage] makes of any text, a reply of the
    text service included, has no tag but [<br>] and [<strong>] with
    its [</strong>], and nothing but text between the two: every angle
    bracket of the text itself is escaped.  A text without ampersand,
    angle bracket, star and line feed is shown as it is. *)
Theorem appendMessage_tags (text : string) :
  tagged (chars (appendMessage text))
  ∧ ((∀ c, c ∈ chars text →
        c ≠ "&"%char ∧ c ≠ "<"%char ∧ c ≠ ">"%char ∧ c ≠ "*"%char ∧ c ≠ lineFeed) →
     appendMessage text = text).
Proof.
  unfold appendMessage. cbn zeta. rewrite chars_str. split.
  - apply (tagged_bold (length (replaceAll ">" "&gt;"
             (replaceAll "<" "&lt;" (replaceAll "&" "&amp;" (chars text)))))).
    + done.
    + apply escaped_noAngle.
    + done.
  - intros Hplain.
    rewrite (replaceAll_id "&"), (replaceAll_id "<"), (replaceAll_id ">"),
      boldFrom_no_star, (replaceAll_id lineFeed).
    + apply str_chars.
    + apply list.Forall_forall. intros c Hc. by apply Hplain.
    + apply list.Forall_forall. intros c Hc. by apply Hplain.
    + apply list.Forall_forall. intros c Hc. by apply Hplain.
    + apply list.Forall_forall. intros c Hc. by apply Hplain.
    + apply list.Forall_forall. intros c Hc. by apply Hplain.
Qed.


(** ** The month of the calendar *)

Lemma monthLength_bounds (y m : Z) : 28 ≤ monthLength y m ≤ 31.
Proof.
  unfold monthLength. destruct (m =? 1); [destruct (isLeapYear y); lia|].
  destruct ((m =? 3) || (m =? 5) || (m =? 8) || (m =? 10)); lia.
Qed.

Lemma makeDay_first (y m : Z) :
  makeDay y m 1 = mkLocalDate (y + m / 12) (m mod 12) 1.
Proof.
  unfold makeDay. cbn zeta.
  pose proof (monthLength_bounds (y + m / 12) (m mod 12)).
  destruct (Z.leb_spec 1 (monthLength (y + m / 12) (m mod 12))); [done | lia].
Qed.

Lemma monthClick_first (date : LocalDate) (click : MonthClick) :
  0 ≤ monthIndex date ≤ 11 → dayOfMonth date = 1 →
  let next := monthClick date click in
  0 ≤ monthIndex next ≤ 11 ∧ dayOfMonth next = 1
  ∧ monthNumber next = monthNumber date + monthsForward [click].
Proof.
  intros Hm Hd. destruct date as [y m d]. cbn in Hm, Hd. subst d.
  destruct click; unfold monthClick, setMonth, setDate; cbn [fullYear monthIndex dayOfMonth];
    rewrite makeDay_first; cbn [fullYear monthIndex dayOfMonth];
    rewrite makeDay_first; unfold monthNumber; cbn [fullYear monthIndex dayOfMonth monthsForward foldr].
  - pose proof (Z.mod_pos_bound (m - 1) 12 ltac:(lia)).
    pose proof (Z.div_mod (m - 1) 12 ltac:(lia)).
    rewrite (Z.mod_small ((m - 1) mod 12) 12), (Z.div_small ((m - 1) mod 12) 12) by lia.
    lia.
  - pose proof (Z.mod_pos_bound (m + 1) 12 ltac:(lia)).
    pose proof (Z.div_mod (m + 1) 12 ltac:(lia)).
    rewrite (Z.mod_small ((m + 1) mod 12) 12), (Z.div_small ((m + 1) mod 12) 12) by lia.
    lia.
Qed.

Lemma monthClicks_first (date : LocalDate) (clicks : list MonthClick) :
  0 ≤ monthIndex date ≤ 11 → dayOfMonth date = 1 →
  let shown := foldl monthClick date clicks in
  0 ≤ monthIndex shown ≤ 11 ∧ dayOfMonth shown = 1
  ∧ monthNumber shown = monthNumber date + monthsForward clicks.
Proof.
  revert date. induction clicks as [|click clicks IH]; intros date Hmonth Hday.
  - cbn. split_and!; lia.
  - cbn [foldl].
    destruct (monthClick_first date click Hmonth Hday) as (Hmonth' & Hday' & Hnum').
    destruct (IH (monthClick date click) Hmonth' Hday') as (? & ? & Hn).
    cbn zeta. split_and!; [lia | lia | done |].
    rewrite Hn, Hnum'. unfold monthsForward. cbn [foldr]. destruct click; lia.
Qed.

(** [initCalendar] puts the calendar on the first day of the current
    month, and from there the two buttons move it by exactly one month
    each way: after any clicks it stands on the first day of the month
    that lies as many months ahead as the clicks on Next outnumber the
    clicks on Previous, December and January carrying into the year, and
    no month is skipped or shown twice, whatever the day of the month
    the page was opened on. *)
Theorem month_navigation (today : LocalDate) (clicks : list MonthClick) :
  validDate today →
  let shown := foldl monthClick (initCalendar today) clicks in
  dayOfMonth shown = 1
  ∧ 0 ≤ monthIndex shown ≤ 11
  ∧ monthNumber shown = monthNumber today + monthsForward clicks
  ∧ (monthsForward clicks = 0 →
     fullYear shown = fullYear today ∧ monthIndex shown = monthIndex today).
Proof.
  intros [Hm Hd] shown.
  assert (initCalendar today = mkLocalDate (fullYear today) (monthIndex today) 1) as Hinit.
  { unfold initCalendar, setDate. rewrite makeDay_first.
    by rewrite Z.mod_small, Z.div_small, Z.add_0_r by lia. }
  destruct (monthClicks_first (initCalendar today) clicks) as (H2 & H1 & H3);
    [by rewrite Hinit | by rewrite Hinit |].
  fold shown in H1, H2, H3. rewrite Hinit in H3.
  unfold monthNumber in *. cbn [fullYear monthIndex] in H3.
  split; [done|]. split; [done|]. split; [lia|].
  intros Hzero. lia.
Qed.

Lemma month_navigation_witness :
  foldl monthClick (initCalendar (mkLocalDate 2024 0 31)) [NextMonth; NextMonth; PrevMonth]
  = mkLocalDate 2024 1 1.
Proof.
  destruct (month_navigation (mkLocalDate 2024 0 31) [NextMonth; NextMonth; PrevMonth])
    as (Hday & _ & Hnum & _).
  - split; cbn; lia.
  - reflexivity.
Defined.


(** ** The look of the page *)

Lemma loadColorTheme_classes (storage : gmap string string) (classes fresh : gset string) :
  fresh ## lookClasses →
  classes ∖ {[ "theme-neon"; "theme-sunset" ]}
  = fresh ∪ (if bool_decide (storage !! "m2mTheme" = Some "dark") then {[ "dark" ]} else ∅) →
  bodyClasses (loadColorTheme (mkLook storage classes)) = classesFor storage fresh.
Proof.
  intros Hfresh Hclasses. unfold loadColorTheme, classesFor.
  cbn [store bodyClasses]. rewrite Hclasses.
  destruct (String.eqb (savedColorTheme storage) "neon"); [set_solver|].
  destruct (String.eqb (savedColorTheme storage) "sunset"); set_solver.
Qed.

Lemma savedColorTheme_other (k v : string) (storage : gmap string string) :
  k ≠ "m2mColorTheme" → savedColorTheme (<[k := v]> storage) = savedColorTheme storage.
Proof. intros Hk. unfold savedColorTheme. by rewrite lookup_insert_ne. Qed.

Lemma classesFor_theme (storage : gmap string string) (fresh : gset string) :
  fresh ## lookClasses →
  classesFor storage fresh ∖ {[ "theme-neon"; "theme-sunset" ]}
  = fresh ∪ (if bool_decide (storage !! "m2mTheme" = Some "dark") then {[ "dark" ]} else ∅).
Proof.
  intros Hfresh. unfold classesFor, lookClasses in *.
  destruct (bool_decide _);
    destruct (String.eqb (savedColorTheme storage) "neon");
    destruct (String.eqb (savedColorTheme storage) "sunset"); set_solver.
Qed.

Lemma classesFor_dark (storage : gmap string string) (fresh : gset string) :
  fresh ## lookClasses →
  "dark" ∈ classesFor storage fresh ↔ storage !! "m2mTheme" = Some "dark".
Proof.
  intros Hfresh. unfold classesFor, lookClasses in *.
  destruct (bool_decide_reflect (storage !! "m2mTheme" = Some "dark"));
    destruct (String.eqb (savedColorTheme storage) "neon");
    destruct (String.eqb (savedColorTheme storage) "sunset"); set_solver.
Qed.

Lemma loadLook_classes (storage : gmap string string) (fresh : gset string) :
  fresh ## lookClasses →
  loadLook storage fresh = mkLook storage (classesFor storage fresh).
Proof.
  intros Hfresh. unfold loadLook, loadTheme. cbn [store bodyClasses].
  assert (∀ look, store (loadColorTheme look) = store look) as Hstore by done.
  assert (∀ look, look = mkLook (store look) (bodyClasses look)) as Heta by by intros [].
  rewrite (Heta (loadColorTheme _)), Hstore.
  destruct (bool_decide_reflect (storage !! "m2mTheme" = Some "dark")) as [Hd|Hd].
  - rewrite Hstore. cbn [store]. f_equal.
    rewrite (Heta (loadColorTheme (mkLook storage _))).
    apply loadColorTheme_classes; [done|].
    rewrite (loadColorTheme_classes storage _ fresh Hfresh).
    + rewrite classesFor_theme by done. by rewrite bool_decide_true.
    + rewrite bool_decide_true by done. unfold lookClasses in Hfresh. set_solver.
  - cbn [store]. f_equal. apply loadColorTheme_classes; [done|].
    rewrite bool_decide_false by done. unfold lookClasses in Hfresh. set_solver.
Qed.

Lemma lookStep_classes (look : Look) (ev : LookEvent) (fresh : gset string) :
  fresh ## lookClasses →
  bodyClasses look = classesFor (store look) fresh →
  bodyClasses (lookStep look ev) = classesFor (store (lookStep look ev)) fresh.
Proof.
  intros Hfresh Hlook. destruct ev as [|theme]; cbn [lookStep].
  - unfold toggleTheme. cbn zeta.
    assert (∀ l, store (loadColorTheme l) = store l) as Hstore by done.
    rewrite Hstore. cbn [store].
    pose proof (classesFor_dark (store look) fresh Hfresh) as Hdark.
    rewrite <- Hlook in Hdark.
    pose proof (classesFor_theme (store look) fresh Hfresh) as Htheme.
    rewrite <- Hlook in Htheme.
    apply loadColorTheme_classes; [done|].
    rewrite lookup_insert_eq.
    destruct (bool_decide_reflect ("dark" ∉ bodyClasses look)) as [Hout|Hin].
    + rewrite bool_decide_true by done.
      rewrite bool_decide_false in Htheme by (by rewrite <- Hdark).
      unfold lookClasses in Hfresh. set_solver.
    + apply dec_stable in Hin.
      rewrite bool_decide_false by done.
      rewrite bool_decide_true in Htheme by (by rewrite <- Hdark).
      unfold lookClasses in Hfresh. set_solver.
  - unfold themeClick.
    assert (∀ l, store (loadColorTheme l) = store l) as Hstore by done.
    rewrite Hstore. cbn [store bodyClasses].
    apply loadColorTheme_classes; [done|].
    rewrite lookup_insert_ne by done. rewrite Hlook.
    by apply classesFor_theme.
Qed.

(** On a page whose [body] comes without the classes [dark],
    [theme-neon] and [theme-sunset], after any clicks on the dark mode
    toggle and the theme buttons: [body] has the class [dark] exactly
    when the store says dark, it has at most one of the two theme
    classes, the one of the stored colour theme, the classes of the page
    itself are all there, and loading the page again from the store
    gives the very same look. *)
Theorem look_survives_reload (storage : gmap string string) (fresh : gset string)
    (evs : list LookEvent) :
  fresh ## lookClasses →
  let look := foldl lookStep (loadLook storage fresh) evs in
  loadLook (store look) fresh = look
  ∧ ("dark" ∈ bodyClasses look ↔ store look !! "m2mTheme" = Some "dark")
  ∧ ("theme-neon" ∈ bodyClasses look ↔ savedColorTheme (store look) = "neon")
  ∧ ("theme-sunset" ∈ bodyClasses look ↔ savedColorTheme (store look) = "sunset")
  ∧ ¬ ("theme-neon" ∈ bodyClasses look ∧ "theme-sunset" ∈ bodyClasses look)
  ∧ fresh ⊆ bodyClasses look.
Proof.
  intros Hfresh look.
  assert (bodyClasses look = classesFor (store look) fresh) as Hlook.
  { subst look.
    assert (bodyClasses (loadLook storage fresh)
            = classesFor (store (loadLook storage fresh)) fresh) as Hinit
      by by rewrite loadLook_classes.
    revert Hinit. generalize (loadLook storage fresh).
    induction evs as [|ev evs IH]; intros l Hl; [done|].
    cbn [foldl]. by apply IH, lookStep_classes. }
  split.
  { rewrite loadLook_classes by done. rewrite <- Hlook. by destruct look. }
  split; [rewrite Hlook; by apply classesFor_dark|].
  rewrite Hlook. unfold classesFor, lookClasses in *.
  destruct (bool_decide (store look !! "m2mTheme" = Some "dark"));
    destruct (String.eqb_spec (savedColorTheme (store look)) "neon") as [Hn|Hn];
    destruct (String.eqb_spec (savedColorTheme (store look)) "sunset") as [Hs|Hs];
    try (rewrite Hn in Hs; discriminate Hs);
    (split_and!; [set_solver | set_solver | set_solver | set_solver]).
Qed.

Lemma look_survives_reload_witness :
  loadLook (store (foldl lookStep (loadLook ∅ ∅) [ToggleTheme; ThemeClick "neon"])) ∅
  = foldl lookStep (loadLook ∅ ∅) [ToggleTheme; ThemeClick "neon"].
Proof.
  destruct (look_survives_reload ∅ ∅ [ToggleTheme; ThemeClick "neon"]) as [Hreload _].
  - apply disjoint_empty_l.
  - exact Hreload.
Defined.


(** ** The colours of the chart *)

Lemma hexValue_digit (c : ascii) (v : N) :
  JSON.hexValue c = Some v →
  (v < 16)%N ∧ Chars.isTrimSpace c = false
  ∧ Ascii.eqb c "-"%char = false ∧ Ascii.eqb c "+"%char = false
  ∧ Ascii.eqb c "x"%char = false ∧ Ascii.eqb c "X"%char = false
  ∧ Ascii.eqb c "#"%char = false.
Proof.
  destruct c as [[|] [|] [|] [|] [|] [|] [|] [|]]; vm_compute;
    intros [= <-] || intros [=]; by repeat split.
Qed.

Lemma roundToDouble_exact (n : Z) : 0 ≤ n < 2 ^ 53 → roundToDouble n = Finite n.
Proof.
  intros Hn. unfold roundToDouble. cbn zeta.
  destruct (Z.eqb_spec n 0) as [->|Hz]; [done|].
  assert (Z.log2 n < 53) by (apply Z.log2_lt_pow2; lia).
  destruct (Z.leb_spec (Z.log2 n + 1) 53); [done | lia].
Qed.

Lemma toInt32_small (n : Z) : 0 ≤ n < 2 ^ 31 → toInt32 (Finite n) = n.
Proof.
  intros Hn. unfold toInt32. cbn zeta.
  rewrite Z.mod_small by lia.
  destruct (Z.leb_spec (2 ^ 31) n); [lia | done].
Qed.

Lemma byte_of (n k : Z) : 0 ≤ k → Z.land (Z.shiftr n k) 255 = (n / 2 ^ k) mod 256.
Proof.
  intros Hk. rewrite Z.shiftr_div_pow2 by done.
  change 255 with (Z.ones 8). by rewrite Z.land_ones.
Qed.

Lemma parseInt16_digits (c : ascii) (v : N) (rest : list ascii) :
  JSON.hexValue c = Some v →
  (∀ x rest', rest = x :: rest' → JSON.hexValue x ≠ None) →
  hexNumber (hexPrefix (c :: rest)) < 2 ^ 53 →
  parseInt16 (c :: rest) = Finite (hexNumber (hexPrefix (c :: rest))).
Proof.
  intros Hc Hrest Hsmall.
  destruct (hexValue_digit c v Hc) as (_ & Hsp & Hminus & Hplus & _).
  unfold parseInt16. cbn [dropSpaces]. rewrite Hsp, Hminus, Hplus. cbn [orb].
  assert (match rest with
          | x :: rest' =>
              if Ascii.eqb c "0"%char && (Ascii.eqb x "x"%char || Ascii.eqb x "X"%char)
              then rest' else c :: rest
          | [] => c :: rest
          end = c :: rest) as ->.
  { destruct rest as [|x rest']; [done|].
    destruct (JSON.hexValue x) as [vx|] eqn:Hx; [|by destruct (Hrest x rest' eq_refl)].
    destruct (hexValue_digit x vx Hx) as (_ & _ & _ & _ & -> & -> & _).
    by rewrite andb_false_r. }
  assert (0 ≤ hexNumber (hexPrefix (c :: rest))) as Hpos.
  { unfold hexNumber. generalize (hexPrefix (c :: rest)).
    assert (∀ l acc, 0 ≤ acc → 0 ≤ foldl (λ acc d, 16 * acc + Z.of_N d) acc l) as Hfold.
    { induction l as [|d l IH]; intros acc Hacc; [done|]. cbn. apply IH. lia. }
    intros l. by apply Hfold. }
  cbn [hexPrefix] in Hsmall, Hpos |- *. rewrite Hc in Hsmall, Hpos |- *.
  by rewrite roundToDouble_exact by lia.
Qed.

(** For a colour in the form that the colour picker gives and the
    built-in moods have, a [#] and six hexadecimal digits in either
    case, [hexToRgba] gives the three channels of the colour, each the
    value of its pair of digits, and the opacity as passed.  A colour in
    the short form of three digits is not widened: its first digit
    becomes the green channel and red is 0. *)
Theorem hexToRgba_channels (alpha : string)
    (d1 d2 d3 d4 d5 d6 : ascii) (v1 v2 v3 v4 v5 v6 : N) :
  JSON.hexValue d1 = Some v1 → JSON.hexValue d2 = Some v2 →
  JSON.hexValue d3 = Some v3 → JSON.hexValue d4 = Some v4 →
  JSON.hexValue d5 = Some v5 → JSON.hexValue d6 = Some v6 →
  hexToRgba (str ("#"%char :: [d1; d2; d3; d4; d5; d6])) alpha
  = rgbaText (16 * Z.of_N v1 + Z.of_N v2) (16 * Z.of_N v3 + Z.of_N v4)
             (16 * Z.of_N v5 + Z.of_N v6) alpha
  ∧ hexToRgba (str ("#"%char :: [d1; d2; d3])) alpha
    = rgbaText 0 (Z.of_N v1) (16 * Z.of_N v2 + Z.of_N v3) alpha.
Proof.
  intros H1 H2 H3 H4 H5 H6.
  destruct (hexValue_digit _ _ H1) as (B1 & _).
  destruct (hexValue_digit _ _ H2) as (B2 & _).
  destruct (hexValue_digit _ _ H3) as (B3 & _).
  destruct (hexValue_digit _ _ H4) as (B4 & _).
  destruct (hexValue_digit _ _ H5) as (B5 & _).
  destruct (hexValue_digit _ _ H6) as (B6 & _).
  assert (hexNumber (hexPrefix [d1; d2; d3; d4; d5; d6])
          = 1048576 * Z.of_N v1 + 65536 * Z.of_N v2 + 4096 * Z.of_N v3
            + 256 * Z.of_N v4 + 16 * Z.of_N v5 + Z.of_N v6) as Hsix.
  { cbn [hexPrefix]. rewrite H1, H2, H3, H4, H5, H6. unfold hexNumber. cbn [foldl]. lia. }
  assert (hexNumber (hexPrefix [d1; d2; d3])
          = 256 * Z.of_N v1 + 16 * Z.of_N v2 + Z.of_N v3) as Hthree.
  { cbn [hexPrefix]. rewrite H1, H2, H3. unfold hexNumber. cbn [foldl]. lia. }
  unfold hexToRgba, rgbaText. cbn zeta. rewrite !chars_str.
  cbn [removeFirst]. change (Ascii.eqb "#" "#") with true. cbn match.
  split.
  - rewrite (parseInt16_digits d1 v1 _ H1);
      [| intros x rest' [= <- _]; by rewrite H2 | rewrite Hsix; lia].
    rewrite Hsix, toInt32_small by lia.
    set (n := _ + Z.of_N v6).
    rewrite <- (Z.shiftr_0_r n) at 3. rewrite !byte_of by lia.
    assert ((n / 2 ^ 16) mod 256 = 16 * Z.of_N v1 + Z.of_N v2) as ->.
    { subst n. change (2 ^ 16) with 65536. Z.div_mod_to_equations. lia. }
    assert ((n / 2 ^ 8) mod 256 = 16 * Z.of_N v3 + Z.of_N v4) as ->.
    { subst n. change (2 ^ 8) with 256. Z.div_mod_to_equations. lia. }
    assert ((n / 2 ^ 0) mod 256 = 16 * Z.of_N v5 + Z.of_N v6) as ->.
    { subst n. change (2 ^ 0) with 1. Z.div_mod_to_equations. lia. }
    done.
  - rewrite (parseInt16_digits d1 v1 _ H1);
      [| intros x rest' [= <- _]; by rewrite H2 | rewrite Hthree; lia].
    rewrite Hthree, toInt32_small by lia.
    set (n := _ + Z.of_N v3).
    rewrite <- (Z.shiftr_0_r n) at 3. rewrite !byte_of by lia.
    assert ((n / 2 ^ 16) mod 256 = 0) as ->.
    { subst n. change (2 ^ 16) with 65536. Z.div_mod_to_equations. lia. }
    assert ((n / 2 ^ 8) mod 256 = Z.of_N v1) as ->.
    { subst n. change (2 ^ 8) with 256. Z.div_mod_to_equations. lia. }
    assert ((n / 2 ^ 0) mod 256 = 16 * Z.of_N v2 + Z.of_N v3) as ->.
    { subst n. change (2 ^ 0) with 1. Z.div_mod_to_equations. lia. }
    done.
Qed.

Lemma hexToRgba_channels_witness :
  hexToRgba "#6c63ff" "0.3" = "rgba(108,99,255,0.3)".
Proof.
  exact (proj1 (hexToRgba_channels "0.3" "6" "c" "6" "3" "f" "f" 6 12 6 3 15 15
                  eq_refl eq_refl eq_refl eq_refl eq_refl eq_refl)).
Defined.


(** ** The order of the entries *)

Lemma chronological_snoc (es : list Entry) (e : Entry) :
  chronological es → (∀ x, x ∈ es → timestamp x < timestamp e) →
  chronological (es ++ [e]).
Proof.
  intros Hes Hlater. induction Hes as [|x es Hes IH Hx]; cbn.
  - repeat constructor.
  - constructor.
    + apply IH. intros y Hy. apply Hlater. by right.
    + apply Forall_app. split; [done|]. apply Forall_singleton. apply Hlater. by left.
Qed.

Lemma chronological_delete (es : list Entry) (i : nat) :
  chronological es → chronological (delete i es).
Proof.
  intros Hes. revert i. induction Hes as [|x es Hes IH Hx]; intros [|i]; cbn.
  - constructor.
  - constructor.
  - done.
  - constructor; [apply IH|].
    apply list.Forall_forall. intros y Hy.
    apply (proj1 (list.Forall_forall _ _) Hx).
    by apply (list_elem_of_delete_inv _ i).
Qed.

Lemma chronological_find (es : list Entry) (e : Entry) :
  chronological es → e ∈ es →
  ∃ i, es !! i = Some e
    ∧ list_find (λ x, timestamp x = timestamp e) es = Some (i, e)
    ∧ (∀ x, x ∈ delete i es ↔ x ∈ es ∧ x ≠ e).
Proof.
  intros Hes. induction Hes as [|y es Hes IH Hy]; [by intros ?%elem_of_nil|].
  pose proof (proj1 (list.Forall_forall _ _) Hy) as Hlater.
  intros [->|He]%elem_of_cons.
  - exists 0%nat. cbn. rewrite decide_True by done. split_and!; [done | done |].
    intros x. rewrite elem_of_cons. split.
    + intros Hx. split; [by right|]. intros ->. apply Hlater in Hx. lia.
    + by intros [[->|Hx] Hne].
  - destruct (IH He) as (i & Hi & Hfind & Hrest).
    exists (S i). cbn. rewrite decide_False by (apply Hlater in He; lia).
    rewrite Hfind. split_and!; [done | done |].
    intros x. rewrite !elem_of_cons, Hrest. split.
    + intros [->|[Hx Hne]]; [|by auto].
      split; [by left|]. intros ->. apply Hlater in He. lia.
    + intros [[->|Hx] Hne]; [by left | by right].
Qed.

Section EntryOrder.

Variable toDateString : Z → string.

Lemma step_entries (st : State) (ev : Event) :
  entries (step toDateString st ev) = entries st
  ∨ (∃ m now, ev = Submit now
       ∧ selectedMood (entryForm st) = Some m ∧ m ≠ ""
       ∧ trim (entryText (entryForm st)) ≠ ""
       ∧ entries (step toDateString st ev)
         = entries st ++ [mkEntry m (trim (entryText (entryForm st))) now])
  ∨ (∃ i, entries (step toDateString st ev) = delete i (entries st)).
Proof.
  destruct ev as [i|t|now|ts|nm c|nm|els|d]; cbn [step].
  - left. by destruct (moodList st !! i).
  - by left.
  - unfold submit.
    destruct (selectedMood (entryForm st)) as [m|] eqn:Hm; cbn [truthyOpt]; [|by left].
    destruct (truthy m) eqn:Htm; cbn [negb orb]; [|by left].
    destruct (truthy (trim (entryText (entryForm st)))) eqn:Htt; cbn [negb]; [|by left].
    right; left. exists m, now.
    split_and!; [done | done | by apply truthy_true | by apply truthy_true | done].
  - unfold deleteEntry. destruct (list_find _ _) as [[idx e]|]; [|by left].
    right; right. by exists idx.
  - left. unfold saveMoodClick. destruct (negb _); [done|].
    unfold addCustomMood. by destruct (negb _).
  - left. unfold deleteMood. by destruct (includes _ _).
  - left. unfold chartClick. by destruct els.
  - by left.
Qed.

(** When the store is empty or was written by the script, its entries
    are in the order of their time stamps and the clock runs forward,
    the entries stay in that order
    whatever is done, so no two have one time stamp, and the Delete
    button of a card removes the entry of that card and no other.  When
    the entries of the store are well formed, every entry is: it has a
    mood and a text that is trimmed and not empty. *)
Theorem entries_in_order (storage : gmap string string) (evs : list Event) :
  appStore storage →
  chronological (readEntries storage) →
  timely toDateString (start toDateString storage) evs →
  let st := run toDateString (start toDateString storage) evs in
  chronological (entries st)
  ∧ NoDup (map timestamp (entries st))
  ∧ (∀ e, e ∈ entries st →
       ∀ x, x ∈ entries (deleteEntry toDateString (timestamp e) st)
            ↔ x ∈ entries st ∧ x ≠ e)
  ∧ (Forall wellFormed (readEntries storage) → Forall wellFormed (entries st)).
Proof.
  intros _ Hstored Hclock st.
  assert (chronological (entries st)
          ∧ (Forall wellFormed (readEntries storage) → Forall wellFormed (entries st)))
    as [Hchron Hwell].
  { subst st.
    assert (entries (start toDateString storage) = readEntries storage) as Hstart by done.
    rewrite <- Hstart in *.
    revert Hstored Hclock. generalize (start toDateString storage).
    induction evs as [|ev evs IH]; intros st0 Hchron Hclock; [done|].
    destruct Hclock as [Hnow Hclock].
    cbn [run foldl]. fold (run toDateString (step toDateString st0 ev) evs).
    destruct (step_entries st0 ev)
      as [Hsame | [(m & now & -> & Hm & Hne & Ht & Hadd) | (i & Hdel)]].
    - destruct (IH (step toDateString st0 ev)) as [? Hw]; [by rewrite Hsame | done |].
      split; [done|]. intros Hall. apply Hw. by rewrite Hsame.
    - destruct Hnow as [_ Hnow].
      destruct (IH (step toDateString st0 (Submit now))) as [? Hw];
        [rewrite Hadd; by apply chronological_snoc | done |].
      split; [done|]. intros Hall. apply Hw. rewrite Hadd.
      apply Forall_app. split; [done|]. apply Forall_singleton.
      split_and!; [done | done | apply trim_trim].
    - destruct (IH (step toDateString st0 ev)) as [? Hw];
        [rewrite Hdel; by apply chronological_delete | done |].
      split; [done|]. intros Hall. apply Hw. rewrite Hdel.
      apply list.Forall_forall. intros x Hx.
      apply (proj1 (list.Forall_forall _ _) Hall).
      by apply (list_elem_of_delete_inv _ i). }
  split_and!; [done | | | done].
  - clear -Hchron. induction Hchron as [|x es Hes IH Hx]; cbn; [constructor|].
    constructor; [|done]. intros Hin. rewrite map_fmap in Hin.
    apply list_elem_of_fmap in Hin as (y & Heq & Hy).
    apply (proj1 (list.Forall_forall _ _) Hx) in Hy. lia.
  - intros e He x.
    destruct (chronological_find (entries st) e Hchron He) as (i & Hi & Hfind & Hrest).
    unfold deleteEntry. rewrite Hfind. unfold renderEntries. state_fields.
    apply Hrest.
Qed.

End EntryOrder.

Lemma entries_in_order_witness :
  chronological (entries (run utcDay (start utcDay ∅)
    [PickMood 4; TypeText "  Walked outside  "; Submit 1700000000000;
     PickMood 0; TypeText "Lunch"; Submit 1700003600000])).
Proof.
  apply (entries_in_order utcDay ∅
    [PickMood 4; TypeText "  Walked outside  "; Submit 1700000000000;
     PickMood 0; TypeText "Lunch"; Submit 1700003600000]).
  - by split; left.
  - constructor.
  - cbn [timely]. unfold timeValue. split_and!; try done; try lia.
    + by intros e ?%elem_of_nil.
    + intros e He. vm_compute in He. apply list_elem_of_singleton in He as ->. done.
Defined.


(** ** The matches of the word pattern *)

Lemma isLower_isWordChar (c : ascii) :
  Chars.isLower c = true → Chars.isWordChar c = true.
Proof. intros Hc. unfold Chars.isWordChar. by rewrite Hc. Qed.

Lemma endsInside_cons (c : ascii) (pre : list ascii) :
  endsInside (c :: pre) ↔ (pre = [] ∧ Chars.isWordChar c = true) ∨ endsInside pre.
Proof.
  split.
  - intros (pre' & x & Heq & Hx). destruct pre' as [|y pre'].
    + left. cbn in Heq. by simplify_eq.
    + right. cbn in Heq. simplify_eq. by exists pre', x.
  - intros [[-> Hc] | (pre' & x & -> & Hx)].
    + by exists [], c.
    + by exists (c :: pre'), x.
Qed.

Lemma endsInside_nil : ¬ endsInside [].
Proof. intros (pre' & x & Heq & _). by destruct pre'. Qed.

(** What the scanner finds from a state on: the run it stands in, if
    that goes on to a boundary in letters only, and the runs of what is
    left. *)
Lemma matchRunsFrom_runs (minLen : nat) (st : scanState) (s : list ascii) (w : string) :
  (1 ≤ minLen)%nat →
  w ∈ matchRunsFrom minLen st s ↔
    (∃ acc run post,
        st = Letters acc ∧ s = run ++ post ∧ forallb Chars.isLower run = true
        ∧ startsOutside post ∧ w = str (rev acc ++ run)
        ∧ (minLen ≤ length acc + length run)%nat)
    ∨ (∃ pre post,
        s = pre ++ chars w ++ post ∧ (minLen ≤ length (chars w))%nat
        ∧ forallb Chars.isLower (chars w) = true
        ∧ (st = Outside ∨ pre ≠ []) ∧ ¬ endsInside pre
        ∧ startsOutside post).
Proof.
  intros Hmin. revert st. induction s as [|c rest IH]; intros st.
  - cbn [matchRunsFrom]. split.
    + destruct st as [|acc|]; cbn [emitRun]; try by intros ?%elem_of_nil.
      destruct (Nat.leb_spec minLen (length acc)); [|by intros ?%elem_of_nil].
      intros ->%list_elem_of_singleton. left. exists acc, [], [].
      cbn. rewrite ?app_nil_r. split_and!; try done; lia.
    + intros [(acc & run & post & -> & Heq & _ & _ & -> & Hlen)
             | (pre & post & Heq & Hlen & _)].
      * symmetry in Heq. apply app_eq_nil in Heq as [-> ->].
        cbn [emitRun]. cbn in Hlen. rewrite app_nil_r.
        rewrite (proj2 (Nat.leb_le _ _)) by lia. by apply list_elem_of_singleton.
      * symmetry in Heq. apply app_eq_nil in Heq as [_ [Hw _]%app_eq_nil].
        rewrite Hw in Hlen. cbn in Hlen. lia.
  - cbn [matchRunsFrom]. destruct (Chars.isWordChar c) eqn:Hc.
    + (* [c] goes on with a word, or begins one *)
      set (st' := match st with
                  | Outside => if Chars.isLower c then Letters [c] else Blocked
                  | Letters acc => if Chars.isLower c then Letters (c :: acc) else Blocked
                  | Blocked => Blocked
                  end).
      assert (match st with
              | Outside =>
                  matchRunsFrom minLen (if Chars.isLower c then Letters [c] else Blocked) rest
              | Letters acc =>
                  matchRunsFrom minLen
                    (if Chars.isLower c then Letters (c :: acc) else Blocked) rest
              | Blocked => matchRunsFrom minLen Blocked rest
              end = matchRunsFrom minLen st' rest) as -> by by destruct st.
      assert (st' ≠ Outside) as Hno.
      { subst st'. destruct st; destruct (Chars.isLower c); done. }
      rewrite (IH st'). split.
      * intros [(acc & run & post & Hst' & -> & Hrun & Hpost & -> & Hlen)
               | (pre & post & -> & Hlen & Hlow & [?|Hne] & Hpre & Hpost)]; [| done |].
        -- subst st'. destruct st as [|acc'|]; destruct (Chars.isLower c) eqn:Hlc;
             simplify_eq.
           ++ right. exists [], post. rewrite chars_str. cbn [rev app length] in *.
              split_and!; [done | cbn; lia | by cbn; rewrite Hlc | by left
                          | apply endsInside_nil | done].
           ++ left. exists acc', (c :: run), post. cbn [rev length] in *.
              rewrite <- app_assoc. cbn [app forallb]. rewrite Hlc.
              split_and!; try done; lia.
        -- right. exists (c :: pre), post.
           split_and!; try done; [by right|].
           rewrite endsInside_cons. by intros [[-> _] | ?].
      * intros [(acc & run & post & -> & Heq & Hrun & Hpost & -> & Hlen)
               | (pre & post & Heq & Hlen & Hlow & Hfirst & Hpre & Hpost)].
        -- destruct run as [|x run].
           { cbn in Heq. subst post. cbn in Hpost. congruence. }
           cbn in Heq. injection Heq as <- ->. cbn [forallb] in Hrun.
           apply andb_true_iff in Hrun as [Hlc Hrun].
           left. exists (c :: acc), run, post. subst st'. rewrite Hlc.
           cbn [rev length]. rewrite <- app_assoc. cbn [app length] in *.
           split_and!; try done; lia.
        -- destruct pre as [|x pre].
           ++ destruct Hfirst as [-> | ?]; [|done].
              destruct (chars w) as [|y run] eqn:Hw; [cbn in Hlen; lia|].
              cbn in Heq. injection Heq as <- ->. cbn [forallb] in Hlow.
              apply andb_true_iff in Hlow as [Hlc Hrun].
              left. exists [c], run, post. subst st'. rewrite Hlc.
              cbn [rev app length] in *. rewrite <- Hw, str_chars.
              split_and!; try done; lia.
           ++ cbn in Heq. injection Heq as <- ->. right. exists pre, post.
              rewrite endsInside_cons in Hpre.
              split_and!; try done; [|tauto].
              right. intros ->. apply Hpre. by left.
    + (* [c] stands outside the words *)
      rewrite elem_of_app, (IH Outside). split.
      * intros [Hemit | [(acc & run & post & [=] & _)
                        | (pre & post & -> & Hlen & Hlow & _ & Hpre & Hpost)]].
        -- destruct st as [|acc|]; cbn [emitRun] in Hemit; try by apply elem_of_nil in Hemit.
           destruct (Nat.leb_spec minLen (length acc)); [|by apply elem_of_nil in Hemit].
           apply list_elem_of_singleton in Hemit as ->.
           left. exists acc, [], (c :: rest). rewrite app_nil_r. cbn.
           split_and!; try done; lia.
        -- right. exists (c :: pre), post.
           split_and!; try done; [by right|].
           rewrite endsInside_cons. intros [[_ Hw] | ?]; [congruence | done].
      * intros [(acc & run & post & -> & Heq & Hrun & Hpost & -> & Hlen)
               | (pre & post & Heq & Hlen & Hlow & Hfirst & Hpre & Hpost)].
        -- destruct run as [|x run].
           ++ left. cbn [emitRun]. cbn in Hlen. rewrite app_nil_r.
              rewrite (proj2 (Nat.leb_le _ _)) by lia. by apply list_elem_of_singleton.
           ++ cbn in Heq. injection Heq as <- ->. cbn [forallb] in Hrun.
              apply andb_true_iff in Hrun as [Hlc _].
              apply isLower_isWordChar in Hlc. congruence.
        -- right. right. destruct pre as [|x pre].
           ++ destruct (chars w) as [|y run] eqn:Hw; [cbn in Hlen; lia|].
              cbn in Heq. injection Heq as <- ->. cbn [forallb] in Hlow.
              apply andb_true_iff in Hlow as [Hlc _].
              apply isLower_isWordChar in Hlc. congruence.
           ++ cbn in Heq. injection Heq as <- ->. exists pre, post.
              rewrite endsInside_cons in Hpre.
              split_and!; try done; [by left | tauto].
Qed.

(** The words that [updateTrending], [updateWordCloud] and
    [analyzeMoodSuggestion] take from a text are what their patterns
    ask for: [w] is among them exactly when the text has [w] between
    two word boundaries and [w] is made of letters a-z, three or more
    for the two word views and one or more for the suggestion. *)
Theorem matchWords_runs (s w : string) :
  (w ∈ matchWords s ↔ isRun 3 (chars s) w)
  ∧ (w ∈ matchRunsFrom 1 Outside (chars s) ↔ isRun 1 (chars s) w).
Proof.
  assert (∀ n, (1 ≤ n)%nat → w ∈ matchRunsFrom n Outside (chars s) ↔ isRun n (chars s) w)
    as Hruns.
  { intros n Hn. rewrite (matchRunsFrom_runs n Outside (chars s) w Hn).
    unfold isRun. split.
    - intros [(acc & run & post & [=] & _) | (pre & post & ? & ? & ? & _ & ? & ?)].
      by exists pre, post.
    - intros (pre & post & ? & ? & ? & ? & ?). right. exists pre, post.
      split_and!; try done. by left. }
  split; [|by apply Hruns].
  unfold matchWords. rewrite <- matchRunsFrom_three. apply Hruns. lia.
Qed.

(** ** The word [constructor] in the word views *)

Section ConstructorWord.

Import PlainObject PlainObjectFacts.

Lemma countWord_constructor (stopwords : list string) (freq : t) (w : string) :
  includes stopwords "constructor" = false →
  own freq "constructor" = None ∨ own freq "constructor" = Some Text →
  own (countWord stopwords freq w) "constructor"
  = if String.eqb w "constructor" then Some Text else own freq "constructor".
Proof.
  intros Hstop Hown. unfold countWord.
  destruct (String.eqb_spec w "constructor") as [->|Hne].
  - rewrite Hstop. rewrite own_set_eq by done. f_equal.
    unfold get. cbn [String.eqb Ascii.eqb Bool.eqb].
    by destruct Hown as [-> | ->].
  - destruct (includes stopwords w); [done|]. by rewrite own_set_ne.
Qed.

Lemma countWords_constructor (stopwords : list string) (ws : list string) (freq : t) :
  includes stopwords "constructor" = false →
  own freq "constructor" = None ∨ own freq "constructor" = Some Text →
  own (foldl (countWord stopwords) freq ws) "constructor"
  = if bool_decide ("constructor" ∈ ws) then Some Text else own freq "constructor".
Proof.
  intros Hstop. revert freq. induction ws as [|w ws IH]; intros freq Hown.
  - by rewrite bool_decide_false by apply not_elem_of_nil.
  - cbn [foldl]. pose proof (countWord_constructor stopwords freq w Hstop Hown) as Hw.
    rewrite IH.
    + rewrite Hw. destruct (String.eqb_spec w "constructor") as [->|Hne].
      * rewrite (bool_decide_true ("constructor" ∈ "constructor" :: ws)) by left.
        by destruct (bool_decide _).
      * rewrite (bool_decide_ext ("constructor" ∈ w :: ws) ("constructor" ∈ ws)); [done|].
        rewrite elem_of_cons. naive_solver.
    + rewrite Hw. destruct (String.eqb w "constructor"); [by right | done].
Qed.

Lemma own_elem (o : t) (k : string) (v : value) :
  NoDup (map fst o) → (k, v) ∈ o → own o k = Some v.
Proof.
  induction o as [|[k' v'] o IH]; cbn; [by intros _ ?%elem_of_nil|].
  intros [Hk' Hnd]%NoDup_cons [[= -> ->]|Hin]%elem_of_cons.
  - by rewrite String.eqb_refl.
  - destruct (String.eqb_spec k' k) as [->|Hne]; [|by apply IH].
    destruct Hk'. rewrite map_fmap.
    by apply (list_elem_of_fmap_2 fst o (k, v)).
Qed.

(** In a word view of texts that have the word [constructor], the
    count of that word is no number: the object of the counts inherits
    a member of that name, to which the first occurrence adds 1 as to a
    text, so the view shows the word, if it does, with a text in the
    place of its count, however often the word occurs. *)
Theorem word_views_constructor (es : list Entry) :
  "constructor" ∈ allWords es →
  own (wordFrequencies trendingStopwords es) "constructor" = Some Text
  ∧ own (wordFrequencies cloudStopwords es) "constructor" = Some Text
  ∧ (∀ v, ("constructor", v) ∈ updateTrending es → v = Text)
  ∧ (∀ v, ("constructor", v) ∈ updateWordCloud es → v = Text).
Proof.
  intros Hin.
  assert (∀ stopwords, includes stopwords "constructor" = false →
            own (wordFrequencies stopwords es) "constructor" = Some Text) as Hown.
  { intros stopwords Hstop. rewrite wordFrequencies_allWords.
    rewrite countWords_constructor by (done || by left).
    by rewrite bool_decide_true. }
  assert (∀ stopwords n v, includes stopwords "constructor" = false →
            ("constructor", v) ∈ take n (ranked (wordFrequencies stopwords es)) →
            v = Text) as Hview.
  { intros stopwords n v Hstop Hv. apply (subseteq_take n) in Hv.
    apply sortBy_elem in Hv. apply own_elem in Hv.
    - rewrite (Hown stopwords Hstop) in Hv. by injection Hv.
    - rewrite wordFrequencies_keys. apply uniqueFrom_NoDup. }
  split_and!; [by apply Hown | by apply Hown | |].
  - intros v. by apply Hview.
  - intros v. by apply Hview.
Qed.

End ConstructorWord.

Lemma word_views_constructor_witness :
  updateTrending builderNote
  = [ ("wrote", PlainObject.Num 1); ("constructor", PlainObject.Text);
      ("twice", PlainObject.Num 1); ("works", PlainObject.Num 1) ].
Proof.
  destruct (word_views_constructor builderNote) as (_ & _ & Hshown & _).
  - apply includes_true. reflexivity.
  - reflexivity.
Defined.
